(** * Cabal: the multiplexing and routing layer

    A shallow embedding of [src/multiplex/multiplexer.ts],
    [src/multiplex/stream-splitter.ts], [src/multiplex/async-router.ts],
    [src/agents/peer-agent.ts] and [src/human-loop/coordinator.ts].

    The code is event driven.  Every callback runs to completion on one
    event loop, so a method is a function from state to state, and what the
    environment does (a process exits, a timer fires, a handler's promise
    settles, the human answers) is a step of its own.  What an [EventEmitter]
    emits is appended to a log in the state.  [crypto.randomUUID()] and
    [Date.now()] are arguments of the call that draws them. *)

From Stdlib Require Import Ascii String ZArith QArith Lia.
From stdpp Require Import base list strings gmap sorting.
Set Warnings "-register-all".

(** * Part I: the model *)

(** ** [Map]: insertion-ordered, one entry per key *)

Module JsMap.
Section map.
Context {K V : Type} `{EqDecision K}.

Fixpoint get (k : K) (m : list (K * V)) : option V :=
  match m with
  | [] => None
  | (k', v) :: m' => if decide (k' = k) then Some v else get k m'
  end.

(** An existing key keeps its place. *)
Fixpoint set (k : K) (v : V) (m : list (K * V)) : list (K * V) :=
  match m with
  | [] => [(k, v)]
  | (k', v') :: m' => if decide (k' = k) then (k', v) :: m' else (k', v') :: set k v m'
  end.

Fixpoint delete (k : K) (m : list (K * V)) : list (K * V) :=
  match m with
  | [] => []
  | (k', v') :: m' => if decide (k' = k) then delete k m' else (k', v') :: delete k m'
  end.

Definition has (k : K) (m : list (K * V)) : bool :=
  match get k m with Some _ => true | None => false end.

Definition size (m : list (K * V)) : nat := length m.
Definition keys (m : list (K * V)) : list K := m.*1.
Definition values (m : list (K * V)) : list V := m.*2.

End map.
End JsMap.

(** ** [Array.prototype.sort] with a comparator

    The sort is stable, and for a comparator that is a consistent order its
    result is the one stable arrangement; insertion from the right computes
    it. *)

Section sort.
Context {A : Type} (cmp : A -> A -> Z).

Fixpoint sort_insert (x : A) (l : list A) : list A :=
  match l with
  | [] => [x]
  | y :: l' => if (cmp x y <=? 0)%Z then x :: l else y :: sort_insert x l'
  end.

Definition js_sort (l : list A) : list A := foldr sort_insert [] l.

End sort.

(** * JavaScript values, as far as the multiplexing layer looks at them *)

Module JS.

(** A parsed JSON text.  A number is kept as the exact decimal [m * 10^e]
    it denotes, normalised so that [m] has no trailing zero; the rounding of
    [JSON.parse] to IEEE doubles is not part of the model. *)
Inductive Json : Type :=
| JNull
| JBool (b : bool)
| JNum (m e : Z)
| JStr (s : string)
| JArr (l : list Json)
| JObj (l : list (string * Json)).

(** A JavaScript value that may be [undefined] ([None]). *)
Definition JsVal : Type := option Json.

(** ToBoolean. *)
Definition truthy (v : JsVal) : bool :=
  match v with
  | None | Some JNull => false
  | Some (JBool b) => b
  | Some (JNum m _) => negb (m =? 0)%Z
  | Some (JStr s) => negb (String.eqb s "")
  | Some (JArr _) | Some (JObj _) => true
  end.

(** [a || b] *)
Definition js_or (a b : JsVal) : JsVal := if truthy a then a else b.

(** A later duplicate of a key wins, as in [JSON.parse]. *)
Fixpoint own_property (name : string) (l : list (string * Json)) : JsVal :=
  match l with
  | [] => None
  | (k, v) :: l' =>
      match own_property name l' with
      | Some v' => Some v'
      | None => if String.eqb k name then Some v else None
      end
  end.

(** [v.name] for the property names this code reads ([streamId], [agentId],
    [type], [data], [topic], [message]): none of them is inherited, so only
    an object has one; on [null] the access is a TypeError ([None]). *)
Definition prop (v : Json) (name : string) : option JsVal :=
  match v with
  | JNull => None
  | JObj l => Some (own_property name l)
  | _ => Some None
  end.

(** ** Bytes and text *)

Definition code (c : ascii) : N := Ascii.N_of_ascii c.
Definition chr (n : N) : ascii := Ascii.ascii_of_N n.

Definition between (lo n hi : N) : bool := ((lo <=? n) && (n <=? hi))%N.

(** U+FFFD in UTF-8. *)
Definition replacement : string :=
  String (chr 239) (String (chr 191) (String (chr 189) EmptyString)).

(** The range of the second byte that may follow lead byte [b], and the
    number of continuation bytes of the sequence (0: [b] is no lead byte). *)
Definition utf8_lead (b : N) : nat * N * N :=
  if between 194 b 223 then (1, 128%N, 191%N)
  else if (b =? 224)%N then (2, 160%N, 191%N)
  else if between 225 b 236 || between 238 b 239 then (2, 128%N, 191%N)
  else if (b =? 237)%N then (2, 128%N, 159%N)
  else if (b =? 240)%N then (3, 144%N, 191%N)
  else if between 241 b 243 then (3, 128%N, 191%N)
  else if (b =? 244)%N then (3, 128%N, 143%N)
  else (0, 0%N, 0%N).

Definition is_cont (c : ascii) : bool := between 128 (code c) 191.

(** [buffer.toString()]: UTF-8 decoding.  The text is kept as its UTF-8
    bytes, so decoding copies every well-formed sequence and puts U+FFFD
    for every maximal ill-formed one (a truncated sequence at the end of the
    chunk included). *)
Fixpoint toString (s : string) : string :=
  match s with
  | EmptyString => EmptyString
  | String b0 r0 =>
      if (code b0 <? 128)%N then String b0 (toString r0)
      else
        match utf8_lead (code b0) with
        | (O, _, _) => replacement +:+ toString r0
        | (S k, lo, hi) =>
            match r0 with
            | EmptyString => replacement
            | String b1 r1 =>
                if negb (between lo (code b1) hi) then replacement +:+ toString r0
                else
                  match k with
                  | O => String b0 (String b1 (toString r1))
                  | S k' =>
                      match r1 with
                      | EmptyString => replacement
                      | String b2 r2 =>
                          if negb (is_cont b2) then replacement +:+ toString r1
                          else
                            match k' with
                            | O => String b0 (String b1 (String b2 (toString r2)))
                            | S _ =>
                                match r2 with
                                | EmptyString => replacement
                                | String b3 r3 =>
                                    if negb (is_cont b3) then replacement +:+ toString r2
                                    else String b0 (String b1 (String b2 (String b3 (toString r3))))
                                end
                            end
                      end
                  end
            end
        end
  end.

(** [data.split('\n')] *)
Fixpoint split_lines (s : string) : list string :=
  match s with
  | EmptyString => [EmptyString]
  | String c r =>
      if (code c =? 10)%N then EmptyString :: split_lines r
      else
        match split_lines r with
        | l :: ls => String c l :: ls
        | [] => [String c EmptyString]
        end
  end.

(** [!line.trim()]: the line holds nothing but white space and line
    terminators (ECMAScript's WhiteSpace and LineTerminator, in UTF-8). *)
Fixpoint blank (s : string) : bool :=
  match s with
  | EmptyString => true
  | String c0 r0 =>
      let b0 := code c0 in
      if between 9 b0 13 || (b0 =? 32)%N then blank r0
      else
        match r0 with
        | String c1 r1 =>
            let b1 := code c1 in
            if (b0 =? 194)%N && (b1 =? 160)%N then blank r1
            else
              match r1 with
              | String c2 r2 =>
                  let b2 := code c2 in
                  if ((b0 =? 225) && (b1 =? 154) && (b2 =? 128)
                      || (b0 =? 226) && (b1 =? 128)
                         && (between 128 b2 138 || between 168 b2 169 || (b2 =? 175))
                      || (b0 =? 226) && (b1 =? 129) && (b2 =? 159)
                      || (b0 =? 227) && (b1 =? 128) && (b2 =? 128)
                      || (b0 =? 239) && (b1 =? 187) && (b2 =? 191))%N
                  then blank r2 else false
              | EmptyString => false
              end
        | EmptyString => false
        end
  end.

(** ** [JSON.parse] *)

Fixpoint skip_ws (s : string) : string :=
  match s with
  | String c r =>
      let b := code c in
      if ((b =? 32) || (b =? 9) || (b =? 10) || (b =? 13))%N then skip_ws r else s
  | EmptyString => s
  end.

Definition digit (c : ascii) : option Z :=
  if between 48 (code c) 57 then Some (Z.of_N (code c) - 48)%Z else None.

Definition hex (c : ascii) : option N :=
  let b := code c in
  if between 48 b 57 then Some (b - 48)%N
  else if between 65 b 70 then Some (b - 55)%N
  else if between 97 b 102 then Some (b - 87)%N
  else None.

(** Digits, most significant first: the value with [acc] in front, the
    number of digits read, and the rest. *)
Fixpoint digits (s : string) (acc : Z) (n : Z) : Z * Z * string :=
  match s with
  | String c r =>
      match digit c with
      | Some d => digits r (10 * acc + d)%Z (n + 1)%Z
      | None => (acc, n, s)
      end
  | EmptyString => (acc, n, s)
  end.

Fixpoint strip_zeros (fuel : nat) (m e : Z) : Z * Z :=
  match fuel with
  | O => (m, e)
  | S fuel' =>
      if (m =? 0)%Z then (0, 0)%Z
      else if (m mod 10 =? 0)%Z then strip_zeros fuel' (m / 10)%Z (e + 1)%Z
      else (m, e)
  end.

Definition mk_num (neg : bool) (m e : Z) : Json :=
  let '(m', e') := strip_zeros (S (Z.to_nat (Z.log2 m))) m e in
  JNum (if neg then - m' else m')%Z e'.

(** number = [-] int [frac] [exp] *)
Definition p_number (s : string) : option (Json * string) :=
  let '(neg, s1) :=
    match s with
    | String c r => if (code c =? 45)%N then (true, r) else (false, s)
    | EmptyString => (false, s)
    end in
  let int_part :=
    match s1 with
    | String c r =>
        if (code c =? 48)%N then Some (0%Z, r)
        else
          match digits s1 0 0 with
          | (m, n, r') => if (n =? 0)%Z then None else Some (m, r')
          end
    | EmptyString => None
    end in
  match int_part with
  | None => None
  | Some (m, s2) =>
      let frac_part :=
        match s2 with
        | String c r =>
            if (code c =? 46)%N then
              match digits r m 0 with
              | (m', n, r') => if (n =? 0)%Z then None else Some (m', (- n)%Z, r')
              end
            else Some (m, 0%Z, s2)
        | EmptyString => Some (m, 0%Z, s2)
        end in
      match frac_part with
      | None => None
      | Some (m', e, s3) =>
          match s3 with
          | String c r =>
              if ((code c =? 101) || (code c =? 69))%N then
                let '(eneg, r1) :=
                  match r with
                  | String c' r' =>
                      if (code c' =? 45)%N then (true, r')
                      else if (code c' =? 43)%N then (false, r')
                      else (false, r)
                  | EmptyString => (false, r)
                  end in
                match digits r1 0 0 with
                | (x, n, r2) =>
                    if (n =? 0)%Z then None
                    else Some (mk_num neg m' (e + (if eneg then - x else x))%Z, r2)
                end
              else Some (mk_num neg m' e, s3)
          | EmptyString => Some (mk_num neg m' e, s3)
          end
      end
  end.

(** The UTF-8 bytes of code point [cp] (a lone surrogate gets the
    three-byte form, so that distinct strings stay distinct). *)
Definition utf8_encode (cp : N) : string :=
  (if cp <? 128 then String (chr cp) EmptyString
   else if cp <? 2048 then
     String (chr (192 + cp / 64)) (String (chr (128 + cp mod 64)) EmptyString)
   else if cp <? 65536 then
     String (chr (224 + cp / 4096))
       (String (chr (128 + (cp / 64) mod 64)) (String (chr (128 + cp mod 64)) EmptyString))
   else
     String (chr (240 + cp / 262144))
       (String (chr (128 + (cp / 4096) mod 64))
          (String (chr (128 + (cp / 64) mod 64)) (String (chr (128 + cp mod 64)) EmptyString))))%N.

(** What a pending high surrogate [hi] and the next code unit [u] add to
    the text, and the high surrogate still pending afterwards. *)
Definition code_unit (hi : option N) (u : N) : string * option N :=
  match hi with
  | Some h =>
      if between 56320 u 57343
      then (utf8_encode (65536 + (h - 55296) * 1024 + (u - 56320))%N, None)
      else if between 55296 u 56319 then (utf8_encode h, Some u)
      else (utf8_encode h +:+ utf8_encode u, None)
  | None =>
      if between 55296 u 56319 then (EmptyString, Some u) else (utf8_encode u, None)
  end.

Definition flush (hi : option N) : string :=
  match hi with Some h => utf8_encode h | None => EmptyString end.

(** The characters of a string literal after its opening quote: the decoded
    text (in reverse, as chunks) and what follows the closing quote. *)
Fixpoint p_chars (s : string) (hi : option N) (acc : list string) : option (string * string) :=
  match s with
  | EmptyString => None
  | String c r =>
      let b := code c in
      if (b =? 34)%N then Some (String.concat EmptyString (rev (flush hi :: acc)), r)
      else if (b <? 32)%N then None
      else if (b =? 92)%N then
        match r with
        | String c1 r1 =>
            let b1 := code c1 in
            let simple (x : N) := p_chars r1 None (String (chr x) EmptyString :: flush hi :: acc) in
            if (b1 =? 34)%N then simple 34%N
            else if (b1 =? 92)%N then simple 92%N
            else if (b1 =? 47)%N then simple 47%N
            else if (b1 =? 98)%N then simple 8%N
            else if (b1 =? 102)%N then simple 12%N
            else if (b1 =? 110)%N then simple 10%N
            else if (b1 =? 114)%N then simple 13%N
            else if (b1 =? 116)%N then simple 9%N
            else if (b1 =? 117)%N then
              match r1 with
              | String h1 (String h2 (String h3 (String h4 r5))) =>
                  match hex h1, hex h2, hex h3, hex h4 with
                  | Some x1, Some x2, Some x3, Some x4 =>
                      let '(txt, hi') := code_unit hi (x1 * 4096 + x2 * 256 + x3 * 16 + x4)%N in
                      p_chars r5 hi' (txt :: acc)
                  | _, _, _, _ => None
                  end
              | _ => None
              end
            else None
        | EmptyString => None
        end
      else p_chars r None (String c EmptyString :: flush hi :: acc)
  end.

Definition starts_with (p s : string) : option string :=
  if String.prefix p s then Some (String.substring (String.length p) (String.length s - String.length p) s)
  else None.

Fixpoint p_value (fuel : nat) (s : string) : option (Json * string) :=
  match fuel with
  | O => None
  | S fuel' =>
      match skip_ws s with
      | EmptyString => None
      | String c r as s' =>
          let b := code c in
          if (b =? 123)%N then
            match skip_ws r with
            | String c' r' as r0 =>
                if (code c' =? 125)%N then Some (JObj [], r') else p_members fuel' r0 []
            | EmptyString => None
            end
          else if (b =? 91)%N then
            match skip_ws r with
            | String c' r' as r0 =>
                if (code c' =? 93)%N then Some (JArr [], r') else p_elements fuel' r0 []
            | EmptyString => None
            end
          else if (b =? 34)%N then
            match p_chars r None [] with
            | Some (txt, r') => Some (JStr txt, r')
            | None => None
            end
          else
            match starts_with "true" s', starts_with "false" s', starts_with "null" s' with
            | Some r', _, _ => Some (JBool true, r')
            | _, Some r', _ => Some (JBool false, r')
            | _, _, Some r' => Some (JNull, r')
            | None, None, None => p_number s'
            end
      end
  end
with p_elements (fuel : nat) (s : string) (acc : list Json) : option (Json * string) :=
  match fuel with
  | O => None
  | S fuel' =>
      match p_value fuel' s with
      | Some (v, r) =>
          match skip_ws r with
          | String c r' =>
              if (code c =? 44)%N then p_elements fuel' r' (v :: acc)
              else if (code c =? 93)%N then Some (JArr (rev (v :: acc)), r')
              else None
          | EmptyString => None
          end
      | None => None
      end
  end
with p_members (fuel : nat) (s : string) (acc : list (string * Json)) : option (Json * string) :=
  match fuel with
  | O => None
  | S fuel' =>
      match skip_ws s with
      | String q r =>
          if (code q =? 34)%N then
            match p_chars r None [] with
            | Some (k, r1) =>
                match skip_ws r1 with
                | String c r2 =>
                    if (code c =? 58)%N then
                      match p_value fuel' r2 with
                      | Some (v, r3) =>
                          match skip_ws r3 with
                          | String c' r4 =>
                              if (code c' =? 44)%N then p_members fuel' r4 ((k, v) :: acc)
                              else if (code c' =? 125)%N then Some (JObj (rev ((k, v) :: acc)), r4)
                              else None
                          | EmptyString => None
                          end
                      | None => None
                      end
                    else None
                | EmptyString => None
                end
            | None => None
            end
          else None
      | EmptyString => None
      end
  end.

(** [JSON.parse(s)]; [None] when it throws a SyntaxError.  Every call of the
    parser on a shorter rest of the text costs at most two units of fuel. *)
Definition JSON_parse (s : string) : option Json :=
  match p_value (2 * String.length s + 2) s with
  | Some (v, r) => match skip_ws r with EmptyString => Some v | _ => None end
  | None => None
  end.

(** Text written with apostrophes where the JSON text has double quotes. *)
Fixpoint dq (s : string) : string :=
  match s with
  | EmptyString => EmptyString
  | String c r => String (if (code c =? 39)%N then chr 34 else c) (dq r)
  end.

(** [new Error(message)], as far as this code reads it: the object with
    its [message]. *)
Definition error_of (message : string) : Json := JObj [("message", JStr message)].

End JS.


(** ** [ClaudeMultiplexer] (src/multiplex/multiplexer.ts) *)

Module Multiplexer.
Import JS.

Record AgentOptions : Type := {
  opt_id : option string;
  opt_args : list string;
  opt_env : list (string * string)
}.

(** The handle [spawn] returns.  The process behind it is the operating
    system's: what is written to its stdin and the signals sent to it are
    logged in the multiplexer's state under its [pid]. *)
Record ChildProcess : Type := {
  pid : nat;
  argv : list string;
  env : list (string * string)
}.

Inductive MessageType : Type := request | response | stream | error.

Record AgentMessage : Type := {
  agentId : string;
  type : MessageType;
  data : Json;
  timestamp : Z;
  correlationId : option string
}.

Inductive Event : Type :=
| agent_spawn (agentId : string)
| agent_exit (agentId : string) (exit_code : option Z)
| message_send (msg : AgentMessage).

Inductive Error : Type :=
| CapacityExceeded (max : nat)    (* Maximum concurrent agents (max) reached *)
| AgentNotFound (agentId : string) (* Agent agentId not found *)
| Thrown (message : string).       (* what a listener threw *)

Inductive Result (A : Type) : Type :=
| Ok (a : A)
| Err (e : Error).
Arguments Ok {A} a.
Arguments Err {A} e.

(** A listener registered with [on]: it sees the event and may throw. *)
Definition Listener : Type := Event -> option string.

Record Mux : Type := {
  maxConcurrent : nat;
  agents : list (string * ChildProcess);
  messageBuffer : gmap string (list AgentMessage);
  listeners : list Listener;
  emitted : list Event;
  (* the processes: how many were spawned, the exit listeners of those that
     still run (pid, the agentId the listener closes over), the lines
     written to a stdin (pid, content) and the kill signals sent *)
  spawned : nat;
  running : list (nat * string);
  stdin : list (nat * string);
  signals : list nat
}.

Definition new (maxConcurrent : nat) : Mux :=
  {| maxConcurrent := maxConcurrent; agents := []; messageBuffer := ∅;
     listeners := []; emitted := []; spawned := 0; running := [];
     stdin := []; signals := [] |}.

Definition with_agents (a : list (string * ChildProcess)) (st : Mux) : Mux :=
  {| maxConcurrent := maxConcurrent st; agents := a; messageBuffer := messageBuffer st;
     listeners := listeners st; emitted := emitted st; spawned := spawned st;
     running := running st; stdin := stdin st; signals := signals st |}.

Definition with_messageBuffer (b : gmap string (list AgentMessage)) (st : Mux) : Mux :=
  {| maxConcurrent := maxConcurrent st; agents := agents st; messageBuffer := b;
     listeners := listeners st; emitted := emitted st; spawned := spawned st;
     running := running st; stdin := stdin st; signals := signals st |}.

Definition with_listeners (l : list Listener) (st : Mux) : Mux :=
  {| maxConcurrent := maxConcurrent st; agents := agents st; messageBuffer := messageBuffer st;
     listeners := l; emitted := emitted st; spawned := spawned st;
     running := running st; stdin := stdin st; signals := signals st |}.

Definition with_emitted (e : list Event) (st : Mux) : Mux :=
  {| maxConcurrent := maxConcurrent st; agents := agents st; messageBuffer := messageBuffer st;
     listeners := listeners st; emitted := e; spawned := spawned st;
     running := running st; stdin := stdin st; signals := signals st |}.

Definition with_processes (n : nat) (r : list (nat * string)) (i : list (nat * string))
    (s : list nat) (st : Mux) : Mux :=
  {| maxConcurrent := maxConcurrent st; agents := agents st; messageBuffer := messageBuffer st;
     listeners := listeners st; emitted := emitted st; spawned := n;
     running := r; stdin := i; signals := s |}.

(** [this.on(..., listener)] *)
Definition on (l : Listener) (st : Mux) : Mux := with_listeners (listeners st ++ [l]) st.

(** [this.emit(ev)]: the listeners run in order; the first one that throws
    ends the call with what it threw. *)
Definition emit (ev : Event) (st : Mux) : Mux * option Error :=
  (with_emitted (emitted st ++ [ev]) st,
   match omap (fun l : Listener => l ev) (listeners st) with
   | [] => None
   | message :: _ => Some (Thrown message)
   end).

(** [child_process.spawn('claude', args, ...)] and the [exit] listener put on
    the handle. *)
Definition spawn (agentId : string) (args : list string) (e : list (string * string))
    (st : Mux) : ChildProcess * Mux :=
  ({| pid := spawned st; argv := args; env := e |},
   with_processes (S (spawned st)) (running st ++ [(spawned st, agentId)])
     (stdin st) (signals st) st).

(** [agent.stdin.write(JSON.stringify({ content: message }) + '\n')] *)
Definition stdin_write (agent : ChildProcess) (message : string) (st : Mux) : Mux :=
  with_processes (spawned st) (running st) (stdin st ++ [(pid agent, message)]) (signals st) st.

(** [agent.kill()] *)
Definition kill (agent : ChildProcess) (st : Mux) : Mux :=
  with_processes (spawned st) (running st) (stdin st) (signals st ++ [pid agent]) st.

(** [options.id || randomUUID()] *)
Definition id_or (o : option string) (uuid : string) : string :=
  match o with
  | Some i => if String.eqb i "" then uuid else i
  | None => uuid
  end.

Definition spawnAgent (options : AgentOptions) (uuid : string) (st : Mux) : Mux * Result string :=
  let agentId := id_or (opt_id options) uuid in
  if maxConcurrent st <=? JsMap.size (agents st) then
    (st, Err (CapacityExceeded (maxConcurrent st)))
  else
    let args := ["code"; "--print"; "--format"; "json-stream"] ++ opt_args options in
    let '(agent, st1) := spawn agentId args (opt_env options) st in
    let st2 := with_agents (JsMap.set agentId agent (agents st1)) st1 in
    let st3 := with_messageBuffer (<[agentId := []]> (messageBuffer st2)) st2 in
    match emit (agent_spawn agentId) st3 with
    | (st4, Some e) => (st4, Err e)
    | (st4, None) => (st4, Ok agentId)
    end.

(** The process [p] exits with [exit_code]: the listener of lines 64-68 runs,
    once. *)
Definition on_exit (p : nat) (exit_code : option Z) (st : Mux) : Mux :=
  match JsMap.get p (running st) with
  | None => st
  | Some agentId =>
      let st1 := with_processes (spawned st) (JsMap.delete p (running st))
                   (stdin st) (signals st) st in
      let st2 := with_agents (JsMap.delete agentId (agents st1)) st1 in
      let st3 := with_messageBuffer (base.delete agentId (messageBuffer st2)) st2 in
      fst (emit (agent_exit agentId exit_code) st3)
  end.

Definition sendToAgent (now : Z) (uuid : string) (agentId message : string)
    (correlationId : option string) (st : Mux) : Mux * Result unit :=
  match JsMap.get agentId (agents st) with
  | None => (st, Err (AgentNotFound agentId))
  | Some agent =>
      let msg := {| agentId := agentId; type := request; data := JStr message;
                    timestamp := now; correlationId := Some (id_or correlationId uuid) |} in
      match emit (message_send msg) st with
      | (st1, Some e) => (st1, Err e)
      | (st1, None) => (stdin_write agent message st1, Ok tt)
      end
  end.

(** The sends of [broadcast], one after the other (none of them awaits
    anything, so each runs to its end inside [map]): the state after them
    and the promises they returned.  [draw i] is the time and the UUID the
    [i]-th send draws. *)
Fixpoint sends (draw : nat -> Z * string) (i : nat) (ids : list string) (message : string)
    (st : Mux) : Mux * list (Result unit) :=
  match ids with
  | [] => (st, [])
  | agentId :: ids' =>
      let '(st1, r) := sendToAgent (fst (draw i)) (snd (draw i)) agentId message None st in
      let '(st2, rs) := sends draw (S i) ids' message st1 in
      (st2, r :: rs)
  end.

(** [Promise.all] of promises that have settled: the first rejection, in the
    order of the array, or the fulfilment of all. *)
Fixpoint promise_all (rs : list (Result unit)) : Result unit :=
  match rs with
  | [] => Ok tt
  | Ok _ :: rs' => promise_all rs'
  | Err e :: _ => Err e
  end.

Definition broadcast (draw : nat -> Z * string) (message : string) (st : Mux) : Mux * Result unit :=
  let '(st1, promises) := sends draw 0 (JsMap.keys (agents st)) message st in
  (st1, promise_all promises).

Definition getAgentIds (st : Mux) : list string := JsMap.keys (agents st).

Definition killAgent (agentId : string) (st : Mux) : Mux :=
  match JsMap.get agentId (agents st) with
  | Some agent => with_agents (JsMap.delete agentId (agents st)) (kill agent st)
  | None => st
  end.

Definition killAll (st : Mux) : Mux :=
  let st1 := foldl (fun s a => kill a.2 s) st (agents st) in
  with_messageBuffer ∅ (with_agents [] st1).

(** What can happen to a multiplexer. *)
Inductive Op : Type :=
| do_on (l : Listener)
| do_spawnAgent (options : AgentOptions) (uuid : string)
| do_sendToAgent (now : Z) (uuid agentId message : string) (correlationId : option string)
| do_broadcast (draw : nat -> Z * string) (message : string)
| do_killAgent (agentId : string)
| do_killAll
| do_exit (p : nat) (exit_code : option Z).

Definition step (o : Op) (st : Mux) : Mux :=
  match o with
  | do_on l => on l st
  | do_spawnAgent options uuid => fst (spawnAgent options uuid st)
  | do_sendToAgent now uuid a m c => fst (sendToAgent now uuid a m c st)
  | do_broadcast draw m => fst (broadcast draw m st)
  | do_killAgent a => killAgent a st
  | do_killAll => killAll st
  | do_exit p c => on_exit p c st
  end.

Definition run (ops : list Op) (st : Mux) : Mux := foldl (fun s o => step o s) st ops.

End Multiplexer.

(** ** [PeerAgent] (src/agents/peer-agent.ts) *)

Module Peer.
Import JS.

(** The peer and the multiplexer it was given.  [node_emitted] is what the
    peer passed to [this.node.emit], in order. *)
Record PeerAgent : Type := {
  nodeId : string;
  agentId : string;
  peers : list string;
  node_emitted : list (string * Json);
  multiplexer : Multiplexer.Mux
}.

Definition create (mux : Multiplexer.Mux) (nodeId : string) : PeerAgent :=
  {| nodeId := nodeId; agentId := ""; peers := []; node_emitted := []; multiplexer := mux |}.

Definition node_emit (topic : string) (payload : Json) (p : PeerAgent) : PeerAgent :=
  {| nodeId := nodeId p; agentId := agentId p; peers := peers p;
     node_emitted := node_emitted p ++ [(topic, payload)]; multiplexer := multiplexer p |}.

Definition with_multiplexer (mux : Multiplexer.Mux) (p : PeerAgent) : PeerAgent :=
  {| nodeId := nodeId p; agentId := agentId p; peers := peers p;
     node_emitted := node_emitted p; multiplexer := mux |}.

Definition with_agentId (a : string) (p : PeerAgent) : PeerAgent :=
  {| nodeId := nodeId p; agentId := a; peers := peers p;
     node_emitted := node_emitted p; multiplexer := multiplexer p |}.

Definition initialize (uuid : string) (p : PeerAgent) : PeerAgent * Multiplexer.Result unit :=
  let options := {| Multiplexer.opt_id := None; Multiplexer.opt_args := ["--temperature"; "0.7"];
                    Multiplexer.opt_env := [] |} in
  match Multiplexer.spawnAgent options uuid (multiplexer p) with
  | (mux, Multiplexer.Err e) => (with_multiplexer mux p, Multiplexer.Err e)
  | (mux, Multiplexer.Ok a) =>
      let p1 := with_agentId a (with_multiplexer mux p) in
      (node_emit "peer:announce"
         (JObj [("nodeId", JStr (nodeId p1)); ("agentId", JStr a);
                ("capabilities", JArr [JStr "chat"; JStr "code"; JStr "analysis"])]) p1,
       Multiplexer.Ok tt)
  end.

Definition shutdown (p : PeerAgent) : PeerAgent :=
  let p1 := with_multiplexer (Multiplexer.killAgent (agentId p) (multiplexer p)) p in
  node_emit "peer:leave" (JObj [("nodeId", JStr (nodeId p1))]) p1.

End Peer.

(** ** [StreamSplitter] (src/multiplex/stream-splitter.ts) *)

Module Splitter.
Import JS.

(** A key of the [streams] and [metadata] maps, compared as [Map] compares:
    a string, a number or [true] by value, an object or array by reference.
    [routeMessage] only ever gets the result of a fresh [JSON.parse], so an
    object or array in it is a reference no earlier key holds: it gets the
    next reference number. *)
Inductive Key : Type :=
| KStr (s : string)
| KNum (m e : Z)
| KTrue
| KRef (r : nat).

#[export] Instance Key_eq_dec : EqDecision Key.
Proof. solve_decision. Defined.

(** A [PassThrough]: the lines written to it, each the [JSON.stringify] of
    the value listed, and whether [end()] was called. *)
Record PassThrough : Type := {
  written : list JsVal;
  ended : bool
}.

Record StreamMetadata : Type := {
  agentId : Json;
  streamId : Json;
  type : Json;
  started : Z;
  chunks : nat
}.

(** What the splitter emits; a metadata object is listed as it is at that
    moment. *)
Inductive Event : Type :=
| stream_created (streamId : Json) (metadata : option StreamMetadata)
| stream_start (streamId : Json) (data : JsVal)
| stream_chunk (streamId : Json) (chunk : JsVal)
| stream_end (streamId : Json) (metadata : StreamMetadata).

Record Splitter : Type := {
  streams : list (Key * PassThrough);
  metadata : list (Key * StreamMetadata);
  buffers : gmap string string;
  emitted : list Event;
  refs : nat
}.

Definition new : Splitter :=
  {| streams := []; metadata := []; buffers := ∅; emitted := []; refs := 0 |}.

Definition with_streams (s : list (Key * PassThrough)) (st : Splitter) : Splitter :=
  {| streams := s; metadata := metadata st; buffers := buffers st;
     emitted := emitted st; refs := refs st |}.

Definition with_metadata (m : list (Key * StreamMetadata)) (st : Splitter) : Splitter :=
  {| streams := streams st; metadata := m; buffers := buffers st;
     emitted := emitted st; refs := refs st |}.

Definition with_buffers (b : gmap string string) (st : Splitter) : Splitter :=
  {| streams := streams st; metadata := metadata st; buffers := b;
     emitted := emitted st; refs := refs st |}.

Definition with_refs (r : nat) (st : Splitter) : Splitter :=
  {| streams := streams st; metadata := metadata st; buffers := buffers st;
     emitted := emitted st; refs := r |}.

Definition emit (ev : Event) (st : Splitter) : Splitter :=
  {| streams := streams st; metadata := metadata st; buffers := buffers st;
     emitted := emitted st ++ [ev]; refs := refs st |}.

(** [a || d] where [d] is truthy *)
Definition or_else (a : JsVal) (d : Json) : Json :=
  match a with
  | Some v => if truthy a then v else d
  | None => d
  end.

(** The map key a truthy value is, [r] being the next reference number. *)
Definition key_of (v : Json) (r : nat) : Key :=
  match v with
  | JStr s => KStr s
  | JNum m e => KNum m e
  | JBool _ => KTrue
  | JNull | JArr _ | JObj _ => KRef r
  end.

Definition is_ref (k : Key) : bool := match k with KRef _ => true | _ => false end.

(** [stream.write(JSON.stringify(v) + '\n')] on the stream under [k] *)
Definition write (k : Key) (stream : PassThrough) (v : JsVal) (st : Splitter) : Splitter :=
  with_streams
    (JsMap.set k {| written := written stream ++ [v]; ended := ended stream |} (streams st)) st.

Definition cleanup (k : Key) (st : Splitter) : Splitter :=
  with_metadata (JsMap.delete k (metadata st)) (with_streams (JsMap.delete k (streams st)) st).

(** How a call ended, and the state it left. *)
Inductive Outcome : Type :=
| Returned (st : Splitter)
| Threw (st : Splitter).

Definition is_type (ty : JsVal) (name : string) : bool :=
  match ty with
  | Some (JStr s) => String.eqb s name
  | _ => false
  end.

Definition routeMessage (now : Z) (msg : Json) (st : Splitter) : Outcome :=
  match prop msg "streamId", prop msg "agentId", prop msg "type", prop msg "data" with
  | Some m_streamId, Some m_agentId, Some m_type, Some m_data =>
      let sid := or_else (js_or m_streamId m_agentId) (JStr "default") in
      let k := key_of sid (refs st) in
      let st0 := if is_ref k then with_refs (S (refs st)) st else st in
      (* Get or create stream *)
      let '(stream, st1) :=
        match JsMap.get k (streams st0) with
        | Some stream => (stream, st0)
        | None =>
            let stream := {| written := []; ended := false |} in
            let sa := with_streams (JsMap.set k stream (streams st0)) st0 in
            let sb := with_metadata
                        (JsMap.set k {| agentId := or_else m_agentId sid;
                                        streamId := sid;
                                        type := or_else m_type (JStr "response");
                                        started := now;
                                        chunks := 0 |} (metadata sa)) sa in
            (stream, emit (stream_created sid (JsMap.get k (metadata sb))) sb)
        end in
      (* Update metadata *)
      match JsMap.get k (metadata st1) with
      | None => Threw st1
      | Some meta0 =>
          let meta := {| agentId := agentId meta0; streamId := streamId meta0;
                         type := type meta0; started := started meta0;
                         chunks := S (chunks meta0) |} in
          let st2 := with_metadata (JsMap.set k meta (metadata st1)) st1 in
          (* Handle different message types *)
          if is_type m_type "stream:start" then
            Returned (emit (stream_start sid m_data) st2)
          else if is_type m_type "stream:chunk" then
            Returned (emit (stream_chunk sid m_data) (write k stream m_data st2))
          else if is_type m_type "stream:end" then
            let st3 := with_streams
                         (JsMap.set k {| written := written stream; ended := true |}
                            (streams st2)) st2 in
            Returned (cleanup k (emit (stream_end sid meta) st3))
          else
            Returned (write k stream (Some msg) st2)
      end
  | _, _, _, _ => Threw st
  end.

Definition bufferKey : string := "partial".

Definition handlePartialMessage (now : Z) (partial : string) (st : Splitter) : Splitter :=
  let existing := default "" (buffers st !! bufferKey) in
  let combined := existing +:+ partial in
  match JSON_parse combined with
  | Some parsed =>
      match routeMessage now parsed st with
      | Returned st1 => with_buffers (base.delete bufferKey (buffers st1)) st1
      | Threw st1 => with_buffers (<[bufferKey := combined]> (buffers st1)) st1
      end
  | None =>
      (* Still partial, keep buffering *)
      with_buffers (<[bufferKey := combined]> (buffers st)) st
  end.

Definition processLine (now : Z) (st : Splitter) (line : string) : Splitter :=
  if blank line then st
  else
    match JSON_parse line with
    | Some parsed =>
        match routeMessage now parsed st with
        | Returned st1 => st1
        | Threw st1 => handlePartialMessage now line st1
        end
    | None => handlePartialMessage now line st
    end.

(** [chunk] is the bytes of the [Buffer]. *)
Definition processChunk (now : Z) (chunk : string) (st : Splitter) : Splitter :=
  let data := toString chunk in
  let lines := split_lines data in
  foldl (processLine now) st lines.

(** The chunks of a stream, in the order they arrive, each with the time of
    its arrival. *)
Definition processChunks (chunks : list (Z * string)) (st : Splitter) : Splitter :=
  foldl (fun s c => processChunk c.1 c.2 s) st chunks.


(** A sequence of [routeMessage] calls; a call that throws leaves what it
    had done. *)
Definition route (st : Splitter) (call : Z * Json) : Splitter :=
  match routeMessage call.1 call.2 st with
  | Returned st1 | Threw st1 => st1
  end.

Definition routeAll (calls : list (Z * Json)) (st : Splitter) : Splitter := foldl route st calls.

End Splitter.

(** ** [AsyncRouter] (src/multiplex/async-router.ts): the message queue *)

Module Router.
Import JS.

(** The data of a [route:message] event.  [AsyncRouter.broadcast] (lines
    130-137) emits an object literal there, so a message is an object: its
    properties. *)
Definition Msg : Type := list (string * Json).

(** A [RegExp] is its text ([pattern.toString()]) and, for a pattern without
    the [g] and [y] flags, what [pattern.test(JSON.stringify(msg))] answers
    for each message. *)
Inductive Pattern : Type :=
| PString (s : string)
| PRegExp (text : string) (test : Msg -> bool).

(** How the promise a handler returns settles: fulfilled with a value, or
    rejected with a reason, which is any value or [undefined]. *)
Inductive Settled : Type :=
| Fulfilled (result : JsVal)
| Rejected (reason : JsVal).

(** [error.message] in a [catch] block: a TypeError ([None]) when the
    reason is [undefined] or [null]. *)
Definition error_message (reason : JsVal) : option JsVal :=
  match reason with
  | Some v => prop v "message"
  | None => None
  end.

Record RouteConfig : Type := {
  pattern : Pattern;
  handler : Msg -> Settled;
  priority : option Z
}.

(** What the router emits, on itself ([route:handled], [route:error]) and on
    its node ([route:added], [route:result]). *)
Inductive Event : Type :=
| route_added (nodeId topic pattern : string)
| route_handled (topic pattern : string) (duration : Z) (success : bool)
| route_result (originalMsg : Msg) (result : Json) (handledBy topic : string)
| route_error (topic pattern : string) (error : JsVal) (msg : Msg).

(** A call of [handleRoute] that waits for its handler. *)
Record Task : Type := {
  topic : string;
  route : RouteConfig;
  msg : Msg;
  start : Z
}.

Record Router : Type := {
  nodeId : string;
  routes : list (string * list RouteConfig);
  messageQueue : list (Msg * Z);
  processing : bool;
  (* the calls of processQueue that wait at line 83, each with the
     handleRoute promises it waits for that have not settled *)
  waiting : list (list Task);
  emitted : list Event;
  (* the messages shifted off the queue so far, in order; the code keeps no
     such record and nothing below reads it *)
  shifted : list Msg
}.

Definition new (nodeId : string) : Router :=
  {| nodeId := "router:" +:+ nodeId; routes := []; messageQueue := []; processing := false;
     waiting := []; emitted := []; shifted := [] |}.

Definition with_routes (r : list (string * list RouteConfig)) (st : Router) : Router :=
  {| nodeId := nodeId st; routes := r; messageQueue := messageQueue st;
     processing := processing st; waiting := waiting st; emitted := emitted st;
     shifted := shifted st |}.

Definition with_messageQueue (q : list (Msg * Z)) (st : Router) : Router :=
  {| nodeId := nodeId st; routes := routes st; messageQueue := q;
     processing := processing st; waiting := waiting st; emitted := emitted st;
     shifted := shifted st |}.

Definition with_processing (b : bool) (st : Router) : Router :=
  {| nodeId := nodeId st; routes := routes st; messageQueue := messageQueue st;
     processing := b; waiting := waiting st; emitted := emitted st;
     shifted := shifted st |}.

Definition with_waiting (w : list (list Task)) (st : Router) : Router :=
  {| nodeId := nodeId st; routes := routes st; messageQueue := messageQueue st;
     processing := processing st; waiting := w; emitted := emitted st;
     shifted := shifted st |}.

Definition emit (ev : Event) (st : Router) : Router :=
  {| nodeId := nodeId st; routes := routes st; messageQueue := messageQueue st;
     processing := processing st; waiting := waiting st; emitted := emitted st ++ [ev];
     shifted := shifted st |}.

Definition with_shifted (s : list Msg) (st : Router) : Router :=
  {| nodeId := nodeId st; routes := routes st; messageQueue := messageQueue st;
     processing := processing st; waiting := waiting st; emitted := emitted st;
     shifted := s |}.

Definition pattern_toString (p : Pattern) : string :=
  match p with
  | PString s => s
  | PRegExp text _ => text
  end.

(** [b.priority || 0] *)
Definition priority_or_0 (r : RouteConfig) : Z := default 0%Z (priority r).

Definition addRoute (topic : string) (config : RouteConfig) (st : Router) : Router :=
  let existing := default [] (JsMap.get topic (routes st)) in
  let sorted := js_sort (fun a b => (priority_or_0 b - priority_or_0 a)%Z) (existing ++ [config]) in
  emit (route_added (nodeId st) topic (pattern_toString (pattern config)))
    (with_routes (JsMap.set topic sorted (routes st)) st).

Definition is_string (v : JsVal) (s : string) : bool :=
  match v with
  | Some (JStr s') => String.eqb s' s
  | _ => false
  end.

Definition matchesPattern (msg : Msg) (p : Pattern) : bool :=
  match p with
  | PString s => is_string (own_property "topic" msg) s || is_string (own_property "type" msg) s
  | PRegExp _ test => test msg
  end.

(** Lines 72-80: the [handleRoute] calls for [msg], in the order of the
    [routes] map and of each topic's list. *)
Definition fan_out (now : Z) (msg : Msg) (rs : list (string * list RouteConfig)) : list Task :=
  flat_map
    (fun tr : string * list RouteConfig =>
       omap (fun r => if matchesPattern msg (pattern r)
                      then Some {| topic := tr.1; route := r; msg := msg; start := now |}
                      else None) tr.2)
    rs.

(** [processQueue] from the loop test of line 68 to where it waits (line 83)
    or returns. *)
Definition loop (now : Z) (st : Router) : Router :=
  match messageQueue st with
  | [] => with_processing false st
  | (m, _) :: q =>
      with_waiting (waiting st ++ [fan_out now m (routes st)])
        (with_shifted (shifted st ++ [m]) (with_messageQueue q st))
  end.

Definition processQueue (now : Z) (st : Router) : Router :=
  loop now (with_processing true st).

(** The listener of [route:message] (lines 34-43). *)
Definition on_route_message (now : Z) (data : Msg) (st : Router) : Router :=
  let st1 := with_messageQueue (messageQueue st ++ [(data, now)]) st in
  if negb (processing st1) then processQueue now st1 else st1.

(** [handleRoute] after its handler settled (lines 102-127).  When the
    [catch] block cannot read the message of the reason it throws: the
    promise of [handleRoute] is rejected and nothing is emitted. *)
Definition handleRoute_settled (now : Z) (t : Task) (st : Router) : Router :=
  match handler (route t) (msg t) with
  | Fulfilled result =>
      let st1 := emit (route_handled (topic t) (pattern_toString (pattern (route t)))
                         (now - start t) true) st in
      match result with
      | Some v => if truthy result then emit (route_result (msg t) v (nodeId st1) (topic t)) st1
                  else st1
      | None => st1
      end
  | Rejected reason =>
      match error_message reason with
      | Some message =>
          emit (route_error (topic t) (pattern_toString (pattern (route t))) message (msg t)) st
      | None => st
      end
  end.

(** What the event loop can run next. *)
Inductive Step : Type :=
| add (topic : string) (config : RouteConfig)   (* addRoute is called *)
| deliver (now : Z) (data : Msg)        (* a route:message event *)
| settle (now : Z) (w i : nat)          (* the handler of task i of waiting call w settles *)
| resume (now : Z) (w : nat).           (* Promise.allSettled of waiting call w resolved *)

Definition step (s : Step) (st : Router) : Router :=
  match s with
  | add topic config => addRoute topic config st
  | deliver now data => on_route_message now data st
  | settle now w i =>
      match waiting st !! w with
      | Some tasks =>
          match tasks !! i with
          | Some t =>
              handleRoute_settled now t
                (with_waiting (<[w := base.delete i tasks]> (waiting st)) st)
          | None => st
          end
      | None => st
      end
  | resume now w =>
      match waiting st !! w with
      | Some [] => loop now (with_waiting (base.delete w (waiting st)) st)
      | _ => st
      end
  end.

Definition run (steps : list Step) (st : Router) : Router := foldl (fun s x => step x s) st steps.

Definition delivered (steps : list Step) : list Msg :=
  omap (fun s => match s with deliver _ data => Some data | _ => None end) steps.

(** Every handler of the call that waits settles, then the call goes on:
    one round of a schedule under which every handler settles. *)
Definition settle_all (now : Z) (st : Router) : Router :=
  match waiting st with
  | tasks :: _ => foldl (fun s _ => step (settle now 0 0) s) st tasks
  | [] => st
  end.

Fixpoint drain (rounds : nat) (now : Z) (st : Router) : Router :=
  match rounds with
  | O => st
  | S n => drain n now (step (resume now 0) (settle_all now st))
  end.

End Router.

(** ** [AsyncRouter]: [request] and [onRequest] (lines 148-194) *)

Module RequestReply.
Import JS.

(** The data of the events that [request] and [onRequest] exchange. *)
Inductive Data : Type :=
| envelope (topic : string) (payload : JsVal) (requestId from replyTo : string)
| reply_result (result : JsVal) (requestId : string)   (* { result, requestId, success: true } *)
| reply_error (error : JsVal) (requestId : string).    (* { error, requestId, success: false } *)

Definition data_topic (d : Data) : option string :=
  match d with envelope t _ _ _ _ => Some t | _ => None end.

Definition data_result (d : Data) : JsVal :=
  match d with reply_result r _ => r | _ => None end.

(** The two closures the code puts on the node: the listener [onRequest]
    registers (with its topic and handler), and the [handler] of [request]
    (it resolves the promise of that request), registered with [once]. *)
Inductive Listener : Type :=
| responder (topic : string) (handler : JsVal -> Router.Settled)
| waiter (requestId : string).

(** Modelled from the spec: the event bus of the node ([@happen/core], not
    part of the repository), as the capability the spec names: [on], [once],
    [off] and [emit], where [emit] calls the listeners of the topic in
    the order they were registered and a [once] listener is taken off before
    it runs. *)
Record Node : Type := {
  nodeId : string;
  listeners : list (string * Listener);
  (* timers set by request and not cleared: the request and its delay *)
  timers : list (string * Z);
  (* onRequest handlers that were called and have not settled: the envelope's
     replyTo and requestId, and how the handler's promise will settle *)
  calls : list (string * string * Router.Settled);
  (* every call of resolve or reject, by request, in order *)
  settlements : list (string * Router.Settled)
}.

Definition new (nodeId : string) : Node :=
  {| nodeId := "router:" +:+ nodeId; listeners := []; timers := []; calls := [];
     settlements := [] |}.

Definition with_listeners (l : list (string * Listener)) (st : Node) : Node :=
  {| nodeId := nodeId st; listeners := l; timers := timers st; calls := calls st;
     settlements := settlements st |}.

Definition with_timers (t : list (string * Z)) (st : Node) : Node :=
  {| nodeId := nodeId st; listeners := listeners st; timers := t; calls := calls st;
     settlements := settlements st |}.

Definition with_calls (c : list (string * string * Router.Settled)) (st : Node) : Node :=
  {| nodeId := nodeId st; listeners := listeners st; timers := timers st; calls := c;
     settlements := settlements st |}.

Definition settle (requestId : string) (s : Router.Settled) (st : Node) : Node :=
  {| nodeId := nodeId st; listeners := listeners st; timers := timers st; calls := calls st;
     settlements := settlements st ++ [(requestId, s)] |}.

Definition is_waiter (l : Listener) : bool :=
  match l with waiter _ => true | responder _ _ => false end.

Definition same_listener (a b : Listener) : bool :=
  match a, b with
  | waiter x, waiter y => String.eqb x y
  | _, _ => false
  end.

(** [node.off(topic, l)] for a [waiter] closure [l] *)
Definition off (topic : string) (l : Listener) (st : Node) : Node :=
  with_listeners
    (filter (fun tl => negb (String.eqb tl.1 topic && same_listener tl.2 l)) (listeners st)) st.

Definition clearTimeout (requestId : string) (st : Node) : Node :=
  with_timers (JsMap.delete requestId (timers st)) st.

(** The body of a listener, run on the event's data. *)
Definition call (l : Listener) (d : Data) (st : Node) : Node :=
  match l with
  | responder topic handler =>
      match d with
      | envelope t payload requestId _ replyTo =>
          if String.eqb t topic
          then with_calls (calls st ++ [(replyTo, requestId, handler payload)]) st
          else st
      | _ => st
      end
  | waiter requestId =>
      settle requestId (Router.Fulfilled (data_result d)) (clearTimeout requestId st)
  end.

Definition node_emit (topic : string) (d : Data) (st : Node) : Node :=
  let called := filter (fun tl => String.eqb tl.1 topic) (listeners st) in
  let st1 := with_listeners
               (filter (fun tl => negb (String.eqb tl.1 topic && is_waiter tl.2)) (listeners st))
               st in
  foldl (fun s tl => call tl.2 d s) st1 called.

Definition reply_topic (requestId : string) : string := "route:response:" +:+ requestId.

(** [request(topic, payload, timeout)], [requestId] being the UUID drawn. *)
Definition request (topic : string) (payload : JsVal) (timeout : Z) (requestId : string)
    (st : Node) : Node :=
  let st1 := with_timers (timers st ++ [(requestId, timeout)]) st in
  let st2 := with_listeners (listeners st1 ++ [(reply_topic requestId, waiter requestId)]) st1 in
  node_emit "route:request"
    (envelope topic payload requestId (nodeId st2) (reply_topic requestId)) st2.

Definition onRequest (topic : string) (handler : JsVal -> Router.Settled) (st : Node) : Node :=
  with_listeners (listeners st ++ [("route:request", responder topic handler)]) st.

(** The timer of [requestId] fires (lines 152-155). *)
Definition timer_fires (requestId : string) (st : Node) : Node :=
  if JsMap.has requestId (timers st) then
    let st1 := clearTimeout requestId st in
    let st2 := off (reply_topic requestId) (waiter requestId) st1 in
    settle requestId (Router.Rejected (Some (error_of "Request timeout"))) st2
  else st.

(** The handler of call [i] settles and its answer is emitted (lines
    179-190).  When the [catch] block cannot read the message of the reason
    it throws, and no reply is emitted. *)
Definition handler_settles (i : nat) (st : Node) : Node :=
  match calls st !! i with
  | Some (replyTo, requestId, outcome) =>
      let st1 := with_calls (base.delete i (calls st)) st in
      match outcome with
      | Router.Fulfilled result => node_emit replyTo (reply_result result requestId) st1
      | Router.Rejected reason =>
          match Router.error_message reason with
          | Some message => node_emit replyTo (reply_error message requestId) st1
          | None => st1
          end
      end
  | None => st
  end.

Inductive Step : Type :=
| do_onRequest (topic : string) (handler : JsVal -> Router.Settled)
| do_request (topic : string) (payload : JsVal) (timeout : Z) (requestId : string)
| do_handler_settles (i : nat)
| do_timer_fires (requestId : string).

Definition step (s : Step) (st : Node) : Node :=
  match s with
  | do_onRequest topic handler => onRequest topic handler st
  | do_request topic payload timeout requestId => request topic payload timeout requestId st
  | do_handler_settles i => handler_settles i st
  | do_timer_fires requestId => timer_fires requestId st
  end.

Definition run (steps : list Step) (st : Node) : Node := foldl (fun s x => step x s) st steps.

(** The UUIDs the requests of a run drew. *)
Definition requested (steps : list Step) : list string :=
  omap (fun s => match s with do_request _ _ _ r => Some r | _ => None end) steps.

(** What was done to the promise of [requestId]. *)
Definition settled (requestId : string) (st : Node) : list Router.Settled :=
  omap (fun rs : string * Router.Settled => if String.eqb rs.1 requestId then Some rs.2 else None)
    (settlements st).

End RequestReply.

(** ** [HumanInTheLoopCoordinator] (src/human-loop/coordinator.ts)

    Others listen to [human:request] and [agent:autonomous]; a listener of
    theirs may throw, and does not call the coordinator.  On the
    [response:<id>] events the coordinator's own listeners are the only
    ones. *)

Module Coordinator.
Import JS.

Inductive RequestType : Type := approval | decision | input | review.
Inductive Priority : Type := high | medium | low.
Inductive AutonomyLevel : Type := full | supervised | manual.

(** The message of a decision, with the properties [handleDecision] reads;
    [confidence] is a number, or missing ([None]). *)
Record Decision : Type := {
  d_agentId : string;
  decisionType : string;
  d_decision : Json;
  confidence : option Q;
  urgent : bool
}.

Record HumanRequest : Type := {
  id : string;
  type : RequestType;
  priority : Priority;
  from : string;
  context : Decision;
  timestamp : Z;
  timeout : option Z
}.

Record AgentPolicy : Type := {
  agentId : string;
  autonomyLevel : AutonomyLevel;
  requiresApprovalFor : list string;
  notifyHumanFor : list string
}.

Inductive Event : Type :=
| human_request (r : HumanRequest)
| agent_autonomous (agentId : string) (d : Json) (c : option Q)
| response_event (name : string) (response : Json).

(** The listeners the coordinator registers on itself with [once], by the
    request whose promise they resolve: the one of [requestHumanApproval]
    (lines 125-129) and the one of [requestHumanAttention] (lines 169-172). *)
Inductive Waiter : Type :=
| approval_waiter (requestId : string)
| attention_waiter (requestId : string).

(** A listener that others register with [on] on [human:request] or
    [agent:autonomous]: what it throws on an event, if it throws. *)
Definition Observer : Type := Event -> option string.

Record Coordinator : Type := {
  pendingRequests : list (string * HumanRequest);
  policies : gmap string AgentPolicy;
  humanAttentionThreshold : Q;
  (* once-listeners, by event name *)
  listeners : list (string * Waiter);
  (* the listeners of others, in the order they were registered *)
  observers : list Observer;
  (* timers set and neither fired nor cleared: the request and when it is due *)
  timers : list (string * Z);
  (* every call of a promise's resolve, by request, in order *)
  resolved : list (string * Json);
  emitted : list Event
}.

Definition new : Coordinator :=
  {| pendingRequests := []; policies := ∅; humanAttentionThreshold := 8 # 10;
     listeners := []; observers := []; timers := []; resolved := []; emitted := [] |}.

Definition with_pendingRequests (p : list (string * HumanRequest)) (st : Coordinator) : Coordinator :=
  {| pendingRequests := p; policies := policies st;
     humanAttentionThreshold := humanAttentionThreshold st; listeners := listeners st;
     observers := observers st; timers := timers st; resolved := resolved st;
     emitted := emitted st |}.

Definition with_policies (p : gmap string AgentPolicy) (st : Coordinator) : Coordinator :=
  {| pendingRequests := pendingRequests st; policies := p;
     humanAttentionThreshold := humanAttentionThreshold st; listeners := listeners st;
     observers := observers st; timers := timers st; resolved := resolved st;
     emitted := emitted st |}.

Definition with_listeners (l : list (string * Waiter)) (st : Coordinator) : Coordinator :=
  {| pendingRequests := pendingRequests st; policies := policies st;
     humanAttentionThreshold := humanAttentionThreshold st; listeners := l;
     observers := observers st; timers := timers st; resolved := resolved st;
     emitted := emitted st |}.

Definition with_timers (t : list (string * Z)) (st : Coordinator) : Coordinator :=
  {| pendingRequests := pendingRequests st; policies := policies st;
     humanAttentionThreshold := humanAttentionThreshold st; listeners := listeners st;
     observers := observers st; timers := t; resolved := resolved st;
     emitted := emitted st |}.

Definition resolve (requestId : string) (v : Json) (st : Coordinator) : Coordinator :=
  {| pendingRequests := pendingRequests st; policies := policies st;
     humanAttentionThreshold := humanAttentionThreshold st; listeners := listeners st;
     observers := observers st; timers := timers st;
     resolved := resolved st ++ [(requestId, v)]; emitted := emitted st |}.

Definition log (ev : Event) (st : Coordinator) : Coordinator :=
  {| pendingRequests := pendingRequests st; policies := policies st;
     humanAttentionThreshold := humanAttentionThreshold st; listeners := listeners st;
     observers := observers st; timers := timers st; resolved := resolved st;
     emitted := emitted st ++ [ev] |}.

(** [this.on(name, l)] *)
Definition on (l : Observer) (st : Coordinator) : Coordinator :=
  {| pendingRequests := pendingRequests st; policies := policies st;
     humanAttentionThreshold := humanAttentionThreshold st; listeners := listeners st;
     observers := observers st ++ [l]; timers := timers st; resolved := resolved st;
     emitted := emitted st |}.

(** [this.emit(ev)] for [human:request] and [agent:autonomous]: the
    listeners are called in the order they were registered, up to the
    first that throws; what it threw, if one did. *)
Definition emit (ev : Event) (st : Coordinator) : Coordinator * option string :=
  (log ev st, head (omap (fun l : Observer => l ev) (observers st))).

Definition response_name (requestId : string) : string := "response:" +:+ requestId.

(** A [Partial<AgentPolicy>]: the properties the caller gave. *)
Record PartialPolicy : Type := {
  p_agentId : option string;
  p_autonomyLevel : option AutonomyLevel;
  p_requiresApprovalFor : option (list string);
  p_notifyHumanFor : option (list string)
}.

(** [{ ...existing, ...policy }] *)
Definition setAgentPolicy (a : string) (policy : PartialPolicy) (st : Coordinator) : Coordinator :=
  let existing := default {| agentId := a; autonomyLevel := supervised;
                             requiresApprovalFor := []; notifyHumanFor := [] |}
                    (policies st !! a) in
  with_policies
    (<[a := {| agentId := default (agentId existing) (p_agentId policy);
               autonomyLevel := default (autonomyLevel existing) (p_autonomyLevel policy);
               requiresApprovalFor :=
                 default (requiresApprovalFor existing) (p_requiresApprovalFor policy);
               notifyHumanFor := default (notifyHumanFor existing) (p_notifyHumanFor policy) |}]>
       (policies st)) st.

(** What a handler of the coordinator returns: a value, a promise that
    the listeners of the request resolve later, or a promise rejected with
    what a listener threw. *)
Inductive Answer : Type :=
| now_value (v : Json)
| promise_of (requestId : string)
| failed (thrown : string).

Definition timeout_answer : Json :=
  JObj [("approved", JBool false); ("reason", JStr "timeout")].

Definition requestHumanApproval (uuid : string) (now : Z) (msg : Decision)
    (st : Coordinator) : Coordinator * Answer :=
  let request := {| id := uuid; type := approval; priority := high; from := d_agentId msg;
                    context := msg; timestamp := now; timeout := Some 30000%Z |} in
  let st1 := with_pendingRequests (JsMap.set (id request) request (pendingRequests st)) st in
  match emit (human_request request) st1 with
  | (st2, Some thrown) => (st2, failed thrown)
  | (st2, None) =>
      let st3 := with_timers (timers st2 ++ [(id request, (now + 30000)%Z)]) st2 in
      let st4 := with_listeners
                   (listeners st3 ++ [(response_name (id request), approval_waiter (id request))])
                   st3 in
      (st4, promise_of (id request))
  end.

Definition requestHumanReview (uuid : string) (now : Z) (msg : Decision)
    (st : Coordinator) : Coordinator * Answer :=
  let request := {| id := uuid; type := review; priority := medium; from := d_agentId msg;
                    context := msg; timestamp := now; timeout := None |} in
  let st1 := with_pendingRequests (JsMap.set (id request) request (pendingRequests st)) st in
  match emit (human_request request) st1 with
  | (st2, Some thrown) => (st2, failed thrown)
  | (st2, None) =>
      (st2, now_value (JObj [("approved", JBool true); ("flaggedForReview", JBool true);
                             ("requestId", JStr (id request))]))
  end.

Definition requestHumanAttention (uuid : string) (now : Z) (msg : Decision)
    (st : Coordinator) : Coordinator * Answer :=
  let request := {| id := uuid; type := input;
                    priority := if urgent msg then high else medium;
                    from := d_agentId msg; context := msg; timestamp := now;
                    timeout := None |} in
  let st1 := with_pendingRequests (JsMap.set (id request) request (pendingRequests st)) st in
  match emit (human_request request) st1 with
  | (st2, Some thrown) => (st2, failed thrown)
  | (st2, None) =>
      let st3 := with_listeners
                   (listeners st2 ++ [(response_name (id request), attention_waiter (id request))])
                   st2 in
      (st3, promise_of (id request))
  end.

(** [msg.confidence < this.humanAttentionThreshold]; a missing confidence
    compares false. *)
Definition below (c : option Q) (threshold : Q) : bool :=
  match c with
  | Some q => negb (Qle_bool threshold q)
  | None => false
  end.

Definition handleDecision (uuid : string) (now : Z) (msg : Decision)
    (st : Coordinator) : Coordinator * Answer :=
  let policy := policies st !! d_agentId msg in
  if match policy with
     | Some p => bool_decide (decisionType msg ∈ requiresApprovalFor p)
     | None => false
     end
  then requestHumanApproval uuid now msg st
  else if below (confidence msg) (humanAttentionThreshold st)
  then requestHumanReview uuid now msg st
  else
    match emit (agent_autonomous (d_agentId msg) (d_decision msg) (confidence msg)) st with
    | (st1, Some thrown) => (st1, failed thrown)
    | (st1, None) => (st1, now_value (JObj [("approved", JBool true); ("autonomous", JBool true)]))
    end.

(** The body of a [once] listener, run on the response. *)
Definition call (w : Waiter) (response : Json) (st : Coordinator) : Coordinator :=
  match w with
  | approval_waiter r =>
      let st1 := with_timers (JsMap.delete r (timers st)) st in
      let st2 := with_pendingRequests (JsMap.delete r (pendingRequests st1)) st1 in
      resolve r response st2
  | attention_waiter r =>
      let st1 := with_pendingRequests (JsMap.delete r (pendingRequests st)) st in
      resolve r response st1
  end.

(** [this.emit(name, response)]: the listeners of [name] are taken off and
    run, in the order they were registered. *)
Definition emit_response (name : string) (response : Json) (st : Coordinator) : Coordinator :=
  let called := filter (fun nw => String.eqb nw.1 name) (listeners st) in
  let st1 := with_listeners (filter (fun nw => negb (String.eqb nw.1 name)) (listeners st))
               (log (response_event name response) st) in
  foldl (fun s nw => call nw.2 response s) st1 called.

Definition respondToRequest (requestId : string) (response : Json) (st : Coordinator) : Coordinator :=
  if JsMap.has requestId (pendingRequests st)
  then emit_response (response_name requestId) response st
  else st.

(** The timer of [requestId] fires (lines 120-123). *)
Definition timer_fires (requestId : string) (st : Coordinator) : Coordinator :=
  let st1 := with_timers (JsMap.delete requestId (timers st)) st in
  let st2 := with_pendingRequests (JsMap.delete requestId (pendingRequests st1)) st1 in
  resolve requestId timeout_answer st2.

(** Time passes until [t]: the timers due by then fire, the earliest
    first. *)
Definition advance (t : Z) (st : Coordinator) : Coordinator :=
  foldl (fun s d => timer_fires d.1 s) st
    (js_sort (fun a b => (a.2 - b.2)%Z) (filter (fun d => (d.2 <=? t)%Z) (timers st))).

Definition priorityWeight (p : Priority) : Z :=
  match p with high => 3 | medium => 2 | low => 1 end.

(** The comparator of lines 186-193. *)
Definition compare_requests (a b : HumanRequest) : Z :=
  let aDiff := priorityWeight (priority a) in
  let bDiff := priorityWeight (priority b) in
  if negb (aDiff =? bDiff)%Z then (bDiff - aDiff)%Z
  else (timestamp a - timestamp b)%Z.

Definition getPendingRequests (st : Coordinator) : list HumanRequest :=
  js_sort compare_requests (JsMap.values (pendingRequests st)).

(** What can happen to a coordinator. *)
Inductive Op : Type :=
| do_setAgentPolicy (a : string) (policy : PartialPolicy)
| do_handleDecision (uuid : string) (now : Z) (msg : Decision)
| do_requestHumanAttention (uuid : string) (now : Z) (msg : Decision)
| do_respondToRequest (requestId : string) (response : Json)
| do_advance (t : Z)
| do_on (l : Observer).

Definition step (o : Op) (st : Coordinator) : Coordinator :=
  match o with
  | do_setAgentPolicy a policy => setAgentPolicy a policy st
  | do_handleDecision uuid now msg => fst (handleDecision uuid now msg st)
  | do_requestHumanAttention uuid now msg => fst (requestHumanAttention uuid now msg st)
  | do_respondToRequest r response => respondToRequest r response st
  | do_advance t => advance t st
  | do_on l => on l st
  end.

Definition run (ops : list Op) (st : Coordinator) : Coordinator :=
  foldl (fun s o => step o s) st ops.

(** The UUIDs the calls of a run were given. *)
Definition drawn (ops : list Op) : list string :=
  omap (fun o => match o with
                 | do_handleDecision u _ _ | do_requestHumanAttention u _ _ => Some u
                 | _ => None
                 end) ops.

(** What the promise of [requestId] was resolved with. *)
Definition resolutions (requestId : string) (st : Coordinator) : list Json :=
  omap (fun rv : string * Json => if String.eqb rv.1 requestId then Some rv.2 else None)
    (resolved st).

End Coordinator.

(** ** [StreamSplitter]: [getStream] and [getStats] (lines 111-113, 159-166) *)

Module SplitterQueries.
Import JS Splitter.

(** [getStream(streamId)] for a string. *)
Definition getStream (streamId : string) (st : Splitter) : option PassThrough :=
  JsMap.get (KStr streamId) (streams st).



End SplitterQueries.

(** ** [ClaudeMultiplexer]: what the agents write (lines 50-61, 98-132)

    The part of the multiplexer that [handleAgentOutput] and the stream
    handlers work on: the message buffers, the stream handlers, and the
    listeners of [message:receive], [agent:output] and [agent:error]. *)

Module AgentOutput.
Import JS.

(** The message made of a parsed line; [type] is whatever the line's
    [type] property holds. *)
Record Received : Type := {
  agentId : string;
  type : Json;
  data : Json;
  timestamp : Z
}.

Inductive Event : Type :=
| message_receive (msg : Received)
| agent_output (agentId data : string)
| agent_error (agentId error : string).

(** A listener sees the event and may throw; a stream handler sees the
    parsed line and may throw. *)
Definition Listener : Type := Event -> option string.
Definition StreamHandler : Type := Json -> option string.

Record Output : Type := {
  messageBuffer : gmap string (list Received);
  streamHandlers : gmap string StreamHandler;
  listeners : list Listener;
  emitted : list Event;
  (* the calls of stream handlers: the agent and the parsed line *)
  streamed : list (string * Json)
}.

Definition new : Output :=
  {| messageBuffer := ∅; streamHandlers := ∅; listeners := []; emitted := []; streamed := [] |}.

Definition with_messageBuffer (b : gmap string (list Received)) (st : Output) : Output :=
  {| messageBuffer := b; streamHandlers := streamHandlers st; listeners := listeners st;
     emitted := emitted st; streamed := streamed st |}.

Definition with_streamHandlers (h : gmap string StreamHandler) (st : Output) : Output :=
  {| messageBuffer := messageBuffer st; streamHandlers := h; listeners := listeners st;
     emitted := emitted st; streamed := streamed st |}.

Definition with_listeners (l : list Listener) (st : Output) : Output :=
  {| messageBuffer := messageBuffer st; streamHandlers := streamHandlers st; listeners := l;
     emitted := emitted st; streamed := streamed st |}.

Definition with_streamed (s : list (string * Json)) (st : Output) : Output :=
  {| messageBuffer := messageBuffer st; streamHandlers := streamHandlers st;
     listeners := listeners st; emitted := emitted st; streamed := s |}.

Definition on (l : Listener) (st : Output) : Output := with_listeners (listeners st ++ [l]) st.

(** [this.emit(ev)]: what the first listener that throws threw, if one
    did. *)
Definition emit (ev : Event) (st : Output) : Output * option string :=
  ({| messageBuffer := messageBuffer st; streamHandlers := streamHandlers st;
      listeners := listeners st; emitted := emitted st ++ [ev]; streamed := streamed st |},
   head (omap (fun l : Listener => l ev) (listeners st))).

Definition setStreamHandler (agentId : string) (handler : StreamHandler) (st : Output) : Output :=
  with_streamHandlers (<[agentId := handler]> (streamHandlers st)) st.

Definition removeStreamHandler (agentId : string) (st : Output) : Output :=
  with_streamHandlers (base.delete agentId (streamHandlers st)) st.

(** The buffer a new agent gets (line 48), and its end (lines 66, 150). *)
Definition open_buffer (agentId : string) (st : Output) : Output :=
  with_messageBuffer (<[agentId := []]> (messageBuffer st)) st.

Definition close_buffer (agentId : string) (st : Output) : Output :=
  with_messageBuffer (base.delete agentId (messageBuffer st)) st.

(** [this.messageBuffer.get(agentId)?.push(msg)] *)
Definition push (agentId : string) (msg : Received) (st : Output) : Output :=
  match messageBuffer st !! agentId with
  | Some buffered => with_messageBuffer (<[agentId := buffered ++ [msg]]> (messageBuffer st)) st
  | None => st
  end.

Definition is_stream (ty : JsVal) : bool :=
  match ty with
  | Some (JStr s) => String.eqb s "stream"
  | _ => false
  end.

(** [parsed.type || 'response'] *)
Definition type_or_response (ty : JsVal) : Json :=
  match ty with
  | Some v => if truthy ty then v else JStr "response"
  | None => JStr "response"
  end.

(** The [try] block of lines 102-119 for one line: the state it leaves and
    whether it threw. *)
Definition try_line (agentId : string) (now : Z) (line : string) (st : Output) : Output * bool :=
  match JSON_parse line with
  | None => (st, true)
  | Some parsed =>
      match prop parsed "type" with
      | None => (st, true)
      | Some ty =>
          let msg := {| agentId := agentId; type := type_or_response ty; data := parsed;
                        timestamp := now |} in
          match emit (message_receive msg) (push agentId msg st) with
          | (st1, Some _) => (st1, true)
          | (st1, None) =>
              if is_stream ty then
                match streamHandlers st1 !! agentId with
                | Some handler =>
                    (with_streamed (streamed st1 ++ [(agentId, parsed)]) st1,
                     match handler parsed with Some _ => true | None => false end)
                | None => (st1, false)
                end
              else (st1, false)
          end
      end
  end.

(** One turn of the loop of lines 101-123: the [try] block and, when it
    threw, the [catch] block; what the [catch] block threw leaves the
    call. *)
Definition handleLine (agentId : string) (now : Z) (line : string) (st : Output) :
    Output * option string :=
  match try_line agentId now line st with
  | (st1, true) => emit (agent_output agentId line) st1
  | (st1, false) => (st1, None)
  end.

(** The loop; [clock i] is what [Date.now()] gives in the [i]-th turn. *)
Fixpoint handleLines (agentId : string) (clock : nat -> Z) (lines : list string) (st : Output) :
    Output * option string :=
  match lines with
  | [] => (st, None)
  | line :: rest =>
      match handleLine agentId (clock 0) line st with
      | (st1, Some thrown) => (st1, Some thrown)
      | (st1, None) => handleLines agentId (fun i => clock (S i)) rest st1
      end
  end.

(** [data] is the bytes of the [Buffer]. *)
Definition handleAgentOutput (agentId : string) (clock : nat -> Z) (data : string) (st : Output) :
    Output * option string :=
  let lines := filter (fun line => negb (blank line)) (split_lines (toString data)) in
  handleLines agentId clock lines st.

(** The listener of [stderr] (lines 56-61). *)
Definition on_stderr (agentId : string) (data : string) (st : Output) : Output * option string :=
  emit (agent_error agentId (toString data)) st.

End AgentOutput.

(** ** [AgentRegistry] (the registry of agents and their heartbeats)

    The registry's own events are logged in [emitted], what it passes to its
    node's [emit] in [node_emitted]; a profile is listed as it is at that
    moment.  Listeners of the registry's events are outside the class and
    are taken not to throw; a caller leaves a profile it has passed as it
    is.  A timer fires at the time it is due. *)

Module Registry.
Import JS.

Inductive Status : Type := online | offline | busy | error.

Record Performance : Type := {
  tasksCompleted : Z;
  avgResponseTime : Q;
  successRate : Q;
  lastSeen : Z
}.

Record Metadata : Type := {
  nodeId : string;
  version : string;
  startTime : Z;
  autonomyLevel : string
}.

Record AgentProfile : Type := {
  id : string;
  name : string;
  type : string;
  status : Status;
  capabilities : list string;
  performance : Performance;
  metadata : Metadata
}.

(** A [Partial<AgentProfile>]: the properties the caller gave. *)
Record PartialProfile : Type := {
  u_id : option string;
  u_name : option string;
  u_type : option string;
  u_status : option Status;
  u_capabilities : option (list string);
  u_performance : option Performance;
  u_metadata : option Metadata
}.

Inductive Event : Type :=
| agent_joined (agentId : string) (profile : AgentProfile) (timestamp : Z)
| agent_left (agentId : string) (timestamp : Z)
| agent_updated (agentId : string) (profile : AgentProfile) (timestamp : Z)
| agent_heartbeat (agentId : string) (timestamp : Z).

Inductive NodeEvent : Type :=
| registry_agent_joined (profile : AgentProfile)
| registry_agent_left (agentId : string).

Definition HEARTBEAT_INTERVAL : Z := 10000.
Definition HEARTBEAT_TIMEOUT : Z := 30000.

Record Registry : Type := {
  agents : list (string * AgentProfile);
  (* the handle of the last timer set for an agent *)
  heartbeatIntervals : list (string * nat);
  (* the timers set and neither fired nor cleared, by handle: the agent and
     the time the timer is due *)
  timers : list (nat * (string * Z));
  next_timer : nat;
  emitted : list Event;
  node_emitted : list NodeEvent
}.

Definition new : Registry :=
  {| agents := []; heartbeatIntervals := []; timers := []; next_timer := 0;
     emitted := []; node_emitted := [] |}.

Definition with_agents (a : list (string * AgentProfile)) (st : Registry) : Registry :=
  {| agents := a; heartbeatIntervals := heartbeatIntervals st; timers := timers st;
     next_timer := next_timer st; emitted := emitted st; node_emitted := node_emitted st |}.

Definition with_timers (h : list (string * nat)) (t : list (nat * (string * Z))) (n : nat)
    (st : Registry) : Registry :=
  {| agents := agents st; heartbeatIntervals := h; timers := t; next_timer := n;
     emitted := emitted st; node_emitted := node_emitted st |}.

Definition emit (ev : Event) (st : Registry) : Registry :=
  {| agents := agents st; heartbeatIntervals := heartbeatIntervals st; timers := timers st;
     next_timer := next_timer st; emitted := emitted st ++ [ev];
     node_emitted := node_emitted st |}.

Definition node_emit (ev : NodeEvent) (st : Registry) : Registry :=
  {| agents := agents st; heartbeatIntervals := heartbeatIntervals st; timers := timers st;
     next_timer := next_timer st; emitted := emitted st;
     node_emitted := node_emitted st ++ [ev] |}.

Definition seen (now : Z) (p : Performance) : Performance :=
  {| tasksCompleted := tasksCompleted p; avgResponseTime := avgResponseTime p;
     successRate := successRate p; lastSeen := now |}.

Definition with_status (s : Status) (now : option Z) (a : AgentProfile) : AgentProfile :=
  {| id := id a; name := name a; type := type a; status := s; capabilities := capabilities a;
     performance := match now with Some t => seen t (performance a) | None => performance a end;
     metadata := metadata a |}.

(** [clearTimeout(timer)] *)
Definition clearTimeout (handle : nat) (st : Registry) : Registry :=
  with_timers (heartbeatIntervals st) (JsMap.delete handle (timers st)) (next_timer st) st.

Definition resetHeartbeatTimer (agentId : string) (now : Z) (st : Registry) : Registry :=
  let st1 := match JsMap.get agentId (heartbeatIntervals st) with
             | Some existingTimer => clearTimeout existingTimer st
             | None => st
             end in
  let timer := next_timer st1 in
  with_timers (JsMap.set agentId timer (heartbeatIntervals st1))
    (timers st1 ++ [(timer, (agentId, (now + HEARTBEAT_TIMEOUT)%Z))]) (S timer) st1.

(** [now] is the time put in [lastSeen] and at which the timer is set,
    [stamp] the time put in the event. *)
Definition registerAgent (profile : AgentProfile) (now stamp : Z) (st : Registry) : Registry :=
  let existingAgent := JsMap.get (id profile) (agents st) in
  let profile := with_status online (Some now) profile in
  let st1 := with_agents (JsMap.set (id profile) profile (agents st)) st in
  let st2 := resetHeartbeatTimer (id profile) now st1 in
  match existingAgent with
  | None =>
      node_emit (registry_agent_joined profile)
        (emit (agent_joined (id profile) profile stamp) st2)
  | Some _ => emit (agent_updated (id profile) profile stamp) st2
  end.

Definition unregisterAgent (agentId : string) (stamp : Z) (st : Registry) : Registry :=
  match JsMap.get agentId (agents st) with
  | None => st
  | Some _ =>
      let st1 := match JsMap.get agentId (heartbeatIntervals st) with
                 | Some timer =>
                     let s := clearTimeout timer st in
                     with_timers (JsMap.delete agentId (heartbeatIntervals s)) (timers s)
                       (next_timer s) s
                 | None => st
                 end in
      let st2 := with_agents (JsMap.delete agentId (agents st1)) st1 in
      node_emit (registry_agent_left agentId) (emit (agent_left agentId stamp) st2)
  end.

(** [{ ...agent, ...updates }] *)
Definition updated (agent : AgentProfile) (updates : PartialProfile) : AgentProfile :=
  {| id := default (id agent) (u_id updates);
     name := default (name agent) (u_name updates);
     type := default (type agent) (u_type updates);
     status := default (status agent) (u_status updates);
     capabilities := default (capabilities agent) (u_capabilities updates);
     performance := default (performance agent) (u_performance updates);
     metadata := default (metadata agent) (u_metadata updates) |}.

Definition updateAgent (agentId : string) (updates : PartialProfile) (now stamp : Z)
    (st : Registry) : Registry :=
  match JsMap.get agentId (agents st) with
  | None => st
  | Some agent =>
      let u := updated agent updates in
      let updatedProfile := with_status (status u) (Some now) u in
      emit (agent_updated agentId updatedProfile stamp)
        (with_agents (JsMap.set agentId updatedProfile (agents st)) st)
  end.

Definition updateHeartbeat (agentId : string) (now stamp : Z) (st : Registry) : Registry :=
  match JsMap.get agentId (agents st) with
  | None => st
  | Some agent =>
      let st1 := with_agents
                   (JsMap.set agentId (with_status online (Some now) agent) (agents st)) st in
      emit (agent_heartbeat agentId stamp) (resetHeartbeatTimer agentId now st1)
  end.

Definition markAgentOffline (agentId : string) (stamp : Z) (st : Registry) : Registry :=
  match JsMap.get agentId (agents st) with
  | None => st
  | Some agent =>
      let agent := with_status offline None agent in
      emit (agent_updated agentId agent stamp)
        (with_agents (JsMap.set agentId agent (agents st)) st)
  end.

(** The timer with this handle fires. *)
Definition timer_fires (handle : nat) (st : Registry) : Registry :=
  match JsMap.get handle (timers st) with
  | None => st
  | Some (agentId, due) =>
      markAgentOffline agentId due
        (with_timers (heartbeatIntervals st) (JsMap.delete handle (timers st))
           (next_timer st) st)
  end.

(** Time passes until [t]: the timers due by then fire, the earliest
    first. *)
Definition advance (t : Z) (st : Registry) : Registry :=
  foldl (fun s d => timer_fires d.1 s) st
    (js_sort (fun a b : nat * (string * Z) => (a.2.2 - b.2.2)%Z)
       (filter (fun d : nat * (string * Z) => (d.2.2 <=? t)%Z) (timers st))).

Definition is_offline (s : Status) : bool :=
  match s with offline => true | _ => false end.

Definition stale (now : Z) (agent : AgentProfile) : bool :=
  (lastSeen (performance agent) <? now - HEARTBEAT_TIMEOUT * 2)%Z && is_offline (status agent).

(** The loop of [cleanupStaleAgents] over the entries of the map. *)
Definition cleanupStaleAgents (now stamp : Z) (st : Registry) : Registry :=
  foldl (fun s entry =>
           match JsMap.get entry.1 (agents s) with
           | Some agent => if stale now agent then unregisterAgent entry.1 stamp s else s
           | None => s
           end) st (agents st).

Definition getAgent (agentId : string) (st : Registry) : option AgentProfile :=
  JsMap.get agentId (agents st).

Definition getAllAgents (st : Registry) : list AgentProfile := JsMap.values (agents st).

Definition is_online (s : Status) : bool :=
  match s with online => true | _ => false end.

Definition getOnlineAgents (st : Registry) : list AgentProfile :=
  filter (fun a => is_online (status a)) (getAllAgents st).

Definition getAgentsByType (ty : string) (st : Registry) : list AgentProfile :=
  filter (fun a => String.eqb (type a) ty) (getAllAgents st).

Definition getAgentsByCapability (capability : string) (st : Registry) : list AgentProfile :=
  filter (fun a => bool_decide (capability ∈ capabilities a)) (getAllAgents st).

(** What can happen to a registry. *)
Inductive Op : Type :=
| do_register (profile : AgentProfile) (now stamp : Z)
| do_unregister (agentId : string) (stamp : Z)
| do_update (agentId : string) (updates : PartialProfile) (now stamp : Z)
| do_heartbeat (agentId : string) (now stamp : Z)
| do_advance (t : Z)
| do_cleanup (now stamp : Z).

Definition step (o : Op) (st : Registry) : Registry :=
  match o with
  | do_register profile now stamp => registerAgent profile now stamp st
  | do_unregister agentId stamp => unregisterAgent agentId stamp st
  | do_update agentId updates now stamp => updateAgent agentId updates now stamp st
  | do_heartbeat agentId now stamp => updateHeartbeat agentId now stamp st
  | do_advance t => advance t st
  | do_cleanup now stamp => cleanupStaleAgents now stamp st
  end.

Definition run (ops : list Op) (st : Registry) : Registry := foldl (fun s o => step o s) st ops.

End Registry.

(** ** [StreamSplitter]: responses by correlation id (lines 129-148)

    [demuxResponse] and [handleResponse] use the listeners of the splitter's
    [response:<id>] events and the timeouts; they touch neither the streams
    nor the buffers.  The state has the listeners that [demuxResponse]
    registered, the timeouts that are set, and the calls of [resolve] and
    [reject] of the promises it returned.  A promise is known by the number
    of the call that made it.  A correlation id is a string, or missing in a
    message; only [demuxResponse] listens to the [response:] events; a
    timeout fires at the time it is due. *)

Module Demux.
Import JS.

Inductive Outcome : Type :=
| fulfilled (data : JsVal)
| rejected (message : string).

(** What [handleResponse] reads of a message. *)
Record Message : Type := {
  correlationId : option string;
  data : JsVal
}.

Record Demux : Type := {
  (* once-listeners, by event name: the promise they resolve *)
  listeners : list (string * nat);
  (* timeouts set and neither fired nor cleared, by promise: the
     correlation id and when it is due *)
  timers : list (nat * (string * Z));
  (* every call of a promise's resolve or reject, in order *)
  settled : list (nat * Outcome);
  next_waiter : nat
}.

Definition new : Demux :=
  {| listeners := []; timers := []; settled := []; next_waiter := 0 |}.

Definition response_event (correlationId : string) : string := "response:" +:+ correlationId.

Definition demuxResponse (correlationId : string) (now : Z) (st : Demux) : nat * Demux :=
  let w := next_waiter st in
  (w, {| listeners := listeners st ++ [(response_event correlationId, w)];
         timers := timers st ++ [(w, (correlationId, (now + 30000)%Z))];
         settled := settled st;
         next_waiter := S w |}).

(** The listener of promise [w] is called: [once] has taken it off, it
    clears the timeout and resolves. *)
Definition heard (d : JsVal) (st : Demux) (w : nat) : Demux :=
  {| listeners := filter (fun l : string * nat => negb (l.2 =? w)) (listeners st);
     timers := JsMap.delete w (timers st);
     settled := settled st ++ [(w, fulfilled d)];
     next_waiter := next_waiter st |}.

(** [emit(name, d)]: the listeners of the event at the time of the call,
    in the order they were added. *)
Definition emit (name : string) (d : JsVal) (st : Demux) : Demux :=
  foldl (heard d) st
    (filter (fun l : string * nat => String.eqb l.1 name) (listeners st)).*2.

Definition handleResponse (msg : Message) (st : Demux) : Demux :=
  match correlationId msg with
  | Some c => if String.eqb c "" then st else emit (response_event c) (data msg) st
  | None => st
  end.

(** The timeout of promise [w] fires. *)
Definition timer_fires (w : nat) (st : Demux) : Demux :=
  match JsMap.get w (timers st) with
  | None => st
  | Some (c, _) =>
      {| listeners := filter (fun l : string * nat => negb (String.eqb l.1 (response_event c)))
                        (listeners st);
         timers := JsMap.delete w (timers st);
         settled := settled st ++ [(w, rejected "Response timeout")];
         next_waiter := next_waiter st |}
  end.

(** Time passes until [t]: the timeouts due by then fire, the earliest
    first. *)
Definition advance (t : Z) (st : Demux) : Demux :=
  foldl (fun s d => timer_fires d.1 s) st
    (js_sort (fun a b : nat * (string * Z) => (a.2.2 - b.2.2)%Z)
       (filter (fun d : nat * (string * Z) => (d.2.2 <=? t)%Z) (timers st))).

(** The state of promise [w]: pending ([None]), or as it was settled; the
    first call of [resolve] or [reject] counts. *)
Definition outcome (w : nat) (st : Demux) : option Outcome := JsMap.get w (settled st).

Inductive Op : Type :=
| do_demux (correlationId : string) (now : Z)
| do_response (msg : Message)
| do_advance (t : Z).

Definition step (o : Op) (st : Demux) : Demux :=
  match o with
  | do_demux c now => (demuxResponse c now st).2
  | do_response msg => handleResponse msg st
  | do_advance t => advance t st
  end.

Definition run (ops : list Op) (st : Demux) : Demux := foldl (fun s o => step o s) st ops.

End Demux.

(** * Part II: what the properties are stated with *)

(** ** The multiplexer *)

Module MultiplexerSpec.

Import JS Multiplexer.

(** Record updates, unfolded down to the fields. *)
Ltac fields :=
  unfold emit, on, kill, stdin_write, spawn, with_agents, with_messageBuffer,
    with_listeners, with_emitted, with_processes in *; simpl in *.

(** The admission bound: what every operation keeps. *)
Definition within_capacity (N : nat) (st : Mux) : Prop :=
  maxConcurrent st = N ∧ JsMap.size (agents st) <= N.

Definition no_options : AgentOptions := {| opt_id := None; opt_args := []; opt_env := [] |}.

(** The [message:send] events of a broadcast to [ids], the [i]-th send
    being the first. *)
Fixpoint announcements (draw : nat -> Z * string) (i : nat) (ids : list string)
    (message : string) : list Event :=
  match ids with
  | [] => []
  | a :: ids' =>
      message_send {| agentId := a; type := request; data := JStr message;
                      timestamp := (draw i).1; correlationId := Some (draw i).2 |}
      :: announcements draw (S i) ids' message
  end.

(** What the first listener that throws on [ev] throws. *)
Definition thrown_on (ls : list Listener) (ev : Event) : option string :=
  head (omap (fun l : Listener => l ev) ls).

Definition first_failure (ls : list Listener) (evs : list Event) : Result unit :=
  match omap (thrown_on ls) evs with
  | [] => Ok tt
  | message :: _ => Err (Thrown message)
  end.

(** A listener of [message:send] that throws when the message is for agent
    [a]. *)
Definition throws_for (a : string) : Listener :=
  fun ev =>
    match ev with
    | message_send msg => if String.eqb (agentId msg) a then Some "listener failed" else None
    | _ => None
    end.

Definition two_agents : Mux :=
  run [do_on (throws_for "a"); do_spawnAgent no_options "a"; do_spawnAgent no_options "b"]
    (new 5).

End MultiplexerSpec.

(** ** The peer *)

Module PeerSpec.

Import JS Peer.

Definition a_peer : PeerAgent :=
  (initialize "agent-1" (create (Multiplexer.new 5) "node-1")).1.

End PeerSpec.

(** ** The stream splitter *)

Module SplitterSpec.

Import JS Splitter.

Ltac fields :=
  unfold cleanup, write, emit, with_streams, with_metadata, with_buffers, with_refs in *;
  simpl in *.

(** The key under which [routeMessage] files [msg] ([None]: [msg] is
    [null], and the call throws). *)
Definition stream_key (msg : Json) (st : Splitter) : option Key :=
  match prop msg "streamId", prop msg "agentId" with
  | Some m_streamId, Some m_agentId =>
      Some (key_of (or_else (js_or m_streamId m_agentId) (JStr "default")) (refs st))
  | _, _ => None
  end.

Definition chunkCount (k : Key) (st : Splitter) : option nat :=
  chunks <$> JsMap.get k (metadata st).

Definition is_end (msg : Json) : bool :=
  match prop msg "type" with
  | Some ty => is_type ty "stream:end"
  | None => false
  end.

(** What the stream table satisfies at all times: one entry per key in each
    map, the same keys in both, and no reference number yet to be given. *)
Record table_ok (st : Splitter) : Prop := {
  streams_nodup : NoDup (JsMap.keys (streams st));
  metadata_nodup : NoDup (JsMap.keys (metadata st));
  same_keys : forall k, JsMap.get k (streams st) = None <-> JsMap.get k (metadata st) = None;
  refs_fresh : forall r, refs st <= r -> JsMap.get (KRef r) (streams st) = None
}.

Definition chunk_of (s : string) : Json :=
  JObj [("streamId", JStr s); ("type", JStr "stream:chunk"); ("data", JNum 1 0)].

Definition end_of (s : string) : Json :=
  JObj [("streamId", JStr s); ("type", JStr "stream:end")].

(** The bytes of the line [{"streamId":"é"}], cut inside the two bytes of
    the letter. *)
Definition first_half : string := dq "{'streamId':'" +:+ String (chr 195) EmptyString.
Definition second_half : string := String (chr 169) (dq "'}").



End SplitterSpec.

(** ** The router's queue *)

Module RouterSpec.

Import JS Router.

Ltac fields :=
  unfold emit, with_routes, with_messageQueue, with_processing, with_waiting, with_shifted in *;
  simpl in *.

(** The router is idle, or one call of [processQueue] waits for handlers
    of the message it shifted last. *)
Definition one_drain (st : Router) : Prop :=
  (processing st = false ∧ waiting st = [] ∧ messageQueue st = []) ∨
  (processing st = true ∧
   exists tasks, waiting st = [tasks] ∧ Forall (fun t => last (shifted st) = Some (msg t)) tasks).

(** First in, first out: what was shifted, then what is queued, is what was
    delivered. *)
Definition fifo (before : list Msg) (st : Router) : Prop :=
  shifted st ++ (messageQueue st).*1 = before.

(** Two routes for the same messages: the handler of the first fails, the
    handler of the second succeeds. *)
Definition failing : RouteConfig :=
  {| pattern := PString "job"; handler := fun _ => Rejected (Some (error_of "boom"));
     priority := Some 10%Z |}.
(** A route whose handler rejects with no reason, as [Promise.reject()]
    does. *)
Definition failing_without_reason : RouteConfig :=
  {| pattern := PString "job"; handler := fun _ => Rejected None; priority := Some 10%Z |}.
Definition working : RouteConfig :=
  {| pattern := PString "job"; handler := fun _ => Fulfilled (Some (JStr "done"));
     priority := None |}.
Definition job (n : Z) : Msg := [("topic", JStr "job"); ("n", JNum n 0)].

End RouterSpec.

(** ** Request and reply *)

Module RequestReplySpec.

Import JS RequestReply.

Ltac fields :=
  unfold settle, clearTimeout, off, with_listeners, with_timers, with_calls in *; simpl in *.

(** The requests that have a listener for their reply. *)
Definition waiter_of (tl : string * Listener) : option string :=
  match tl.2 with waiter r => Some r | responder _ _ => None end.

Definition waiters (ls : list (string * Listener)) : list string := omap waiter_of ls.

(** Where the code registers its two kinds of listener. *)
Definition placed (tl : string * Listener) : Prop :=
  match tl.2 with
  | responder _ _ => tl.1 = "route:request"
  | waiter r => tl.1 = reply_topic r
  end.

(** The calls an envelope starts: one for each [onRequest] listener of its
    topic. *)
Definition started (d : Data) (ls : list (string * Listener)) :
    list (string * string * Router.Settled) :=
  omap (fun tl : string * Listener =>
          match tl.2, d with
          | responder t h, envelope t' payload requestId _ replyTo =>
              if String.eqb t' t then Some (replyTo, requestId, h payload) else None
          | _, _ => None
          end) ls.

(** The state after the listener of [r]'s reply is gone, the timer of [r]
    is cleared and the promise of [r] is settled with [s]. *)
Definition retired (r : string) (s : Router.Settled) (st st' : Node) : Prop :=
  waiters (listeners st') = filter (fun r' => r' ≠ r) (waiters (listeners st)) ∧
  Forall placed (listeners st') ∧
  timers st' = JsMap.delete r (timers st) ∧
  settlements st' = settlements st ++ [(r, s)] ∧
  calls st' = calls st.

(** What holds of a node whose requests drew the UUIDs [used], each once:
    a request is waited for exactly as long as its timer is set and its
    promise is not settled. *)
Record node_ok (used : list string) (st : Node) : Prop := {
  ok_placed : Forall placed (listeners st);
  ok_waiters : NoDup (waiters (listeners st));
  ok_timers : NoDup (JsMap.keys (timers st));
  ok_same : forall r, r ∈ waiters (listeners st) <-> r ∈ JsMap.keys (timers st);
  ok_pending : forall r, r ∈ waiters (listeners st) -> r ∈ used ∧ settled r st = [];
  ok_live : forall r, r ∈ used -> settled r st = [] -> r ∈ waiters (listeners st);
  ok_once : forall r, length (settled r st) <= 1;
  ok_unused : forall r, r ∉ used -> settled r st = [];
  ok_calls : Forall (fun c : string * string * Router.Settled =>
                       c.1.1 = reply_topic c.1.2 ∧ c.1.2 ∈ used) (calls st)
}.

(** A handler that doubles the number it is given. *)
Definition double : JsVal -> Router.Settled :=
  fun payload =>
    match payload with
    | Some (JNum m e) => Router.Fulfilled (Some (JNum (2 * m) e))
    | _ => Router.Rejected (Some (error_of "not a number"))
    end.

End RequestReplySpec.

(** ** Order *)

Module SortSpec.

(** What a comparator of [Array.prototype.sort] says of two elements it
    leaves in this order. *)
Definition in_order {A} (cmp : A -> A -> Z) (a b : A) : Prop := (cmp a b <= 0)%Z.

End SortSpec.

(** ** The coordinator *)

Module CoordinatorSpec.

Import JS Coordinator SortSpec.

(** [a] may stand before [b] in the list of pending requests: its priority
    is higher, or it is the same and [a] was not created after [b]. *)
Definition comes_before (a b : HumanRequest) : Prop :=
  (priorityWeight (priority b) < priorityWeight (priority a))%Z ∨
  (priority a = priority b ∧ (timestamp a <= timestamp b)%Z).

Ltac fields :=
  unfold resolve, log, on, with_pendingRequests, with_policies, with_listeners, with_timers in *;
  simpl in *.

Definition waiter_id (w : Waiter) : string :=
  match w with approval_waiter r | attention_waiter r => r end.

(** No listener throws on the event [ev]. *)
Definition quiet (ev : Event) (st : Coordinator) : Prop :=
  omap (fun l : Observer => l ev) (observers st) = [].

(** Every listener is registered under the name of its request's response. *)
Definition named (st : Coordinator) : Prop :=
  Forall (fun nw : string * Waiter => nw.1 = response_name (waiter_id nw.2)) (listeners st).

(** No listener waits for the response to [u]. *)
Definition unheard (u : string) (st : Coordinator) : Prop :=
  Forall (fun nw : string * Waiter => waiter_id nw.2 ≠ u) (listeners st).

(** The timers of request [u]. *)
Definition timers_of (u : string) (l : list (string * Z)) : list (string * Z) :=
  filter (fun d : string * Z => d.1 = u) l.

(** What the state holds about request [u]. *)
Definition about (u : string) (st : Coordinator) :
    option HumanRequest * list (string * Z) * list Json :=
  (JsMap.get u (pendingRequests st), timers_of u (timers st), resolutions u st).

(** The timers that are due at [t], as [advance] fires them. *)
Definition due (t : Z) (l : list (string * Z)) : list (string * Z) :=
  js_sort (fun a b : string * Z => (a.2 - b.2)%Z) (filter (fun d : string * Z => (d.2 <=? t)%Z) l).

Definition review_of (uuid : string) (now : Z) (msg : Decision) : HumanRequest :=
  {| id := uuid; type := review; priority := medium; from := d_agentId msg;
     context := msg; timestamp := now; timeout := None |}.

Definition unsure : Decision :=
  {| d_agentId := "agent-1"; decisionType := "refactor"; d_decision := JStr "rename";
     confidence := Some (6 # 10); urgent := false |}.

Definition approval_of (uuid : string) (now : Z) (msg : Decision) : HumanRequest :=
  {| id := uuid; type := approval; priority := high; from := d_agentId msg;
     context := msg; timestamp := now; timeout := Some 30000%Z |}.

(** The request [q] is put in the table and announced. *)
Definition announced (q : HumanRequest) (st : Coordinator) : Coordinator :=
  log (human_request q) (with_pendingRequests (JsMap.set (id q) q (pendingRequests st)) st).

Definition input_of (uuid : string) (now : Z) (msg : Decision) : HumanRequest :=
  {| id := uuid; type := input; priority := if urgent msg then high else medium;
     from := d_agentId msg; context := msg; timestamp := now; timeout := None |}.

(** What the first listener that throws on [ev] throws. *)
Definition thrown_on (ev : Event) (st : Coordinator) : option string :=
  head (omap (fun l : Observer => l ev) (observers st)).


Definition deploy : Decision :=
  {| d_agentId := "agent-1"; decisionType := "deploy"; d_decision := JStr "ship it";
     confidence := Some (95 # 100); urgent := false |}.

(** A listener of [human:request] that throws. *)
Definition nervous : Observer :=
  fun ev => match ev with human_request _ => Some "no display" | _ => None end.

Definition careful : PartialPolicy :=
  {| p_agentId := None; p_autonomyLevel := None;
     p_requiresApprovalFor := Some ["deploy"; "delete"]; p_notifyHumanFor := None |}.

End CoordinatorSpec.

(** ** The multiplexer: the processes behind the table *)

Module ProcessSpec.

Import JS Multiplexer.

(** What holds of the agent table and the processes at all times: an id is
    listed once; the handle under an id is of a process that was spawned for
    that id and has not exited (its exit listener is still to run); and the
    id has a message buffer. *)
Record table_live (st : Mux) : Prop := {
  ids_nodup : NoDup (JsMap.keys (agents st));
  running_nodup : NoDup (JsMap.keys (running st));
  running_spawned : forall p, p ∈ JsMap.keys (running st) -> p < spawned st;
  handle_runs : forall a h, JsMap.get a (agents st) = Some h ->
                            JsMap.get (pid h) (running st) = Some a;
  handle_buffer : forall a, a ∈ JsMap.keys (agents st) -> is_Some (messageBuffer st !! a)
}.

(** No listener throws on [ev]. *)
Definition quiet (ev : Event) (st : Mux) : Prop :=
  omap (fun l : Listener => l ev) (listeners st) = [].

Definition options_with (a : string) : AgentOptions :=
  {| opt_id := Some a; opt_args := []; opt_env := [] |}.

End ProcessSpec.

(** ** The stream splitter: one stream among the others *)

Module StreamSpec.
Import JS Splitter SplitterSpec.

(** The stream and the metadata the table holds under [k]. *)
Definition entry (k : Key) (st : Splitter) : option PassThrough * option StreamMetadata :=
  (JsMap.get k (streams st), JsMap.get k (metadata st)).

(** [msg] is filed under the string [s]: [s] is what
    [msg.streamId || msg.agentId || 'default'] gives. *)
Definition about (s : string) (msg : Json) : bool :=
  match prop msg "streamId", prop msg "agentId" with
  | Some m_streamId, Some m_agentId =>
      match or_else (js_or m_streamId m_agentId) (JStr "default") with
      | JStr s' => String.eqb s' s
      | _ => false
      end
  | _, _ => false
  end.

(** The lines a message that is no [stream:end] puts on its stream. *)
Definition lines (msg : Json) : list JsVal :=
  match prop msg "type", prop msg "data" with
  | Some m_type, Some m_data =>
      if is_type m_type "stream:start" then []
      else if is_type m_type "stream:chunk" then [m_data]
      else [Some msg]
  | _, _ => []
  end.


(** What a message filed under the string [s] makes of the entry of [s]. *)
Definition handled (now : Z) (s : string) (msg : Json)
    (e : option PassThrough * option StreamMetadata) :
    option PassThrough * option StreamMetadata :=
  match prop msg "agentId", prop msg "type", prop msg "data" with
  | Some m_agentId, Some m_type, Some m_data =>
      let stream := default {| written := []; ended := false |} e.1 in
      let meta0 := default {| agentId := or_else m_agentId (JStr s); streamId := JStr s;
                              type := or_else m_type (JStr "response"); started := now;
                              chunks := 0 |} e.2 in
      let meta := {| agentId := agentId meta0; streamId := streamId meta0; type := type meta0;
                     started := started meta0; chunks := S (chunks meta0) |} in
      if is_type m_type "stream:start" then (Some stream, Some meta)
      else if is_type m_type "stream:chunk" then
        (Some {| written := written stream ++ [m_data]; ended := ended stream |}, Some meta)
      else if is_type m_type "stream:end" then (None, None)
      else (Some {| written := written stream ++ [Some msg]; ended := ended stream |}, Some meta)
  | _, _, _ => e
  end.


Definition message (s ty : string) (d : Json) : Json :=
  JObj [("streamId", JStr s); ("type", JStr ty); ("data", d)].

End StreamSpec.

(** ** The stream splitter: chunks cut at line breaks *)

Module LinesSpec.
Import JS.

Definition newline : string := String (chr 10) EmptyString.

End LinesSpec.

(** ** The coordinator: the life of a request *)

Module RequestLifeSpec.
Import JS Coordinator CoordinatorSpec.

(** The listeners registered for the response to [u]. *)
Definition ears (u : string) (st : Coordinator) : list (string * Waiter) :=
  filter (fun nw : string * Waiter => String.eqb nw.1 (response_name u)) (listeners st).

(** The responses the human gave to [u] in a run. *)
Definition responses (u : string) (ops : list Op) : list Json :=
  omap (fun o => match o with
                 | do_respondToRequest r response =>
                     if String.eqb r u then Some response else None
                 | _ => None
                 end) ops.

(** Where the request [u] stands, [given] being the responses the human
    gave to it: unknown or flagged for review (nothing waits for it),
    waiting for approval with its timer set, waiting for the human's input,
    or resolved and gone from the table. *)
Definition life (u : string) (given : list Json) (st : Coordinator) : Prop :=
  (about u st = ((about u st).1.1, [], []) ∧ unheard u st) ∨
  (exists q d, about u st = (Some q, [(u, d)], []) ∧
               ears u st = [(response_name u, approval_waiter u)]) ∨
  (exists q, about u st = (Some q, [], []) ∧
             ears u st = [(response_name u, attention_waiter u)]) ∨
  (exists v, about u st = (None, [], [v]) ∧ (v = timeout_answer ∨ v ∈ given)).


Definition stuck : Decision :=
  {| d_agentId := "agent-2"; decisionType := "help"; d_decision := JStr "which one";
     confidence := None; urgent := true |}.

End RequestLifeSpec.

(** ** The router: the routes of a topic *)

Module RoutesSpec.
Import JS Router.

(** The configurations [addRoute] was given for [topic], in the order of the
    calls. *)
Definition added (topic : string) (steps : list Step) : list RouteConfig :=
  omap (fun s => match s with
                 | add t config => if String.eqb t topic then Some config else None
                 | _ => None
                 end) steps.

(** [a] may stand before [b] in the list of a topic: its priority is not
    the lower one. *)
Definition by_priority (a b : RouteConfig) : Prop := (priority_or_0 b <= priority_or_0 a)%Z.

Definition routes_of (topic : string) (st : Router) : list RouteConfig :=
  default [] (JsMap.get topic (routes st)).

Definition prio (n : Z) : RouteConfig :=
  {| pattern := PString "job"; handler := fun _ => Fulfilled None; priority := Some n |}.

(** A handler that always fails. *)
Definition refuse : JsVal -> Settled := fun _ => Rejected (Some (error_of "no")).

(** A handler that always fails, with no reason. *)
Definition refuse_without_reason : JsVal -> Settled := fun _ => Rejected None.

End RoutesSpec.

(** ** The multiplexer: what the agents write *)

Module AgentOutputSpec.
Import JS AgentOutput.

(** The lines of a chunk that the loop looks at. *)
Definition lines_of (data : string) : list string :=
  filter (fun line => negb (blank line)) (split_lines (toString data)).

(** The message a line is, when it is the JSON text of a value that has a
    [type] property to read (any value but [null]). *)
Definition received (agentId : string) (now : Z) (line : string) : option Received :=
  match JSON_parse line with
  | Some parsed =>
      match prop parsed "type" with
      | Some ty => Some {| agentId := agentId; type := type_or_response ty; data := parsed;
                           timestamp := now |}
      | None => None
      end
  | None => None
  end.

(** What is emitted for a line when nothing throws. *)
Definition event_of (agentId : string) (now : Z) (line : string) : Event :=
  match received agentId now line with
  | Some msg => message_receive msg
  | None => agent_output agentId line
  end.

(** The parsed lines that go to a stream handler. *)
Definition stream_chunk_of (line : string) : option Json :=
  match JSON_parse line with
  | Some parsed =>
      match prop parsed "type" with
      | Some ty => if is_stream ty then Some parsed else None
      | None => None
      end
  | None => None
  end.

(** No listener throws, whatever the event, and no stream handler does. *)
Definition quiet (st : Output) : Prop :=
  Forall (fun l : Listener => forall ev, l ev = None) (listeners st) ∧
  forall a (h : StreamHandler), streamHandlers st !! a = Some h -> forall chunk, h chunk = None.

(** The messages of the lines, the [i]-th at the time [clock i]. *)
Fixpoint messages (agentId : string) (clock : nat -> Z) (lines : list string) : list Received :=
  match lines with
  | [] => []
  | line :: rest =>
      match received agentId (clock 0) line with
      | Some msg => msg :: messages agentId (fun i => clock (S i)) rest
      | None => messages agentId (fun i => clock (S i)) rest
      end
  end.

(** The state the loop leaves when nothing throws. *)
Definition after_lines (agentId : string) (clock : nat -> Z) (lines : list string)
    (st : Output) : Output :=
  {| messageBuffer :=
       match messageBuffer st !! agentId with
       | Some buffered =>
           <[agentId := buffered ++ messages agentId clock lines]> (messageBuffer st)
       | None => messageBuffer st
       end;
     streamHandlers := streamHandlers st;
     listeners := listeners st;
     emitted := emitted st ++ imap (fun i line => event_of agentId (clock i) line) lines;
     streamed :=
       streamed st ++
       match streamHandlers st !! agentId with
       | Some _ => (fun chunk => (agentId, chunk)) <$> omap stream_chunk_of lines
       | None => []
       end |}.

Definition sees_nothing : StreamHandler := fun _ => None.
Definition fails : Listener :=
  fun ev => match ev with message_receive _ => Some "listener failed" | _ => None end.

End AgentOutputSpec.

(** ** The registry *)

Module RegistrySpec.
Import JS Registry.

(** What the registry keeps at all times: an agent is listed once; an agent
    has a timer handle exactly when it is registered; a timer that is set is
    the one its agent's handle names; and a handle is given once, to one
    agent. *)
Record registry_ok (st : Registry) : Prop := {
  agents_nodup : NoDup (JsMap.keys (agents st));
  handles_nodup : NoDup (JsMap.keys (heartbeatIntervals st));
  timers_nodup : NoDup (JsMap.keys (timers st));
  same_agents : forall a, JsMap.get a (agents st) = None
                          <-> JsMap.get a (heartbeatIntervals st) = None;
  timer_current : forall h a due, JsMap.get h (timers st) = Some (a, due) ->
                                  JsMap.get a (heartbeatIntervals st) = Some h;
  timers_known : forall h, h ∈ JsMap.keys (timers st) -> h < next_timer st;
  handles_known : forall a h, JsMap.get a (heartbeatIntervals st) = Some h -> h < next_timer st;
  handles_apart : forall a a' h, JsMap.get a (heartbeatIntervals st) = Some h ->
                                 JsMap.get a' (heartbeatIntervals st) = Some h -> a = a'
}.

(** The arrivals ([true]) and departures ([false]) of [a] in the events. *)
Definition trace (a : string) (log : list Event) : list bool :=
  omap (fun ev => match ev with
                  | agent_joined a' _ _ => if String.eqb a' a then Some true else None
                  | agent_left a' _ => if String.eqb a' a then Some false else None
                  | _ => None
                  end) log.

(** Arrivals and departures taken in order, from [cur]: an arrival of an
    agent that is there, or a departure of one that is not, is out of order
    ([None]). *)
Definition follows (cur : option bool) (b : bool) : option bool :=
  match cur with
  | Some c => if Bool.eqb c b then None else Some b
  | None => None
  end.

Definition replay (l : list bool) : option bool := foldl follows (Some false) l.

(** The events tell who is registered. *)
Definition told (a : string) (st : Registry) : Prop :=
  replay (trace a (emitted st)) = Some (JsMap.has a (agents st)).

(** The timers that are set for [a], and what the registry holds about
    [a]: its profile and its timers. *)
Definition own (a : string) (st : Registry) : list (nat * (string * Z)) :=
  filter (fun d : nat * (string * Z) => String.eqb d.2.1 a) (timers st).

Definition view (a : string) (st : Registry) :
    option AgentProfile * list (nat * (string * Z)) :=
  (JsMap.get a (agents st), own a st).

(** A step that leaves [a] alone, [v] being what the registry holds about
    [a]: a call for another agent, time passing to before the timer of [a]
    is due, or a cleanup at a time when [a] is not stale. *)
Definition leaves (a : string) (v : option AgentProfile * list (nat * (string * Z)))
    (o : Op) : Prop :=
  match o with
  | do_register p _ _ => id p ≠ a
  | do_unregister a' _ | do_update a' _ _ _ | do_heartbeat a' _ _ => a' ≠ a
  | do_advance t => Forall (fun d : nat * (string * Z) => (t < d.2.2)%Z) v.2
  | do_cleanup now _ =>
      match v.1 with
      | Some agent => stale now agent = false
      | None => True
      end
  end.

Definition profile_of (a : string) (s : Status) (seen_at : Z) : AgentProfile :=
  {| id := a; name := a; type := "worker"; status := s; capabilities := ["chat"];
     performance := {| tasksCompleted := 0; avgResponseTime := 1; successRate := 1;
                       lastSeen := seen_at |};
     metadata := {| nodeId := "n"; version := "1"; startTime := 0; autonomyLevel := "full" |} |}.

Ltac fields :=
  unfold node_emit, emit, clearTimeout, with_timers, with_agents in *; simpl in *.

End RegistrySpec.

(** ** The stream splitter: responses by correlation id *)

Module DemuxSpec.
Import JS Demux.

Record demux_ok (st : Demux) : Prop := {
  timers_once : NoDup (JsMap.keys (timers st));
  listeners_once : NoDup (listeners st).*2;
  settled_once : NoDup (JsMap.keys (settled st));
  listener_timer : forall n w, (n, w) ∈ listeners st ->
                     exists c due, JsMap.get w (timers st) = Some (c, due) ∧ n = response_event c;
  timer_pending : forall w, w ∈ JsMap.keys (timers st) -> w ∉ JsMap.keys (settled st);
  waiters_known : forall w, w < next_waiter st
                            <-> w ∈ JsMap.keys (timers st) ∨ w ∈ JsMap.keys (settled st)
}.

(** Promise [w] has its listener on the responses to [c]. *)
Definition listens (c : string) (w : nat) (st : Demux) : Prop :=
  (response_event c, w) ∈ listeners st.

Definition response (c : string) (d : JsVal) : Message :=
  {| correlationId := Some c; data := d |}.

(** A call that is no response to [c]. *)
Definition silent (c : string) (o : Op) : Prop :=
  match o with
  | do_response msg => correlationId msg ≠ Some c
  | _ => True
  end.

(** Promise [w] waits for a response to [c], or its timeout has fired. *)
Definition waiting (w : nat) (c : string) (due : Z) (st : Demux) : Prop :=
  demux_ok st ∧
  (JsMap.get w (timers st) = Some (c, due)
   ∨ outcome w st = Some (rejected "Response timeout")).

(** The timeout of [w1], for the id [c], is set as long as [w] has a
    listener, which is one for [c]; and [w] is not fulfilled. *)
Definition behind (w1 : nat) (c : string) (due1 : Z) (w : nat) (st : Demux) : Prop :=
  demux_ok st ∧ w < next_waiter st ∧
  (forall d, outcome w st ≠ Some (fulfilled d)) ∧
  (w ∈ (listeners st).*2 ->
   JsMap.get w1 (timers st) = Some (c, due1) ∧ (response_event c, w) ∈ listeners st).

(** Promise [w] has no listener and is not fulfilled. *)
Definition deaf (w : nat) (st : Demux) : Prop :=
  demux_ok st ∧ w < next_waiter st ∧
  (forall d, outcome w st ≠ Some (fulfilled d)) ∧ w ∉ (listeners st).*2.

End DemuxSpec.

(** * Part III: the properties *)

(** ** [Map] *)

Module JsMapFacts.
Section facts.
Context {K V : Type} `{EqDecision K}.
Implicit Types (k : K) (v : V) (m : list (K * V)).

Lemma get_set_eq k v m : JsMap.get k (JsMap.set k v m) = Some v.
Proof.
  induction m as [|[k' v'] m IH]; simpl.
  - by rewrite decide_True.
  - destruct (decide (k' = k)) as [->|Hne]; simpl.
    + by rewrite decide_True.
    + by rewrite decide_False.
Qed.

Lemma get_set_ne k k' v m : k ≠ k' -> JsMap.get k' (JsMap.set k v m) = JsMap.get k' m.
Proof.
  intros Hne. induction m as [|[k0 v0] m IH]; simpl.
  - by rewrite decide_False.
  - destruct (decide (k0 = k)) as [->|Hk0]; simpl.
    + by rewrite !decide_False.
    + by rewrite IH.
Qed.

Lemma get_delete_eq k m : JsMap.get k (JsMap.delete k m) = None.
Proof.
  induction m as [|[k' v'] m IH]; simpl; [done|].
  destruct (decide (k' = k)); simpl; [done|]. by rewrite decide_False.
Qed.

Lemma get_delete_ne k k' m : k ≠ k' -> JsMap.get k' (JsMap.delete k m) = JsMap.get k' m.
Proof.
  intros Hne. induction m as [|[k0 v0] m IH]; simpl; [done|].
  destruct (decide (k0 = k)) as [->|Hk0]; simpl.
  - by rewrite decide_False.
  - by rewrite IH.
Qed.

Lemma get_None k m : JsMap.get k m = None <-> k ∉ JsMap.keys m.
Proof.
  unfold JsMap.keys. induction m as [|[k' v'] m IH]; simpl.
  - split; [intros _; apply not_elem_of_nil|done].
  - rewrite not_elem_of_cons. destruct (decide (k' = k)) as [->|Hne].
    + split; [done|]. by intros [? _].
    + rewrite IH. split; [|by intros [_ ?]]. intros ?. split; [congruence|done].
Qed.

Lemma get_Some_keys k v m : JsMap.get k m = Some v -> k ∈ JsMap.keys m.
Proof.
  intros Hget. destruct (decide (k ∈ JsMap.keys m)) as [|Hn]; [done|].
  apply get_None in Hn. congruence.
Qed.

Lemma delete_absent k m : JsMap.get k m = None -> JsMap.delete k m = m.
Proof.
  induction m as [|[k' v'] m IH]; simpl; [done|].
  destruct (decide (k' = k)); [done|]. intros Hget. by rewrite IH.
Qed.

Lemma size_set_present k v m : is_Some (JsMap.get k m) -> JsMap.size (JsMap.set k v m) = JsMap.size m.
Proof.
  unfold JsMap.size. induction m as [|[k' v'] m IH]; simpl.
  - by intros [? ?].
  - destruct (decide (k' = k)); simpl; [done|]. intros Hs. by rewrite IH.
Qed.

Lemma size_set_absent k v m : JsMap.get k m = None -> JsMap.size (JsMap.set k v m) = S (JsMap.size m).
Proof.
  unfold JsMap.size. induction m as [|[k' v'] m IH]; simpl; [done|].
  destruct (decide (k' = k)); simpl; [done|]. intros Hs. by rewrite IH.
Qed.

Lemma size_set k v m : JsMap.size (JsMap.set k v m) <= S (JsMap.size m).
Proof.
  destruct (JsMap.get k m) eqn:Hget.
  - rewrite size_set_present; [lia|by eexists].
  - rewrite size_set_absent; [lia|done].
Qed.

Lemma size_delete k m : JsMap.size (JsMap.delete k m) <= JsMap.size m.
Proof.
  unfold JsMap.size. induction m as [|[k' v'] m IH]; simpl; [done|].
  destruct (decide (k' = k)); simpl; lia.
Qed.

Lemma keys_delete k k' m : k' ∈ JsMap.keys (JsMap.delete k m) <-> k' ≠ k ∧ k' ∈ JsMap.keys m.
Proof.
  unfold JsMap.keys. induction m as [|[k0 v0] m IH]; simpl.
  - rewrite elem_of_nil. tauto.
  - destruct (decide (k0 = k)) as [->|Hne]; simpl; rewrite ?elem_of_cons, IH.
    + split; [tauto|]. intros [? [?|?]]; [congruence|done].
    + split; [|tauto]. intros [->|[? ?]]; [split; [done|by left]|tauto].
Qed.

Lemma keys_set k k' v m : k' ∈ JsMap.keys (JsMap.set k v m) <-> k' = k ∨ k' ∈ JsMap.keys m.
Proof.
  unfold JsMap.keys. induction m as [|[k0 v0] m IH]; simpl.
  - rewrite list_elem_of_singleton, elem_of_nil. tauto.
  - destruct (decide (k0 = k)) as [->|Hne]; simpl; rewrite ?elem_of_cons, ?IH; tauto.
Qed.

Lemma NoDup_set k v m : NoDup (JsMap.keys m) -> NoDup (JsMap.keys (JsMap.set k v m)).
Proof.
  induction m as [|[k0 v0] m IH]; simpl.
  - intros _. apply NoDup_singleton.
  - unfold JsMap.keys; simpl. rewrite NoDup_cons. intros [Hnotin Hnd].
    destruct (decide (k0 = k)) as [->|Hne]; simpl; rewrite NoDup_cons.
    + done.
    + split; [|by apply IH].
      intros Hin. apply (keys_set k k0 v m) in Hin as [?|?]; [congruence|done].
Qed.

Lemma NoDup_delete k m : NoDup (JsMap.keys m) -> NoDup (JsMap.keys (JsMap.delete k m)).
Proof.
  induction m as [|[k0 v0] m IH]; simpl; [done|].
  unfold JsMap.keys; simpl. rewrite NoDup_cons. intros [Hnotin Hnd].
  destruct (decide (k0 = k)) as [->|Hne]; simpl; [by apply IH|].
  rewrite NoDup_cons. split; [|by apply IH].
  intros Hin. apply (keys_delete k k0 m) in Hin as [_ ?]. done.
Qed.

Lemma has_true k m : JsMap.has k m = true <-> is_Some (JsMap.get k m).
Proof.
  unfold JsMap.has. destruct (JsMap.get k m); split; intros Hx; done.
Qed.

Lemma has_false k m : JsMap.has k m = false <-> JsMap.get k m = None.
Proof. unfold JsMap.has. by destruct (JsMap.get k m). Qed.

End facts.
End JsMapFacts.

(** ** Lists *)

Module ListFacts.

Lemma filter_cons_bool {A} (f : A -> bool) x l :
  filter (fun y => f y) (x :: l)
  = if f x then x :: filter (fun y => f y) l else filter (fun y => f y) l.
Proof. rewrite filter_cons. by destruct (f x). Qed.

End ListFacts.


(** ** The multiplexer: admission, broadcast, kill *)

Module MultiplexerFacts.
Import JS Multiplexer JsMapFacts MultiplexerSpec.

Lemma sendToAgent_frame now uuid a m c st :
  let st' := (sendToAgent now uuid a m c st).1 in
  maxConcurrent st' = maxConcurrent st ∧ agents st' = agents st ∧
  listeners st' = listeners st.
Proof.
  unfold sendToAgent. destruct (JsMap.get a (agents st)); [|done].
  fields. by destruct (omap _ (listeners st)).
Qed.

Lemma sends_frame draw ids : forall i m st,
  let st' := (sends draw i ids m st).1 in
  maxConcurrent st' = maxConcurrent st ∧ agents st' = agents st ∧
  listeners st' = listeners st.
Proof.
  induction ids as [|a ids IH]; intros i m st; simpl; [done|].
  pose proof (sendToAgent_frame (draw i).1 (draw i).2 a m None st) as Hs.
  destruct (sendToAgent _ _ a m None st) as [st1 r]. simpl in Hs.
  specialize (IH (S i) m st1).
  destruct (sends draw (S i) ids m st1) as [st2 rs]. simpl in *.
  destruct IH as (-> & -> & ->). done.
Qed.

Lemma broadcast_frame draw m st :
  let st' := (broadcast draw m st).1 in
  maxConcurrent st' = maxConcurrent st ∧ agents st' = agents st ∧
  listeners st' = listeners st.
Proof.
  unfold broadcast.
  pose proof (sends_frame draw (JsMap.keys (agents st)) 0 m st) as Hs.
  by destruct (sends draw 0 _ m st).
Qed.

Lemma killAll_kills l : forall st,
  let st' := foldl (fun s (a : string * ChildProcess) => kill a.2 s) st l in
  maxConcurrent st' = maxConcurrent st.
Proof. induction l as [|a l IH]; intros st; simpl; [done|]. by rewrite IH. Qed.

Lemma spawnAgent_full options uuid st :
  maxConcurrent st <= JsMap.size (agents st) ->
  spawnAgent options uuid st = (st, Err (CapacityExceeded (maxConcurrent st))).
Proof.
  intros Hfull. unfold spawnAgent.
  by rewrite (proj2 (Nat.leb_le _ _) Hfull).
Qed.

Lemma step_within_capacity N o st : within_capacity N st -> within_capacity N (step o st).
Proof.
  intros [Hmax Hsize]. destruct o as [l|options uuid|now uuid a m c|draw m|a| |p c]; simpl.
  - done.
  - unfold spawnAgent.
    destruct (maxConcurrent st <=? JsMap.size (agents st)) eqn:Hfull; [done|].
    apply Nat.leb_gt in Hfull. fields.
    destruct (omap _ (listeners st)); simpl; split; try done.
    all: etrans; [apply size_set|lia].
  - destruct (sendToAgent_frame now uuid a m c st) as (Hm & Ha & _).
    split; [congruence|]. by rewrite Ha.
  - destruct (broadcast_frame draw m st) as (Hm & Ha & _).
    split; [congruence|]. by rewrite Ha.
  - unfold killAgent. destruct (JsMap.get a (agents st)); [|done]. fields. split; [done|].
    etrans; [apply size_delete|done].
  - unfold killAll. fields. split; [|unfold JsMap.size; simpl; lia].
    by rewrite killAll_kills.
  - unfold on_exit. destruct (JsMap.get p (running st)) as [a|]; [|done]. fields.
    split; [done|]. etrans; [apply size_delete|done].
Qed.

Lemma run_within_capacity N ops : forall st, within_capacity N st -> within_capacity N (run ops st).
Proof.
  induction ops as [|o ops IH]; intros st Hst; simpl; [done|].
  apply IH. by apply step_within_capacity.
Qed.

Lemma new_within_capacity N : within_capacity N (new N).
Proof. split; [done|]. unfold JsMap.size; simpl. lia. Qed.

End MultiplexerFacts.


Module MultiplexerClaims.
Import JS Multiplexer JsMapFacts MultiplexerFacts MultiplexerSpec.

(** C1.  Whatever was done to a multiplexer created with maximum [N]
    (spawns, sends, broadcasts, kills, exits of processes, listeners added),
    it holds at most [N] agents; and a [spawnAgent] called when it holds [N]
    or more fails with the capacity error and leaves the whole state as it
    was: no handle is registered and no [agent:spawn] is emitted. *)
Theorem spawnAgent_never_exceeds_maximum (N : nat) (ops : list Op)
    (options : AgentOptions) (uuid : string) :
  let st := run ops (new N) in
  JsMap.size (agents st) <= N ∧
  (N <= JsMap.size (agents st) ->
   spawnAgent options uuid st = (st, Err (CapacityExceeded N))).
Proof.
  intros st. destruct (run_within_capacity N ops (new N) (new_within_capacity N)) as [Hmax Hsize].
  fold st in Hmax, Hsize. split; [done|].
  intros Hfull. rewrite <- Hmax. apply spawnAgent_full. by rewrite Hmax.
Qed.

Lemma spawnAgent_never_exceeds_maximum_witness :
  spawnAgent no_options "c"
    (run [do_spawnAgent no_options "a"; do_spawnAgent no_options "b"] (new 2))
  = (run [do_spawnAgent no_options "a"; do_spawnAgent no_options "b"] (new 2),
     Err (CapacityExceeded 2)).
Proof.
  apply (spawnAgent_never_exceeds_maximum 2
           [do_spawnAgent no_options "a"; do_spawnAgent no_options "b"] no_options "c").
  vm_compute. lia.
Defined.

(** The scenario of the spec: three agents with maximum 3, a fourth spawn
    fails, and after one kill a spawn succeeds. *)
Example capacity_scenario :
  let st3 := run [do_spawnAgent no_options "a"; do_spawnAgent no_options "b";
                  do_spawnAgent no_options "c"] (new 3) in
  (spawnAgent no_options "d" st3).2 = Err (CapacityExceeded 3) ∧
  (spawnAgent no_options "d" (killAgent "b" st3)).2 = Ok "d" ∧
  getAgentIds (spawnAgent no_options "d" (killAgent "b" st3)).1 = ["a"; "c"; "d"].
Proof. by vm_compute. Qed.

(** *** broadcast *)

Lemma sends_spec draw message ids : forall i st,
  (forall a, a ∈ ids -> is_Some (JsMap.get a (agents st))) ->
  let '(st', rs) := sends draw i ids message st in
  emitted st' = emitted st ++ announcements draw i ids message ∧
  promise_all rs = first_failure (listeners st) (announcements draw i ids message).
Proof.
  induction ids as [|a ids IH]; intros i st Hlive; simpl.
  - by rewrite app_nil_r.
  - destruct (Hlive a) as [agent Hagent]; [by left|].
    pose proof (sendToAgent_frame (draw i).1 (draw i).2 a message None st) as Hframe.
    unfold sendToAgent in *. rewrite Hagent in *.
    set (ev := message_send _) in *.
    unfold first_failure; simpl. fold ev. unfold thrown_on at 1.
    unfold emit in *.
    destruct (omap (fun l : Listener => l ev) (listeners st)) as [|e es] eqn:Hthrown;
      simpl in Hframe |- *.
    + specialize (IH (S i)
        (stdin_write agent message (with_emitted (emitted st ++ [ev]) st))).
      destruct (sends draw (S i) ids message _) as [st2 rs].
      destruct IH as [Hem Hall].
      { intros a' Ha'. unfold stdin_write, with_processes, with_emitted; simpl.
        apply Hlive. by right. }
      split.
      * rewrite Hem. unfold stdin_write, with_processes, with_emitted; simpl.
        by rewrite <- app_assoc.
      * simpl. exact Hall.
    + specialize (IH (S i) (with_emitted (emitted st ++ [ev]) st)).
      destruct (sends draw (S i) ids message _) as [st2 rs].
      destruct IH as [Hem Hall].
      { intros a' Ha'. apply Hlive. by right. }
      split; [|done].
      rewrite Hem. unfold with_emitted; simpl. by rewrite <- app_assoc.
Qed.

(** C6, as the code has it.  [broadcast] calls [sendToAgent] for every live
    agent, in the order of the table: a [message:send] is emitted for each.
    It resolves exactly when none of these sends failed; when one did, it
    rejects with the error of the first that failed.  No failure is caught
    or logged. *)
Theorem broadcast_rejects_with_first_failure (draw : nat -> Z * string)
    (message : string) (st : Mux) :
  let sent := announcements draw 0 (getAgentIds st) message in
  emitted (broadcast draw message st).1 = emitted st ++ sent ∧
  (broadcast draw message st).2 = first_failure (listeners st) sent.
Proof.
  unfold broadcast, getAgentIds.
  pose proof (sends_spec draw message (JsMap.keys (agents st)) 0 st) as Hs.
  destruct (sends draw 0 _ message st) as [st' rs]. simpl. apply Hs.
  intros a Ha. destruct (JsMap.get a (agents st)) eqn:Hget; [by eexists|].
  by apply get_None in Hget.
Qed.

(** C6 as stated fails: with two live agents and a [message:send] listener
    that throws for the first, both sends are attempted (the second is
    written to its agent's stdin), and [broadcast] rejects. *)
Lemma broadcast_rejects :
  (broadcast (fun _ => (0%Z, "u")) "hello" two_agents).2 = Err (Thrown "listener failed") ∧
  stdin (broadcast (fun _ => (0%Z, "u")) "hello" two_agents).1 = [(1, "hello")] ∧
  ¬ (forall draw message st, (broadcast draw message st).2 = Ok tt).
Proof.
  split; [by vm_compute|]. split; [by vm_compute|].
  intros Hall. specialize (Hall (fun _ => (0%Z, "u")) "hello" two_agents).
  vm_compute in Hall. discriminate.
Qed.

(** *** kill and shutdown *)

Lemma killAgent_twice a st : killAgent a (killAgent a st) = killAgent a st.
Proof.
  unfold killAgent at 2. destruct (JsMap.get a (agents st)) as [agent|] eqn:Hget.
  - unfold killAgent. fields. by rewrite get_delete_eq, Hget.
  - unfold killAgent. by rewrite Hget.
Qed.

Lemma on_exit_twice p c c' st : on_exit p c' (on_exit p c st) = on_exit p c st.
Proof.
  assert (JsMap.get p (running (on_exit p c st)) = None) as Hgone.
  { unfold on_exit. destruct (JsMap.get p (running st)) as [a|] eqn:Hget; [|done].
    unfold emit, with_messageBuffer, with_agents, with_processes, with_emitted.
    cbn [fst running]. apply get_delete_eq. }
  unfold on_exit at 1. by rewrite Hgone.
Qed.

End MultiplexerClaims.

Module PeerClaims.
Import JS Peer PeerSpec.

(** C7, as the code has it.  A second [killAgent] of the same id changes
    nothing (it sends no signal and emits nothing), and the exit listener of
    a process runs once, so no second [agent:exit] follows.  A second
    [shutdown] of a peer leaves the multiplexer as the first left it, and
    emits [peer:leave] once more. *)
Theorem second_kill_is_noop_and_shutdown_announces_again
    (a : string) (st : Multiplexer.Mux) (pid : nat) (c c' : option Z) (p : PeerAgent) :
  Multiplexer.killAgent a (Multiplexer.killAgent a st) = Multiplexer.killAgent a st ∧
  Multiplexer.on_exit pid c' (Multiplexer.on_exit pid c st) = Multiplexer.on_exit pid c st ∧
  multiplexer (shutdown (shutdown p)) = multiplexer (shutdown p) ∧
  node_emitted (shutdown (shutdown p))
  = node_emitted (shutdown p) ++ [("peer:leave", JObj [("nodeId", JStr (nodeId p))])].
Proof.
  split; [apply MultiplexerClaims.killAgent_twice|].
  split; [apply MultiplexerClaims.on_exit_twice|].
  split; [|done].
  unfold shutdown, node_emit, with_multiplexer; simpl.
  apply MultiplexerClaims.killAgent_twice.
Qed.

(** C7 as stated fails: a peer that shut down twice has announced its
    departure twice. *)
Lemma shutdown_twice_leaves_twice :
  filter (fun e => e.1 = "peer:leave") (node_emitted (shutdown (shutdown a_peer)))
  = [("peer:leave", JObj [("nodeId", JStr "node-1")]);
     ("peer:leave", JObj [("nodeId", JStr "node-1")])] ∧
  filter (fun e => e.1 = "peer:leave") (node_emitted (shutdown a_peer))
  = [("peer:leave", JObj [("nodeId", JStr "node-1")])].
Proof. by vm_compute. Qed.

End PeerClaims.


(** ** The stream splitter: the stream table *)

Module SplitterFacts.
Import JS Splitter JsMapFacts SplitterSpec.

Lemma new_table_ok : table_ok new.
Proof. split; simpl; try done. all: apply NoDup_nil_2. Qed.

Lemma prop_not_null msg name : msg ≠ JNull -> exists v, prop msg name = Some v.
Proof. destruct msg; simpl; eauto. done. Qed.

Lemma stream_key_null msg st : stream_key msg st = None <-> msg = JNull.
Proof. unfold stream_key. destruct msg; simpl; split; done. Qed.

Lemma is_type_exclusive ty :
  (is_type ty "stream:end" = true -> is_type ty "stream:start" = false ∧ is_type ty "stream:chunk" = false).
Proof.
  unfold is_type. destruct ty as [[| | |s| |]|]; try done.
  intros Hs. apply String.eqb_eq in Hs as ->. done.
Qed.

(** One call of [routeMessage] on a message that is not [null]. *)
Lemma routeMessage_ok now msg st k :
  table_ok st -> stream_key msg st = Some k ->
  exists st',
    routeMessage now msg st = Returned st' ∧
    table_ok st' ∧
    chunkCount k st' = (if is_end msg then None else Some (S (default 0 (chunkCount k st)))) ∧
    (is_end msg = true -> JsMap.get k (streams st') = None) ∧
    (forall k', k' ≠ k -> chunkCount k' st' = chunkCount k' st).
Proof.
  intros Hok Hkey. unfold stream_key in Hkey. unfold routeMessage, is_end.
  destruct (prop msg "streamId") as [m_streamId|] eqn:Hsid; [|done].
  destruct (prop msg "agentId") as [m_agentId|] eqn:Haid; [|done].
  assert (msg ≠ JNull) as Hnn by (intros ->; done).
  destruct (prop_not_null msg "type" Hnn) as [m_type ->].
  destruct (prop_not_null msg "data" Hnn) as [m_data ->].
  injection Hkey as Hkey.
  set (sid := or_else (js_or m_streamId m_agentId) (JStr "default")) in *.
  rewrite Hkey.
  set (st0 := if is_ref k then with_refs (S (refs st)) st else st).
  assert (streams st0 = streams st ∧ metadata st0 = metadata st ∧ emitted st0 = emitted st
          ∧ buffers st0 = buffers st) as (Hs0 & Hm0 & He0 & Hb0).
  { unfold st0. by destruct (is_ref k). }
  assert (forall r, refs st0 <= r -> JsMap.get (KRef r) (streams st) = None) as Hfresh0.
  { intros r Hr. apply (refs_fresh st Hok). unfold st0 in Hr.
    destruct (is_ref k); simpl in Hr; lia. }
  assert (forall r, refs st0 <= r -> KRef r ≠ k) as Hnew.
  { intros r Hr Heq. unfold st0 in Hr. rewrite <- Heq in Hr, Hkey. simpl in Hr.
    unfold key_of in Hkey. destruct sid; try done; injection Hkey as Hr'; lia. }
  clearbody st0.
  destruct (JsMap.get k (streams st0)) as [stream|] eqn:Hstream.
  - (* the stream exists *)
    rewrite Hs0 in Hstream.
    destruct (JsMap.get k (metadata st0)) as [meta0|] eqn:Hmeta.
    2:{ rewrite Hm0 in Hmeta. apply (same_keys st Hok) in Hmeta. congruence. }
    rewrite Hm0 in Hmeta.
    unfold chunkCount. rewrite Hmeta. simpl.
    destruct (is_type m_type "stream:end") eqn:Hend.
    + destruct (is_type_exclusive m_type Hend) as [-> ->]. eexists. split; [done|].
      fields. rewrite Hs0, Hm0. rewrite !get_delete_eq. split; [|split; [done|split; [done|]]].
      * split; simpl.
        -- apply NoDup_delete, NoDup_set, Hok.
        -- apply NoDup_delete, NoDup_set, Hok.
        -- intros k'. destruct (decide (k = k')) as [<-|Hne].
           ++ by rewrite !get_delete_eq.
           ++ rewrite !get_delete_ne, !get_set_ne by done. apply Hok.
        -- intros r Hr. rewrite get_delete_ne, get_set_ne by (apply not_eq_sym; auto).
           by apply Hfresh0.
      * intros k' Hne. by rewrite get_delete_ne, get_set_ne by done.
    + assert (forall stx, table_ok stx ∧
                (chunks <$> JsMap.get k (metadata stx)) = Some (S (chunks meta0)) ∧
                (forall k', k' ≠ k -> (chunks <$> JsMap.get k' (metadata stx))
                                     = (chunks <$> JsMap.get k' (metadata st))) ->
              table_ok stx ∧
              (chunks <$> JsMap.get k (metadata stx)) = Some (S (chunks meta0)) ∧
              (false = true -> JsMap.get k (streams stx) = None) ∧
              (forall k', k' ≠ k -> (chunks <$> JsMap.get k' (metadata stx))
                                   = (chunks <$> JsMap.get k' (metadata st)))) as Hpack.
      { intros stx (? & ? & ?). done. }
      assert (forall strs ev_list r0,
                 r0 = refs st0 ->
                 (strs = streams st ∨ exists v, strs = JsMap.set k v (streams st)) ->
                 table_ok {| streams := strs;
                             metadata := JsMap.set k {| agentId := agentId meta0;
                                                        streamId := streamId meta0;
                                                        type := type meta0;
                                                        started := started meta0;
                                                        chunks := S (chunks meta0) |} (metadata st);
                             buffers := buffers st0; emitted := ev_list; refs := r0 |}) as Hkeep.
      { intros strs evl r0 -> Hstrs. split; simpl.
        - destruct Hstrs as [->|[v ->]]; [apply Hok|apply NoDup_set, Hok].
        - apply NoDup_set, Hok.
        - intros k'. destruct (decide (k = k')) as [<-|Hne].
          + rewrite get_set_eq. destruct Hstrs as [->|[v ->]]; [|rewrite get_set_eq]; split; congruence.
          + rewrite get_set_ne by done.
            destruct Hstrs as [->|[v ->]]; [|rewrite get_set_ne by done]; apply Hok.
        - intros r Hr. destruct Hstrs as [->|[v ->]]; [by apply Hfresh0|].
          rewrite get_set_ne by (apply not_eq_sym; auto). by apply Hfresh0. }
      destruct (is_type m_type "stream:start"); [|destruct (is_type m_type "stream:chunk")].
      all: eexists; split; [done|]; apply Hpack; fields; rewrite ?Hs0, ?Hm0, ?get_set_eq.
      all: split; [apply Hkeep; eauto|].
      all: split; [done|]; intros k' Hne; by rewrite get_set_ne by done.
  - (* the stream is created *)
    rewrite Hs0 in Hstream.
    assert (JsMap.get k (metadata st) = None) as Hmeta by (by apply (same_keys st Hok)).
    unfold chunkCount. rewrite Hmeta. fields. rewrite Hm0, !get_set_eq. simpl.
    assert (forall strs ev_list r0 m0,
               r0 = refs st0 ->
               (exists v, strs = JsMap.set k v (streams st)) ->
               table_ok {| streams := strs;
                           metadata := JsMap.set k m0 (metadata st);
                           buffers := buffers st0; emitted := ev_list; refs := r0 |}) as Hkeep.
    { intros strs evl r0 m0 -> [v ->]. split; simpl.
      - apply NoDup_set, Hok.
      - apply NoDup_set, Hok.
      - intros k'. destruct (decide (k = k')) as [<-|Hne].
        + rewrite !get_set_eq. split; congruence.
        + rewrite !get_set_ne by done. apply Hok.
      - intros r Hr. rewrite get_set_ne by (apply not_eq_sym; auto). by apply Hfresh0. }
    destruct (is_type m_type "stream:end") eqn:Hend.
    + destruct (is_type_exclusive m_type Hend) as [-> ->]. eexists. split; [done|].
      simpl. rewrite !get_delete_eq. split; [|split; [done|split; [done|]]].
      * split; simpl.
        -- rewrite Hs0. apply NoDup_delete, NoDup_set, NoDup_set, Hok.
        -- apply NoDup_delete, NoDup_set, NoDup_set, Hok.
        -- intros k'. rewrite Hs0. destruct (decide (k = k')) as [<-|Hne].
           ++ by rewrite !get_delete_eq.
           ++ rewrite !get_delete_ne, !get_set_ne by done. apply Hok.
        -- intros r Hr. rewrite Hs0.
           rewrite get_delete_ne, !get_set_ne by (apply not_eq_sym; auto).
           by apply Hfresh0.
      * intros k' Hne. by rewrite get_delete_ne, !get_set_ne by done.
    + destruct (is_type m_type "stream:start"); [|destruct (is_type m_type "stream:chunk")].
      all: eexists; split; [done|]; simpl; rewrite ?Hs0, ?get_set_eq; simpl.
      all: split; [|split; [done|split; [done|]]].
      all: try (intros k' Hne; by rewrite !get_set_ne by done).
      all: split; simpl.
      all: try (repeat apply NoDup_set; apply Hok).
      all: try (intros r Hr; rewrite !get_set_ne by (apply not_eq_sym; auto); by apply Hfresh0).
      all: intros k'; destruct (decide (k = k')) as [<-|Hne];
        [rewrite !get_set_eq; split; congruence|rewrite !get_set_ne by done; apply Hok].
Qed.

End SplitterFacts.


Module SplitterClaims.
Import JS Splitter JsMapFacts SplitterFacts SplitterSpec.

Lemma route_null call st : call.2 = JNull -> route st call = st.
Proof. destruct call as [now msg]; simpl. by intros ->. Qed.

Lemma route_ok call st : table_ok st -> table_ok (route st call).
Proof.
  intros Hok. destruct call as [now msg].
  destruct (stream_key msg st) as [k|] eqn:Hkey.
  - destruct (routeMessage_ok now msg st k Hok Hkey) as (st' & Hr & Hok' & _).
    unfold route; simpl. by rewrite Hr.
  - apply stream_key_null in Hkey. by rewrite route_null.
Qed.





(** Three chunks, an end, and a chunk again: the count of the stream is 1,
    2, 3, then the entry is gone, then 1. *)
Example counts_of_a_stream :
  map (fun n => chunkCount (KStr "s")
                  (routeAll (take n [(0%Z, chunk_of "s"); (1%Z, chunk_of "s"); (2%Z, chunk_of "s");
                                     (3%Z, end_of "s"); (4%Z, chunk_of "s")]) new))
      [1; 2; 3; 4; 5]
  = [Some 1; Some 2; Some 3; None; Some 1].
Proof. by vm_compute. Qed.

(** *** Reassembly *)

(** C3 fails on the code: a line cut inside a character.  Each chunk is
    decoded on its own, each half of the character becomes U+FFFD, and the
    message routed has another [streamId] than the message sent. *)
Lemma split_character_is_not_recovered :
  JSON_parse (toString (first_half +:+ second_half))
  = Some (JObj [("streamId", JStr (String (chr 195) (String (chr 169) EmptyString)))]) ∧
  JsMap.keys (streams (processChunks [(0%Z, first_half +:+ second_half)] new))
  = [KStr (String (chr 195) (String (chr 169) EmptyString))] ∧
  JsMap.keys (streams (processChunks [(0%Z, first_half); (1%Z, second_half)] new))
  = [KStr (replacement +:+ replacement)] ∧
  map written (JsMap.values (streams (processChunks [(0%Z, first_half); (1%Z, second_half)] new)))
  = [[Some (JObj [("streamId", JStr (replacement +:+ replacement))])]].
Proof. by vm_compute. Qed.

(** C3 fails on the code: a line cut into three chunks, the second of which
    is a JSON text of its own.  The line is [{"a":123}]; [123] is routed as
    a message when it arrives (a stream is created and an event emitted
    before the last chunk), and the message sent is never routed: what is
    left of it stays in the buffer. *)
Lemma fragment_that_parses_is_routed :
  let st2 := processChunks [(0%Z, dq "{'a':"); (1%Z, "123")] new in
  let st3 := processChunk 2%Z "}" st2 in
  emitted st2 = [stream_created (JStr "default")
                   (Some {| agentId := JStr "default"; streamId := JStr "default";
                            type := JStr "response"; started := 1; chunks := 0 |})] ∧
  map written (JsMap.values (streams st3)) = [[Some (JNum 123 0)]] ∧
  buffers st3 !! bufferKey = Some (dq "{'a':}") ∧
  map written (JsMap.values (streams (processChunks [(0%Z, dq "{'a':123}")] new)))
  = [[Some (JObj [("a", JNum 123 0)])]].
Proof. by vm_compute. Qed.

End SplitterClaims.


Module Reassembly.
Import JS Splitter JsMapFacts SplitterFacts SplitterClaims SplitterSpec.








End Reassembly.


(** ** The router: the queue *)

Module RouterFacts.
Import JS Router JsMapFacts RouterSpec.

Lemma fan_out_msg now m rs : Forall (fun t => msg t = m) (fan_out now m rs).
Proof.
  unfold fan_out. apply Forall_forall. intros t Ht.
  apply list_elem_of_In, in_flat_map in Ht as ([tp rts] & _ & Ht). simpl in Ht.
  apply list_elem_of_In, list_elem_of_omap in Ht as (r & _ & Hr).
  destruct (matchesPattern m (pattern r)); [|done]. by injection Hr as <-.
Qed.

(** The calls of [handleRoute] for a message are the routes that match it. *)
Lemma fan_out_complete now m rs t :
  t ∈ fan_out now m rs <->
  exists tp rts r, (tp, rts) ∈ rs ∧ r ∈ rts ∧ matchesPattern m (pattern r) = true ∧
                   t = {| topic := tp; route := r; msg := m; start := now |}.
Proof.
  unfold fan_out. rewrite list_elem_of_In, in_flat_map. split.
  - intros ([tp rts] & Hin & Ht). simpl in Ht.
    apply list_elem_of_In, list_elem_of_omap in Ht as (r & Hr & Hm).
    destruct (matchesPattern m (pattern r)) eqn:Hmatch; [|done]. injection Hm as <-.
    exists tp, rts, r. by rewrite list_elem_of_In.
  - intros (tp & rts & r & Hin & Hr & Hmatch & ->). exists (tp, rts).
    rewrite <- !list_elem_of_In. split; [done|]. simpl.
    apply list_elem_of_omap. exists r. by rewrite Hmatch.
Qed.

Lemma loop_shifts now st :
  waiting st = [] ->
  match messageQueue st with
  | [] => loop now st = with_processing false st
  | (m, _) :: q =>
      shifted (loop now st) = shifted st ++ [m] ∧ messageQueue (loop now st) = q ∧
      waiting (loop now st) = [fan_out now m (routes st)] ∧
      processing (loop now st) = processing st ∧ emitted (loop now st) = emitted st ∧
      routes (loop now st) = routes st
  end.
Proof.
  intros Hw. unfold loop. destruct (messageQueue st) as [|[m t] q]; [done|].
  fields. by rewrite Hw.
Qed.

Lemma handleRoute_settled_frame now t st :
  let st' := handleRoute_settled now t st in
  routes st' = routes st ∧ messageQueue st' = messageQueue st ∧
  processing st' = processing st ∧ waiting st' = waiting st ∧ shifted st' = shifted st.
Proof.
  unfold handleRoute_settled. destruct (handler (route t) (msg t)) as [[v|]|e]; try done.
  - by destruct (truthy (Some v)).
  - by destruct (error_message e).
Qed.

Lemma last_snoc_msg (l : list Msg) m : last (l ++ [m]) = Some m.
Proof. by rewrite last_snoc. Qed.

Lemma step_one_drain s st : one_drain st -> one_drain (step s st).
Proof.
  intros Hinv. destruct s as [tp config|now data|now w i|now w]; simpl.
  - (* addRoute *)
    unfold addRoute. fields. exact Hinv.
  - (* deliver *)
    unfold on_route_message. fields.
    destruct Hinv as [(Hp & Hw & Hq)|(Hp & tasks & Hw & Hall)]; rewrite Hp; simpl.
    + right. unfold processQueue, loop. fields. rewrite Hq, Hw. simpl.
      split; [done|]. eexists. split; [done|].
      eapply Forall_impl; [apply fan_out_msg|]. intros t ->. apply last_snoc_msg.
    + right. split; [done|]. by exists tasks.
  - (* a handler settles *)
    destruct Hinv as [(Hp & Hw & Hq)|(Hp & tasks & Hw & Hall)].
    + rewrite Hw, lookup_nil. by left.
    + destruct (waiting st !! w) as [tasks'|] eqn:Hlk; [|by right; split; [|exists tasks]].
      destruct (tasks' !! i) as [t|] eqn:Ht; [|by right; split; [|exists tasks]].
      destruct (handleRoute_settled_frame now t
                  (with_waiting (<[w:=base.delete i tasks']> (waiting st)) st))
        as (_ & _ & Hp' & Hw' & Hs').
      right. rewrite Hp', Hw', Hs'. fields. rewrite Hw in Hlk |- *.
      destruct w as [|w]; simpl in *; [|done]. injection Hlk as <-.
      split; [done|]. eexists. split; [done|].
      apply Forall_forall. intros t' Ht'. apply list_elem_of_delete_inv in Ht'.
      by apply (proj1 (Forall_forall _ _) Hall).
  - (* the waiting call goes on *)
    destruct (waiting st !! w) as [[|t tasks']|] eqn:Hlk; try done.
    destruct Hinv as [(Hp & Hw & Hq)|(Hp & tasks & Hw & Hall)].
    + by rewrite Hw, lookup_nil in Hlk.
    + rewrite Hw in Hlk. destruct w as [|w]; simpl in Hlk; [|done]. injection Hlk as ->.
      unfold loop. fields. rewrite Hw. simpl.
      destruct (messageQueue st) as [|[m tm] q] eqn:Hq; simpl.
      * by left.
      * right. split; [done|]. eexists. split; [done|].
        eapply Forall_impl; [apply fan_out_msg|]. intros t ->. apply last_snoc_msg.
Qed.

Lemma new_one_drain nodeId : one_drain (new nodeId).
Proof. by left. Qed.

Lemma run_one_drain steps : forall st, one_drain st -> one_drain (run steps st).
Proof.
  induction steps as [|s steps IH]; intros st Hst; simpl; [done|].
  apply IH. by apply step_one_drain.
Qed.

Lemma step_fifo s st before :
  one_drain st -> fifo before st -> fifo (before ++ delivered [s]) (step s st).
Proof.
  unfold fifo. intros Hinv Hfifo.
  destruct s as [tp config|now data|now w i|now w]; simpl; rewrite ?app_nil_r.
  - unfold addRoute. fields. done.
  - unfold on_route_message. fields.
    destruct Hinv as [(Hp & Hw & Hq)|(Hp & tasks & Hw & Hall)]; rewrite Hp; simpl.
    + unfold processQueue, loop. fields. rewrite Hq in *. simpl in *.
      rewrite app_nil_r in *. by rewrite Hfifo.
    + rewrite fmap_app, app_assoc. by rewrite Hfifo.
  - destruct (waiting st !! w) as [tasks|]; [|done].
    destruct (tasks !! i) as [t|]; [|done].
    destruct (handleRoute_settled_frame now t
                (with_waiting (<[w:=base.delete i tasks]> (waiting st)) st))
      as (_ & Hq' & _ & _ & Hs').
    by rewrite Hq', Hs'.
  - destruct (waiting st !! w) as [[|t tasks]|]; try done.
    unfold loop. fields.
    destruct (messageQueue st) as [|[m tm] q]; simpl in *; [done|].
    by rewrite <- app_assoc.
Qed.

Lemma run_fifo steps : forall st before,
  one_drain st -> fifo before st -> fifo (before ++ delivered steps) (run steps st).
Proof.
  induction steps as [|s steps IH]; intros st before Hinv Hfifo.
  - unfold delivered; simpl. by rewrite app_nil_r.
  - change (run (s :: steps) st) with (run steps (step s st)).
    replace (before ++ delivered (s :: steps))
      with ((before ++ delivered [s]) ++ delivered steps).
    + apply IH; [by apply step_one_drain|by apply step_fifo].
    + rewrite <- app_assoc. f_equal. unfold delivered.
      change (s :: steps) with ([s] ++ steps). by rewrite omap_app.
Qed.

End RouterFacts.


Module RouterProgress.
Import JS Router JsMapFacts RouterFacts RouterSpec.

(** A message is shifted only by a call of [processQueue] that waits for
    nothing, and then all the routes that match are called. *)
Lemma step_shifts s st :
  one_drain st ->
  shifted (step s st) = shifted st ∨
  exists now m,
    shifted (step s st) = shifted st ++ [m] ∧
    Forall (fun tasks => tasks = []) (waiting st) ∧
    waiting (step s st) = [fan_out now m (routes st)].
Proof.
  intros Hinv. destruct s as [tp config|now data|now w i|now w]; simpl.
  - left. unfold addRoute. by fields.
  - unfold on_route_message. fields.
    destruct Hinv as [(Hp & Hw & Hq)|(Hp & tasks & Hw & Hall)]; rewrite Hp; simpl.
    + right. exists now, data. unfold processQueue, loop. fields. rewrite Hq, Hw. simpl.
      split; [done|]. split; [apply Forall_nil_2|done].
    + by left.
  - left. destruct (waiting st !! w) as [tasks|]; [|done].
    destruct (tasks !! i) as [t|]; [|done].
    by destruct (handleRoute_settled_frame now t
                   (with_waiting (<[w:=base.delete i tasks]> (waiting st)) st))
      as (_ & _ & _ & _ & ->).
  - destruct (waiting st !! w) as [[|t tasks']|] eqn:Hlk; try by left.
    destruct Hinv as [(Hp & Hw & Hq)|(Hp & tasks & Hw & Hall)].
    + by rewrite Hw, lookup_nil in Hlk.
    + rewrite Hw in Hlk. destruct w as [|w]; simpl in Hlk; [|done]. injection Hlk as ->.
      unfold loop. fields. rewrite Hw. simpl.
      destruct (messageQueue st) as [|[m tm] q] eqn:Hq; simpl; [by left|].
      right. exists now, m. split; [done|]. split; [|done].
      by apply Forall_singleton.
Qed.

(** A handler that fails: when the message of the reason can be read,
    [route:error] is emitted with the topic, the pattern and the message,
    and otherwise nothing is emitted; the calls for the other routes go on
    waiting, and the queue is as it was. *)
Lemma settle_rejected now w i tasks t reason st :
  waiting st !! w = Some tasks -> tasks !! i = Some t ->
  handler (route t) (msg t) = Rejected reason ->
  step (settle now w i) st
  = match error_message reason with
    | Some message =>
        emit (route_error (topic t) (pattern_toString (pattern (route t))) message (msg t))
          (with_waiting (<[w := base.delete i tasks]> (waiting st)) st)
    | None => with_waiting (<[w := base.delete i tasks]> (waiting st)) st
    end.
Proof.
  intros Hw Ht He. simpl. rewrite Hw, Ht. unfold handleRoute_settled. by rewrite He.
Qed.

Lemma settle_first now : forall (units tasks : list Task) st,
  waiting st = [tasks] -> length units = length tasks ->
  let st' := foldl (fun s _ => step (settle now 0 0) s) st units in
  waiting st' = [[]] ∧ messageQueue st' = messageQueue st ∧ shifted st' = shifted st ∧
  processing st' = processing st ∧ routes st' = routes st.
Proof.
  induction units as [|u units IH]; intros tasks st Hw Hlen; simpl in *.
  - destruct tasks; [done|]. done.
  - destruct tasks as [|t tasks]; [done|]. simpl in Hlen.
    rewrite Hw. simpl.
    destruct (handleRoute_settled_frame now t (with_waiting [tasks] st))
      as (Hr & Hq & Hp & Hw' & Hs).
    destruct (IH tasks (handleRoute_settled now t (with_waiting [tasks] st)))
      as (? & ? & ? & ? & ?); [by rewrite Hw'|lia|].
    fields. repeat split; congruence.
Qed.

Lemma settle_all_spec now st tasks :
  waiting st = [tasks] ->
  waiting (settle_all now st) = [[]] ∧
  messageQueue (settle_all now st) = messageQueue st ∧
  shifted (settle_all now st) = shifted st ∧
  processing (settle_all now st) = processing st ∧
  routes (settle_all now st) = routes st.
Proof.
  intros Hw. unfold settle_all. rewrite Hw. by apply (settle_first now tasks tasks).
Qed.

Lemma drain_idle n now st :
  processing st = false -> waiting st = [] -> drain n now st = st.
Proof.
  intros Hp Hw. induction n as [|n IH]; simpl; [done|].
  unfold settle_all. rewrite Hw. simpl. by rewrite Hw, lookup_nil.
Qed.

Lemma round_spec now st tasks :
  processing st = true -> waiting st = [tasks] ->
  let st1 := step (resume now 0) (settle_all now st) in
  match messageQueue st with
  | [] => processing st1 = false ∧ waiting st1 = [] ∧ messageQueue st1 = [] ∧
          shifted st1 = shifted st
  | (m, _) :: q => one_drain st1 ∧ messageQueue st1 = q ∧ shifted st1 = shifted st ++ [m]
  end.
Proof.
  intros Hp Hw st1.
  destruct (settle_all_spec now st tasks Hw) as (Hw1 & Hq1 & Hs1 & Hp1 & Hr1).
  assert (st1 = loop now (with_waiting [] (settle_all now st))) as ->.
  { unfold st1. simpl. by rewrite Hw1. }
  unfold loop. fields. rewrite Hq1, Hs1.
  destruct (messageQueue st) as [|[m tm] q]; simpl; [done|].
  split; [|done]. right. fields. split; [congruence|]. eexists. split; [done|].
  eapply Forall_impl; [apply fan_out_msg|]. intros t ->. apply last_snoc_msg.
Qed.

(** Under a schedule in which every handler settles, the queue runs empty,
    whatever the handlers answer. *)
Lemma drain_empties n now : forall st,
  one_drain st -> length (messageQueue st) < n ->
  let st' := drain n now st in
  processing st' = false ∧ waiting st' = [] ∧ messageQueue st' = [] ∧
  shifted st' = shifted st ++ (messageQueue st).*1.
Proof.
  induction n as [|n IH]; intros st Hinv Hlen; [lia|].
  destruct Hinv as [(Hp & Hw & Hq)|(Hp & tasks & Hw & Hall)].
  - rewrite drain_idle by done. rewrite Hq. simpl. by rewrite app_nil_r.
  - change (drain (S n) now st) with (drain n now (step (resume now 0) (settle_all now st))).
    pose proof (round_spec now st tasks Hp Hw) as Hround. cbv zeta in Hround.
    set (st1 := step (resume now 0) (settle_all now st)) in *. clearbody st1.
    destruct (messageQueue st) as [|[m tm] q] eqn:Hq.
    + destruct Hround as (? & ? & ? & ?). rewrite drain_idle by done.
      simpl. by rewrite app_nil_r.
    + destruct Hround as (Hinv1 & Hq1 & Hs1).
      destruct (IH _ Hinv1) as (? & ? & ? & Hsh); [rewrite Hq1; simpl in Hlen; lia|].
      repeat split; try done. rewrite Hsh, Hq1, Hs1. simpl. by rewrite <- app_assoc.
Qed.

End RouterProgress.

Module RouterClaims.
Import JS Router JsMapFacts RouterFacts RouterProgress RouterSpec.

(** C5.  A route whose handler rejects with no reason: the [catch] block
    of [handleRoute] throws when it reads the message of the error, so the
    failure emits no [route:error]; nothing at all is emitted for it.  The
    handler of the other route is called all the same and the queue goes
    on to the next message. *)
Theorem rejection_without_reason_is_not_reported :
  let st := run [add "a" failing_without_reason; add "b" working;
                 deliver 0 (job 1); deliver 1 (job 2)] (new "r") in
  map (map (fun t => handler (route t) (msg t))) (waiting st)
  = [[Rejected None; Fulfilled (Some (JStr "done"))]] ∧
  emitted (step (settle 2 0 0) st) = emitted st ∧
  emitted (run [settle 2 0 0; settle 3 0 0; resume 4 0; settle 5 0 1; settle 6 0 0;
                resume 7 0] st)
  = [route_added "router:r" "a" "job"; route_added "router:r" "b" "job";
     route_handled "b" "job" 3 true; route_result (job 1) (JStr "done") "router:r" "b";
     route_handled "b" "job" 1 true; route_result (job 2) (JStr "done") "router:r" "b"] ∧
  shifted (run [settle 2 0 0; settle 3 0 0; resume 4 0; settle 5 0 1; settle 6 0 0;
                resume 7 0] st)
  = [job 1; job 2].
Proof. by vm_compute. Qed.

(** X26.  In every state a router reaches:
    - the messages shifted off the queue, followed by those still queued,
      are the messages delivered, in the order of their delivery;
    - at most one call of [processQueue] is under way, and every handler
      that has not settled was called for the message shifted last;
    - a step shifts a message only when no handler is waited for, and then
      [handleRoute] is called for every route that matches the message,
      and for no other;
    - when a handler fails with a reason whose message can be read (any
      reason but [undefined] and [null]), [route:error] is emitted with the
      topic, the pattern and that message; when it fails with [undefined]
      or [null], nothing is emitted; in both cases the calls for the other
      routes and the queue are as they were;
    - if every handler settles, however it settles, the queue runs empty:
      every message delivered is shifted, in order, and the router is idle. *)
Theorem queue_is_drained_in_order (nodeId : string) (steps : list Step) :
  let st := run steps (new nodeId) in
  shifted st ++ (messageQueue st).*1 = delivered steps ∧
  (length (waiting st) <= 1 ∧
   forall tasks t, tasks ∈ waiting st -> t ∈ tasks -> last (shifted st) = Some (msg t)) ∧
  (forall s,
     shifted (step s st) = shifted st ∨
     exists now m,
       shifted (step s st) = shifted st ++ [m] ∧
       Forall (fun tasks => tasks = []) (waiting st) ∧
       waiting (step s st) = [fan_out now m (routes st)] ∧
       forall t, t ∈ fan_out now m (routes st) <->
                 exists tp rts r, (tp, rts) ∈ routes st ∧ r ∈ rts ∧
                                  matchesPattern m (pattern r) = true ∧
                                  t = {| topic := tp; route := r; msg := m; start := now |}) ∧
  (forall now w i tasks t reason,
     waiting st !! w = Some tasks -> tasks !! i = Some t ->
     handler (route t) (msg t) = Rejected reason ->
     step (settle now w i) st
     = match error_message reason with
       | Some message =>
           emit (route_error (topic t) (pattern_toString (pattern (route t))) message (msg t))
             (with_waiting (<[w := base.delete i tasks]> (waiting st)) st)
       | None => with_waiting (<[w := base.delete i tasks]> (waiting st)) st
       end) ∧
  (forall now,
     let st' := drain (S (length (messageQueue st))) now st in
     processing st' = false ∧ waiting st' = [] ∧ messageQueue st' = [] ∧
     shifted st' = delivered steps).
Proof.
  intros st.
  assert (one_drain st) as Hinv by apply run_one_drain, new_one_drain.
  assert (fifo (delivered steps) st) as Hfifo.
  { apply (run_fifo steps (new nodeId) []); [apply new_one_drain|done]. }
  split; [exact Hfifo|]. split; [|split; [|split]].
  - destruct Hinv as [(_ & -> & _)|(_ & tasks & -> & Hall)]; simpl.
    + split; [lia|]. intros ? ? H. by apply elem_of_nil in H.
    + split; [lia|]. intros tasks' t Htasks Ht. apply list_elem_of_singleton in Htasks as ->.
      by apply (proj1 (Forall_forall _ _) Hall).
  - intros s. destruct (step_shifts s st Hinv) as [?|(now & m & ? & ? & ?)]; [by left|].
    right. exists now, m. repeat split; try done; by apply fan_out_complete.
  - intros now w i tasks t reason. apply settle_rejected.
  - intros now. destruct (drain_empties (S (length (messageQueue st))) now st Hinv)
      as (? & ? & ? & Hsh); [lia|].
    repeat split; try done. by rewrite Hsh.
Qed.

Lemma queue_is_drained_in_order_witness :
  emitted (step (settle 1 0 0)
             (run [add "a" failing; add "b" working; deliver 0 (job 1)] (new "r")))
  = emitted (run [add "a" failing; add "b" working; deliver 0 (job 1)] (new "r"))
    ++ [route_error "a" "job" (Some (JStr "boom")) (job 1)] ∧
  map (map topic)
    (waiting (step (settle 1 0 0)
                (run [add "a" failing; add "b" working; deliver 0 (job 1)] (new "r"))))
  = [["b"]].
Proof.
  destruct (queue_is_drained_in_order "r" [add "a" failing; add "b" working; deliver 0 (job 1)])
    as (_ & _ & _ & Hfail & _).
  erewrite (Hfail 1%Z 0 0 _ _ (Some (error_of "boom"))); [|reflexivity..].
  split; reflexivity.
Defined.

(** Two routes match a message; the first fails and the second succeeds.
    Both are called, the failure is reported, and the message behind is
    handled next. *)
Example a_failing_handler_stops_nothing :
  let st := run [add "a" failing; add "b" working; deliver 0 (job 1); deliver 1 (job 2);
                 settle 2 0 0; settle 3 0 0; resume 4 0; settle 5 0 1; settle 6 0 0;
                 resume 7 0] (new "r") in
  emitted st
  = [route_added "router:r" "a" "job"; route_added "router:r" "b" "job";
     route_error "a" "job" (Some (JStr "boom")) (job 1);
     route_handled "b" "job" 3 true; route_result (job 1) (JStr "done") "router:r" "b";
     route_handled "b" "job" 1 true; route_result (job 2) (JStr "done") "router:r" "b";
     route_error "a" "job" (Some (JStr "boom")) (job 2)] ∧
  shifted st = [job 1; job 2] ∧ processing st = false.
Proof. by vm_compute. Qed.

End RouterClaims.


(** ** The router: request and reply *)

Module RequestReplyFacts.
Import JS RequestReply JsMapFacts ListFacts RequestReplySpec.

#[local] Arguments reply_topic : simpl never.

Lemma reply_topic_inj r r' : reply_topic r = reply_topic r' -> r = r'.
Proof. unfold reply_topic. apply String.app_inj. Qed.

Lemma reply_topic_eqb r r' : String.eqb (reply_topic r) (reply_topic r') = String.eqb r r'.
Proof.
  destruct (String.eqb_spec r r') as [->|Hne].
  - apply String.eqb_refl.
  - apply String.eqb_neq. intros Heq. by apply reply_topic_inj in Heq.
Qed.

Lemma reply_topic_not_request r : String.eqb (reply_topic r) "route:request" = false.
Proof. reflexivity. Qed.

Lemma request_not_reply_topic r : String.eqb "route:request" (reply_topic r) = false.
Proof. reflexivity. Qed.

Lemma settled_settle r r' s st :
  settled r (settle r' s st) = settled r st ++ (if String.eqb r' r then [s] else []).
Proof. unfold settled, settle; simpl. rewrite omap_app. simpl. by destruct (String.eqb r' r). Qed.

(** *** The listeners of one topic *)

Lemma called_on_request ls :
  Forall placed ls ->
  filter (fun tl : string * Listener => String.eqb tl.1 "route:request") ls
  = filter (fun tl : string * Listener => negb (is_waiter tl.2)) ls ∧
  filter (fun tl : string * Listener => negb (String.eqb tl.1 "route:request" && is_waiter tl.2)) ls
  = ls.
Proof.
  induction 1 as [|[tp l] ls Hp _ [IH1 IH2]]; [done|].
  rewrite !filter_cons_bool. simpl. unfold placed in Hp; simpl in Hp.
  destruct l as [t h|r]; subst tp; simpl.
  - by rewrite IH1, IH2.
  - rewrite ?reply_topic_not_request. simpl. by rewrite IH1, IH2.
Qed.

Lemma called_on_reply r ls :
  Forall placed ls -> NoDup (waiters ls) ->
  filter (fun tl : string * Listener => String.eqb tl.1 (reply_topic r)) ls
  = (if decide (r ∈ waiters ls) then [(reply_topic r, waiter r)] else []) ∧
  waiters (filter (fun tl : string * Listener =>
                     negb (String.eqb tl.1 (reply_topic r) && is_waiter tl.2)) ls)
  = filter (fun r' => r' ≠ r) (waiters ls) ∧
  waiters (filter (fun tl : string * Listener =>
                     negb (String.eqb tl.1 (reply_topic r) && same_listener tl.2 (waiter r))) ls)
  = filter (fun r' => r' ≠ r) (waiters ls) ∧
  Forall placed (filter (fun tl : string * Listener =>
                     negb (String.eqb tl.1 (reply_topic r) && is_waiter tl.2)) ls) ∧
  Forall placed (filter (fun tl : string * Listener =>
                     negb (String.eqb tl.1 (reply_topic r) && same_listener tl.2 (waiter r))) ls).
Proof.
  induction 1 as [|[tp l] ls Hp Hall IH]; intros Hnd; [done|].
  rewrite !filter_cons_bool. unfold placed in Hp. cbn [fst snd] in *.
  destruct l as [t h|r']; subst tp; cbn [is_waiter same_listener].
  - specialize (IH Hnd) as (IH1 & IH2 & IH3 & IH4 & IH5).
    rewrite request_not_reply_topic. cbn [negb andb].
    unfold waiters in *. cbn [omap list_omap waiter_of snd]. rewrite IH1, IH2, IH3.
    repeat split; try done; by apply Forall_cons.
  - unfold waiters in Hnd. cbn [omap list_omap waiter_of snd] in Hnd.
    apply NoDup_cons in Hnd as [Hnotin Hnd].
    specialize (IH Hnd) as (IH1 & IH2 & IH3 & IH4 & IH5).
    rewrite reply_topic_eqb. unfold waiters in *.
    destruct (String.eqb_spec r' r) as [->|Hne]; cbn [negb andb omap list_omap waiter_of snd].
    + rewrite filter_cons. rewrite decide_True by (by left). rewrite decide_False by (by intros ?).
      rewrite IH1, IH2, IH3. rewrite decide_False by done. done.
    + rewrite filter_cons. rewrite (decide_True (P := r' ≠ r)) by done.
      rewrite IH1, IH2, IH3.
      repeat split; try done; try by apply Forall_cons.
      destruct (decide (r ∈ omap waiter_of ls)) as [Hin|Hout].
      * rewrite decide_True; [done|by right].
      * rewrite decide_False; [done|]. intros [->|?]%elem_of_cons; done.
Qed.

Lemma responders_called d ls : forall st,
  Forall (fun tl : string * Listener => is_waiter tl.2 = false) ls ->
  foldl (fun s tl => call tl.2 d s) st ls = with_calls (calls st ++ started d ls) st.
Proof.
  induction ls as [|[tp l] ls IH]; intros st Hall; simpl.
  - unfold started; simpl. rewrite app_nil_r. by destruct st.
  - apply Forall_cons in Hall as [Hl Hall]. simpl in Hl.
    destruct l as [t h|r]; [|done]. rewrite IH by done. unfold started; simpl.
    destruct d as [t' payload requestId from replyTo| |]; simpl; try done.
    destruct (String.eqb t' t); simpl; [|done].
    unfold with_calls; simpl. by rewrite <- app_assoc.
Qed.

Lemma started_responders d ls :
  started d (filter (fun tl : string * Listener => negb (is_waiter tl.2)) ls) = started d ls.
Proof.
  induction ls as [|[tp l] ls IH]; [done|].
  rewrite filter_cons_bool. cbn [snd]. destruct l as [t h|r]; cbn [is_waiter negb].
  - unfold started in *. cbn [omap list_omap snd]. by rewrite IH.
  - unfold started in *. cbn [omap list_omap snd]. by rewrite IH.
Qed.

Lemma node_emit_request d st :
  Forall placed (listeners st) ->
  node_emit "route:request" d st = with_calls (calls st ++ started d (listeners st)) st.
Proof.
  intros Hpl. unfold node_emit.
  destruct (called_on_request (listeners st) Hpl) as [-> ->].
  rewrite responders_called.
  - rewrite started_responders. by destruct st.
  - apply Forall_forall. intros tl [Htl _]%list_elem_of_filter.
    by destruct (is_waiter tl.2).
Qed.

Lemma no_waiter_to_remove r ls :
  Forall placed ls -> r ∉ waiters ls ->
  filter (fun tl : string * Listener =>
            negb (String.eqb tl.1 (reply_topic r) && is_waiter tl.2)) ls = ls.
Proof.
  induction 1 as [|[tp l] ls Hp Hall IH]; intros Hout; [done|].
  rewrite filter_cons_bool. unfold placed in Hp. cbn [fst snd] in *.
  destruct l as [t h|r']; subst tp; cbn [is_waiter].
  - rewrite request_not_reply_topic. cbn [negb andb]. f_equal. by apply IH.
  - unfold waiters in Hout. cbn [omap list_omap waiter_of snd] in Hout.
    apply not_elem_of_cons in Hout as [Hne Hout].
    rewrite reply_topic_eqb, (proj2 (String.eqb_neq r' r)) by done.
    cbn [negb andb]. f_equal. by apply IH.
Qed.

Lemma node_emit_reply r d st :
  Forall placed (listeners st) -> NoDup (waiters (listeners st)) ->
  ((r ∈ waiters (listeners st)) ∧
   retired r (Router.Fulfilled (data_result d)) st (node_emit (reply_topic r) d st)) ∨
  ((r ∉ waiters (listeners st)) ∧ node_emit (reply_topic r) d st = st).
Proof.
  intros Hpl Hnd. unfold node_emit.
  destruct (called_on_reply r (listeners st) Hpl Hnd) as (-> & Hw & _ & Hpl' & _).
  destruct (decide (r ∈ waiters (listeners st))) as [Hin|Hout]; simpl.
  - left. split; [done|]. unfold retired. fields. done.
  - right. split; [done|]. rewrite no_waiter_to_remove by done. by destruct st.
Qed.

End RequestReplyFacts.


Module RequestReplyInvariant.
Import JS RequestReply JsMapFacts RequestReplyFacts RequestReplySpec.

#[local] Arguments reply_topic : simpl never.

Lemma new_node_ok nodeId : node_ok [] (new nodeId).
Proof.
  split; simpl; try done; try apply NoDup_nil_2.
  all: try (intros r Hr; by apply elem_of_nil in Hr).
  all: try (intros r; unfold settled; simpl; lia).
Qed.

Lemma node_ok_more used used' st :
  node_ok used st -> (forall r, r ∈ used <-> r ∈ used') -> node_ok used' st.
Proof.
  intros [] Hsame. split; try done.
  - intros r Hr. rewrite <- Hsame. auto.
  - intros r Hr. apply ok_live0. by apply Hsame.
  - intros r Hr. apply ok_unused0. by rewrite Hsame.
  - eapply Forall_impl; [done|]. intros c [? ?]. split; [done|]. by apply Hsame.
Qed.

Lemma retired_ok used r s st st' :
  node_ok used st -> r ∈ waiters (listeners st) -> retired r s st st' ->
  node_ok used st' ∧ settled r st' = [s] ∧ forall r', r' ≠ r -> settled r' st' = settled r' st.
Proof.
  intros Hok Hin (Hw & Hpl & Ht & Hs & Hc).
  assert (forall r', settled r' st' = settled r' st ++ (if String.eqb r r' then [s] else []))
    as Hsettled.
  { intros r'. unfold settled. rewrite Hs, omap_app. simpl. by destruct (String.eqb r r'). }
  destruct (ok_pending used st Hok r Hin) as [Hused Hnone].
  split; [split|split].
  - done.
  - rewrite Hw. apply NoDup_filter, Hok.
  - rewrite Ht. apply NoDup_delete, Hok.
  - intros r'. rewrite Hw, Ht, list_elem_of_filter, keys_delete, (ok_same used st Hok). done.
  - intros r'. rewrite Hw, list_elem_of_filter. intros [Hne Hr'].
    destruct (ok_pending used st Hok r' Hr') as [? Hn]. split; [done|].
    rewrite Hsettled, Hn. by rewrite (proj2 (String.eqb_neq r r')).
  - intros r' Hr'. rewrite Hsettled, Hw, list_elem_of_filter.
    destruct (String.eqb_spec r r') as [->|Hne].
    + rewrite Hnone. simpl. intros Hx. discriminate.
    + rewrite app_nil_r. intros Hn. split; [by intros ->|]. by apply (ok_live used st Hok).
  - intros r'. rewrite Hsettled. destruct (String.eqb_spec r r') as [<-|Hne].
    + rewrite Hnone. simpl. lia.
    + rewrite app_nil_r. apply Hok.
  - intros r' Hr'. rewrite Hsettled. destruct (String.eqb_spec r r') as [<-|Hne]; [done|].
    rewrite app_nil_r. by apply (ok_unused used st Hok).
  - rewrite Hc. apply Hok.
  - by rewrite Hsettled, Hnone, String.eqb_refl.
  - intros r' Hne. rewrite Hsettled. rewrite (proj2 (String.eqb_neq r r')) by done.
    by rewrite app_nil_r.
Qed.

Lemma timer_fires_retired used r st :
  node_ok used st -> r ∈ JsMap.keys (timers st) ->
  retired r (Router.Rejected (Some (error_of "Request timeout"))) st (timer_fires r st).
Proof.
  intros Hok Hin. unfold timer_fires.
  assert (JsMap.has r (timers st) = true) as ->.
  { apply has_true. destruct (JsMap.get r (timers st)) eqn:Hget; [done|].
    by apply get_None in Hget. }
  destruct (called_on_reply r (listeners st) (ok_placed used st Hok) (ok_waiters used st Hok))
    as (_ & _ & Hw & _ & Hpl).
  unfold retired. fields. done.
Qed.

Lemma in_started d ls c :
  c ∈ started d ls <->
  exists tp t h t' payload r from replyTo,
    (tp, responder t h) ∈ ls ∧ d = envelope t' payload r from replyTo ∧
    String.eqb t' t = true ∧ c = (replyTo, r, h payload).
Proof.
  unfold started. rewrite list_elem_of_omap. split.
  - intros ([tp l] & Hin & Hc). simpl in Hc.
    destruct l as [t h|]; [|done].
    destruct d as [t' payload r from replyTo| |]; try done.
    destruct (String.eqb t' t) eqn:Ht; [|done]. injection Hc as <-.
    by exists tp, t, h, t', payload, r, from, replyTo.
  - intros (tp & t & h & t' & payload & r & from & replyTo & Hin & -> & Ht & ->).
    exists (tp, responder t h). split; [done|]. simpl. by rewrite Ht.
Qed.

Lemma step_ok used s st :
  node_ok used st -> (forall r, r ∈ requested [s] -> r ∉ used) ->
  node_ok (requested [s] ++ used) (step s st).
Proof.
  intros Hok Hfresh.
  destruct s as [topic handler|topic payload timeout r|i|r]; simpl.
  - (* onRequest *)
    destruct Hok. unfold onRequest. split; fields; try done.
    + apply Forall_app. split; [done|]. by apply Forall_singleton.
    + unfold waiters in *. rewrite omap_app. simpl. by rewrite app_nil_r.
    + intros r. unfold waiters in *. rewrite omap_app. simpl. rewrite app_nil_r. apply ok_same0.
    + intros r. unfold waiters in *. rewrite omap_app. simpl. rewrite app_nil_r. apply ok_pending0.
    + intros r. unfold waiters in *. rewrite omap_app. simpl. rewrite app_nil_r. apply ok_live0.
  - (* request *)
    assert (r ∉ used) as Hr by (apply Hfresh; unfold requested; simpl; by left).
    assert (r ∉ waiters (listeners st)) as Hnw.
    { intros Hin. by destruct (ok_pending used st Hok r Hin). }
    assert (JsMap.get r (timers st) = None) as Hnt.
    { apply get_None. by rewrite <- (ok_same used st Hok). }
    unfold request. rewrite node_emit_request.
    2:{ fields. apply Forall_app. split; [apply Hok|]. by apply Forall_singleton. }
    unfold requested; simpl. destruct Hok.
    assert (waiters (listeners st ++ [(reply_topic r, waiter r)]) = waiters (listeners st) ++ [r])
      as Hw by (unfold waiters; by rewrite omap_app).
    assert (JsMap.keys (timers st ++ [(r, timeout)]) = JsMap.keys (timers st) ++ [r])
      as Ht by (unfold JsMap.keys; by rewrite fmap_app).
    split; fields; rewrite ?Hw, ?Ht.
    + apply Forall_app. split; [done|]. by apply Forall_singleton.
    + apply NoDup_app. split; [done|]. split; [|apply NoDup_singleton].
      intros r' Hr' Heq. apply list_elem_of_singleton in Heq as ->. done.
    + apply NoDup_app. split; [done|]. split; [|apply NoDup_singleton].
      intros r' Hr' Heq. apply list_elem_of_singleton in Heq as ->. apply Hnw. by apply ok_same0.
    + intros r'. rewrite !elem_of_app, ok_same0. done.
    + intros r' Hr'. apply elem_of_app in Hr' as [Hr'|Hr'].
      * destruct (ok_pending0 r' Hr'). split; [by right|done].
      * apply list_elem_of_singleton in Hr' as ->. split; [by left|]. by apply ok_unused0.
    + intros r' Hr' Hn. apply elem_of_app. apply elem_of_cons in Hr' as [->|Hr'].
      * right. by apply list_elem_of_singleton.
      * left. by apply ok_live0.
    + done.
    + intros r'. rewrite elem_of_cons. intros Hr'. apply ok_unused0. tauto.
    + apply Forall_app. split.
      * eapply Forall_impl; [done|]. intros c [? ?]. split; [done|by right].
      * apply Forall_forall. intros c Hc. apply in_started in Hc
          as (tp & t & h & t' & payload' & r' & from & replyTo & _ & Henv & _ & ->).
        injection Henv as _ _ <- _ <-. simpl. split; [done|by left].
  - (* a handler settles *)
    unfold requested; simpl. unfold handler_settles.
    destruct (calls st !! i) as [[[replyTo r] outcome]|] eqn:Hcall; [|done].
    assert (replyTo = reply_topic r ∧ r ∈ used) as [-> Hused].
    { apply (proj1 (Forall_forall _ _) (ok_calls used st Hok) (replyTo, r, outcome)).
      by apply list_elem_of_lookup_2 in Hcall. }
    set (st1 := with_calls (base.delete i (calls st)) st).
    assert (node_ok used st1) as Hok1.
    { destruct Hok. split; try done. simpl.
      apply Forall_forall. intros c Hc. apply list_elem_of_delete_inv in Hc.
      by apply (proj1 (Forall_forall _ _) ok_calls0). }
    assert (forall d, node_ok used (node_emit (reply_topic r) d st1)) as Hemit.
    { intros d.
      destruct (node_emit_reply r d st1 (ok_placed used st1 Hok1) (ok_waiters used st1 Hok1))
        as [[Hin Hret]|[_ ->]]; [|done].
      by destruct (retired_ok used r _ st1 _ Hok1 Hin Hret). }
    destruct outcome as [v|reason]; [apply Hemit|].
    destruct (Router.error_message reason); [apply Hemit|exact Hok1].
  - (* a timer fires *)
    unfold requested; simpl.
    destruct (decide (r ∈ JsMap.keys (timers st))) as [Hin|Hout].
    + pose proof (timer_fires_retired used r st Hok Hin) as Hret.
      apply (ok_same used st Hok) in Hin.
      by destruct (retired_ok used r _ st _ Hok Hin Hret).
    + unfold timer_fires. apply get_None, has_false in Hout. by rewrite Hout.
Qed.

(** A reply, and a timer, settle the promise of their own request only. *)
Lemma node_emit_reply_other used r r' d st :
  node_ok used st -> r ≠ r' -> settled r (node_emit (reply_topic r') d st) = settled r st.
Proof.
  intros Hok Hne.
  destruct (node_emit_reply r' d st (ok_placed used st Hok) (ok_waiters used st Hok))
    as [[Hin Hret]|[_ ->]]; [|done].
  destruct (retired_ok used r' _ st _ Hok Hin Hret) as (_ & _ & Hother). by apply Hother.
Qed.

Lemma timer_fires_other_request used r r' st :
  node_ok used st -> r ≠ r' -> settled r (timer_fires r' st) = settled r st.
Proof.
  intros Hok Hne. destruct (decide (r' ∈ JsMap.keys (timers st))) as [Hin|Hout].
  - pose proof (timer_fires_retired used r' st Hok Hin) as Hret.
    apply (ok_same used st Hok) in Hin.
    destruct (retired_ok used r' _ st _ Hok Hin Hret) as (_ & _ & Hother). by apply Hother.
  - unfold timer_fires. apply get_None, has_false in Hout. by rewrite Hout.
Qed.

Lemma requested_cons s steps : requested (s :: steps) = requested [s] ++ requested steps.
Proof. unfold requested. change (s :: steps) with ([s] ++ steps). by rewrite omap_app. Qed.

Lemma run_ok steps : forall used st,
  node_ok used st -> NoDup (requested steps) ->
  (forall r, r ∈ requested steps -> r ∉ used) ->
  node_ok (requested steps ++ used) (run steps st).
Proof.
  induction steps as [|s steps IH]; intros used st Hok Hnd Hfresh; [done|].
  rewrite requested_cons in *. apply NoDup_app in Hnd as (Hnd1 & Hdisj & Hnd2).
  change (run (s :: steps) st) with (run steps (step s st)).
  eapply node_ok_more.
  - apply (IH (requested [s] ++ used)); [|done|].
    + apply step_ok; [done|]. intros r Hr. apply Hfresh. apply elem_of_app. by left.
    + intros r Hr Hin. apply elem_of_app in Hin as [Hs|Hu].
      * by apply (Hdisj r).
      * apply (Hfresh r); [|done]. apply elem_of_app. by right.
  - intros r. rewrite !elem_of_app. tauto.
Qed.

End RequestReplyInvariant.


Module RequestReplyClaims.
Import JS RequestReply JsMapFacts RequestReplyFacts RequestReplyInvariant RequestReplySpec.

#[local] Arguments reply_topic : simpl never.

(** C2.  On a node whose requests drew distinct UUIDs, whatever the order
    in which handlers settle and timers fire:
    - the promise of a request is never settled twice;
    - a request whose topic an [onRequest] handler is registered for starts
      a call of that handler on the payload, which will answer on the
      request's own reply topic, and its promise is pending;
    - when a call for a request whose promise is pending settles with the
      value [v], the promise is resolved with [v], once;
    - a request whose promise is pending has its timer set: if the timer
      fires first, the promise is rejected with the timeout error, once;
    - the answer of a call, and a timer, touch the promise of their own
      request only: the promise of any other request is as it was;
    - registering a handler and making a request settle no promise. *)
Theorem request_settles_once_with_the_handlers_value (nodeId : string) (steps : list Step) :
  NoDup (requested steps) ->
  let st := run steps (new nodeId) in
  (forall r, length (settled r st) <= 1) ∧
  (forall topic handler payload timeout r,
     r ∉ requested steps ->
     ("route:request", responder topic handler) ∈ listeners st ->
     let st1 := request topic payload timeout r st in
     ("route:response:" +:+ r, r, handler payload) ∈ calls st1 ∧ settled r st1 = []) ∧
  (forall i replyTo r v,
     calls st !! i = Some (replyTo, r, Router.Fulfilled v) ->
     settled r st = [] ->
     settled r (handler_settles i st) = [Router.Fulfilled v]) ∧
  (forall r,
     r ∈ requested steps -> settled r st = [] ->
     settled r (timer_fires r st)
     = [Router.Rejected (Some (JObj [("message", JStr "Request timeout")]))]) ∧
  (forall i replyTo r' outcome r,
     calls st !! i = Some (replyTo, r', outcome) -> r ≠ r' ->
     settled r (handler_settles i st) = settled r st) ∧
  (forall r r', r ≠ r' -> settled r (timer_fires r' st) = settled r st) ∧
  (forall r topic handler payload timeout r',
     settled r (onRequest topic handler st) = settled r st ∧
     settled r (request topic payload timeout r' st) = settled r st).
Proof.
  intros Hnd st.
  assert (node_ok (requested steps) st) as Hok.
  { eapply node_ok_more.
    - apply (run_ok steps [] (new nodeId)); [apply new_node_ok|done|].
      intros r _ Hr. by apply elem_of_nil in Hr.
    - intros r. by rewrite app_nil_r. }
  assert (forall i, node_ok (requested steps) (with_calls (base.delete i (calls st)) st))
    as Hok1.
  { intros i. destruct Hok. split; try done. simpl.
    apply Forall_forall. intros c Hc. apply list_elem_of_delete_inv in Hc.
    by apply (proj1 (Forall_forall _ _) ok_calls0). }
  split; [apply Hok|]. split; [|split; [|split; [|split; [|split]]]].
  - intros topic handler payload timeout r Hfresh Hreg st1.
    change ("route:response:" +:+ r) with (reply_topic r).
    unfold st1, request. rewrite node_emit_request.
    2:{ simpl. apply Forall_app. split; [apply Hok|]. by apply Forall_singleton. }
    split.
    + simpl. apply elem_of_app. right. apply in_started.
      exists "route:request", topic, handler, topic, payload, r, (RequestReply.nodeId st), (reply_topic r).
      split; [apply elem_of_app; by left|]. split; [done|]. split; [apply String.eqb_refl|done].
    + apply (ok_unused _ st Hok r Hfresh).
  - intros i replyTo r v Hcall Hpending.
    assert (replyTo = reply_topic r ∧ r ∈ requested steps) as [-> Hused].
    { apply (proj1 (Forall_forall _ _) (ok_calls _ st Hok) (replyTo, r, Router.Fulfilled v)).
      by apply list_elem_of_lookup_2 in Hcall. }
    pose proof (ok_live _ st Hok r Hused Hpending) as Hin.
    unfold handler_settles. rewrite Hcall.
    set (st1 := with_calls (base.delete i (calls st)) st).
    destruct (node_emit_reply r (reply_result v r) st1
                (ok_placed _ st1 (Hok1 i)) (ok_waiters _ st1 (Hok1 i))) as [[_ Hret]|[Hout _]];
      [|done].
    by destruct (retired_ok _ r _ st1 _ (Hok1 i) Hin Hret) as (_ & -> & _).
  - intros r Hused Hpending.
    pose proof (ok_live _ st Hok r Hused Hpending) as Hin.
    assert (r ∈ JsMap.keys (timers st)) as Htimer by (by apply (ok_same _ st Hok)).
    pose proof (timer_fires_retired _ r st Hok Htimer) as Hret.
    by destruct (retired_ok _ r _ st _ Hok Hin Hret) as (_ & -> & _).
  - intros i replyTo r' outcome r Hcall Hne.
    assert (replyTo = reply_topic r') as ->.
    { apply (proj1 (Forall_forall _ _) (ok_calls _ st Hok) (replyTo, r', outcome)).
      by apply list_elem_of_lookup_2 in Hcall. }
    unfold handler_settles. rewrite Hcall.
    destruct outcome as [v|reason]; [|destruct (Router.error_message reason); [|done]].
    all: by rewrite (node_emit_reply_other (requested steps)).
  - intros r r' Hne. by apply (timer_fires_other_request (requested steps)).
  - intros r topic handler payload timeout r'. split; [done|].
    unfold request. rewrite node_emit_request; [done|].
    simpl. apply Forall_app. split; [apply Hok|]. by apply Forall_singleton.
Qed.

(** Two requests wait for the same handler.  The answer to the second
    reaches the second only; the answer to the first then resolves the
    first. *)
Lemma request_settles_once_with_the_handlers_value_witness :
  let st := run [do_onRequest "double" double;
                 do_request "double" (Some (JNum 21 0)) 5000 "id-1";
                 do_request "double" (Some (JNum 5 0)) 5000 "id-2"] (new "n") in
  settled "id-2" (handler_settles 1 st) = [Router.Fulfilled (Some (JNum 10 0))] ∧
  settled "id-1" (handler_settles 1 st) = [] ∧
  settled "id-1" (handler_settles 0 st) = [Router.Fulfilled (Some (JNum 42 0))] ∧
  settled "id-2" (timer_fires "id-1" st) = [].
Proof.
  intros st.
  assert (NoDup (requested [do_onRequest "double" double;
                            do_request "double" (Some (JNum 21 0)) 5000 "id-1";
                            do_request "double" (Some (JNum 5 0)) 5000 "id-2"])) as Hnd.
  { apply (NoDup_cons_2 "id-1"); [|apply NoDup_singleton].
    intros Hin%list_elem_of_singleton. discriminate. }
  destruct (request_settles_once_with_the_handlers_value "n" _ Hnd)
    as (_ & _ & Hown & _ & Hother & Htimer & _).
  split; [|split; [|split]].
  - by apply (Hown 1 (reply_topic "id-2")).
  - rewrite (Hother 1 (reply_topic "id-2") "id-2" (Router.Fulfilled (Some (JNum 10 0))));
      [done|done|discriminate].
  - by apply (Hown 0 (reply_topic "id-1")).
  - rewrite Htimer; [done|discriminate].
Defined.

(** A slow handler: the timer fires first and the promise is rejected; the
    answer that comes later finds no listener and settles nothing. *)
Example late_answer_settles_nothing :
  settled "id-1"
    (run [do_onRequest "double" double;
          do_request "double" (Some (JNum 21 0)) 5000 "id-1";
          do_timer_fires "id-1"; do_handler_settles 0] (new "n"))
  = [Router.Rejected (Some (error_of "Request timeout"))].
Proof. by vm_compute. Qed.

End RequestReplyClaims.


(** ** Sorting *)

Module SortFacts.
Import SortSpec.

Lemma StronglySorted_weaken {A} (R R' : A -> A -> Prop) l :
  (forall a b, R a b -> R' a b) -> StronglySorted R l -> StronglySorted R' l.
Proof.
  intros Himpl. induction 1 as [|x l Hsorted IH Hall]; constructor; [done|].
  eapply Forall_impl; [exact Hall|]. intros y. apply Himpl.
Qed.

Section sorting.
Context {A : Type} (cmp : A -> A -> Z).

Lemma sort_insert_perm x l : sort_insert cmp x l ≡ₚ x :: l.
Proof.
  induction l as [|y l IH]; simpl; [done|].
  destruct (cmp x y <=? 0)%Z; [done|]. rewrite IH. apply Permutation_swap.
Qed.

Lemma js_sort_perm l : js_sort cmp l ≡ₚ l.
Proof.
  induction l as [|x l IH]; simpl; [done|].
  fold (js_sort cmp l). by rewrite sort_insert_perm, IH.
Qed.

Hypothesis cmp_total : forall a b, in_order cmp a b ∨ in_order cmp b a.
Hypothesis cmp_trans : forall a b c, in_order cmp a b -> in_order cmp b c -> in_order cmp a c.

Lemma sort_insert_sorted x l :
  StronglySorted (in_order cmp) l -> StronglySorted (in_order cmp) (sort_insert cmp x l).
Proof.
  induction 1 as [|y l Hsorted IH Hall]; simpl.
  - repeat constructor.
  - destruct (Z.leb_spec (cmp x y) 0) as [Hle|Hgt].
    + constructor; [by constructor|]. constructor; [done|].
      eapply Forall_impl; [exact Hall|]. intros z Hz. by apply (cmp_trans x y z).
    + constructor; [done|].
      rewrite sort_insert_perm. constructor; [|done].
      destruct (cmp_total x y) as [Hxy|Hyx]; [unfold in_order in Hxy; lia|done].
Qed.

Lemma js_sort_sorted l : StronglySorted (in_order cmp) (js_sort cmp l).
Proof.
  induction l as [|x l IH]; simpl; [constructor|].
  by apply sort_insert_sorted.
Qed.

End sorting.
End SortFacts.

Module PendingOrder.
Import JS Coordinator SortFacts SortSpec CoordinatorSpec.

Lemma weight_inj p q : priorityWeight p = priorityWeight q -> p = q.
Proof. by destruct p, q. Qed.

Lemma compare_requests_order a b : in_order compare_requests a b <-> comes_before a b.
Proof.
  unfold in_order, compare_requests, comes_before.
  destruct (Z.eqb_spec (priorityWeight (priority a)) (priorityWeight (priority b)))
    as [Heq|Hne]; simpl.
  - split.
    + intros Hle. right. split; [by apply weight_inj|lia].
    + intros [Hlt|[_ Hle]]; lia.
  - split.
    + intros Hle. left. lia.
    + intros [Hlt|[Heq _]]; [lia|]. by rewrite Heq in Hne.
Qed.

(** C9.  [getPendingRequests] returns the requests of the pending table,
    each as often as the table holds it, arranged so that every request
    comes before all those behind it: higher priority first ([high], then
    [medium], then [low]), and the earlier timestamp first among requests
    of one priority.  Three requests entered as low at 1, high at 2 and
    medium at 3 come out as high, medium, low. *)
Theorem getPendingRequests_by_priority_then_time (st : Coordinator) :
  getPendingRequests st ≡ₚ JsMap.values (pendingRequests st) ∧
  StronglySorted comes_before (getPendingRequests st) ∧
  forall (c1 c2 c3 : Decision) (f1 f2 f3 i1 i2 i3 : string) (ty1 ty2 ty3 : RequestType)
         (o1 o2 o3 : option Z),
    let r_low := {| id := i1; type := ty1; priority := low; from := f1; context := c1;
                    timestamp := 1; timeout := o1 |} in
    let r_high := {| id := i2; type := ty2; priority := high; from := f2; context := c2;
                     timestamp := 2; timeout := o2 |} in
    let r_medium := {| id := i3; type := ty3; priority := medium; from := f3; context := c3;
                       timestamp := 3; timeout := o3 |} in
    getPendingRequests (with_pendingRequests [(i1, r_low); (i2, r_high); (i3, r_medium)] st)
    = [r_high; r_medium; r_low].
Proof.
  split; [apply js_sort_perm|]. split; [|done].
  unfold getPendingRequests.
  eapply StronglySorted_weaken; [|apply js_sort_sorted].
  - intros a b. apply compare_requests_order.
  - intros a b. unfold in_order, compare_requests.
    destruct (Z.eqb_spec (priorityWeight (priority a)) (priorityWeight (priority b)))
      as [Heq|Hne]; simpl.
    + rewrite Heq, Z.eqb_refl. simpl. lia.
    + rewrite (proj2 (Z.eqb_neq _ _)) by lia. simpl. lia.
  - intros a b c. rewrite !compare_requests_order. unfold comes_before.
    intros [Hab|[Hab Hab']] [Hbc|[Hbc Hbc']].
    + left. lia.
    + left. by rewrite <- Hbc.
    + left. by rewrite Hab.
    + right. split; [congruence|lia].
Qed.

End PendingOrder.


(** ** The coordinator: what happens to one request *)

Module CoordinatorFacts.
Import JS Coordinator JsMapFacts ListFacts SortFacts SortSpec CoordinatorSpec.

#[local] Arguments response_name : simpl never.

Lemma response_name_inj r r' : response_name r = response_name r' -> r = r'.
Proof. unfold response_name. apply String.app_inj. Qed.

Lemma response_name_eqb r r' : String.eqb (response_name r) (response_name r') = String.eqb r r'.
Proof.
  destruct (String.eqb_spec r r') as [->|Hne].
  - apply String.eqb_refl.
  - apply String.eqb_neq. intros Heq. by apply response_name_inj in Heq.
Qed.

Lemma timers_of_delete u r l :
  timers_of u (JsMap.delete r l) = if decide (r = u) then [] else timers_of u l.
Proof.
  unfold timers_of. induction l as [|[k v] l IH]; simpl; [by destruct (decide (r = u))|].
  destruct (decide (k = r)) as [->|Hk].
  - rewrite IH. destruct (decide (r = u)) as [->|Hr]; [done|].
    by rewrite filter_cons_False.
  - rewrite !filter_cons. simpl. rewrite IH.
    destruct (decide (r = u)) as [->|Hr]; [|done]. by rewrite decide_False.
Qed.

Lemma resolutions_resolve u r v st :
  resolutions u (resolve r v st) = resolutions u st ++ (if String.eqb r u then [v] else []).
Proof. unfold resolutions, resolve; simpl. rewrite omap_app. simpl. by destruct (String.eqb r u). Qed.

(** *** One listener, one timer *)

Lemma call_other u w response st :
  waiter_id w ≠ u ->
  about u (call w response st) = about u st ∧ listeners (call w response st) = listeners st.
Proof.
  intros Hne. unfold about. destruct w as [r|r]; simpl in Hne; unfold call.
  - rewrite resolutions_resolve. fields.
    rewrite get_delete_ne, timers_of_delete, decide_False by done.
    rewrite (proj2 (String.eqb_neq r u)) by done. by rewrite app_nil_r.
  - rewrite resolutions_resolve. fields.
    rewrite get_delete_ne by done.
    rewrite (proj2 (String.eqb_neq r u)) by done. by rewrite app_nil_r.
Qed.

Lemma timer_fires_other u r st :
  r ≠ u ->
  about u (timer_fires r st) = about u st ∧ listeners (timer_fires r st) = listeners st.
Proof.
  intros Hne. unfold about, timer_fires. rewrite resolutions_resolve. fields.
  rewrite get_delete_ne, timers_of_delete, decide_False by done.
  rewrite (proj2 (String.eqb_neq r u)) by done. by rewrite app_nil_r.
Qed.

Lemma timer_fires_self u st :
  about u (timer_fires u st) = (None, [], resolutions u st ++ [timeout_answer]) ∧
  listeners (timer_fires u st) = listeners st.
Proof.
  unfold about, timer_fires. rewrite resolutions_resolve. fields.
  by rewrite get_delete_eq, timers_of_delete, decide_True, String.eqb_refl.
Qed.

Lemma calls_other u response ws : forall st,
  Forall (fun nw : string * Waiter => waiter_id nw.2 ≠ u) ws ->
  let st' := foldl (fun s nw => call nw.2 response s) st ws in
  about u st' = about u st ∧ listeners st' = listeners st.
Proof.
  induction ws as [|[n w] ws IH]; intros st Hall; simpl; [done|].
  apply Forall_cons in Hall as [Hw Hall]. simpl in Hw.
  destruct (call_other u w response st Hw) as [Ha Hl].
  destruct (IH (call w response st) Hall) as [Ha' Hl']. simpl in *.
  split; congruence.
Qed.

Lemma fires_other u ds : forall st,
  Forall (fun d : string * Z => d.1 ≠ u) ds ->
  let st' := foldl (fun s d => timer_fires d.1 s) st ds in
  about u st' = about u st ∧ listeners st' = listeners st.
Proof.
  induction ds as [|[r due] ds IH]; intros st Hall; simpl; [done|].
  apply Forall_cons in Hall as [Hr Hall]. simpl in Hr.
  destruct (timer_fires_other u r st Hr) as [Ha Hl].
  destruct (IH (timer_fires r st) Hall) as [Ha' Hl']. simpl in *.
  split; congruence.
Qed.

Lemma fires_once u ds : forall st d,
  timers_of u ds = [d] ->
  let st' := foldl (fun s d => timer_fires d.1 s) st ds in
  about u st' = (None, [], resolutions u st ++ [timeout_answer]) ∧
  listeners st' = listeners st.
Proof.
  unfold timers_of. induction ds as [|[r due] ds IH]; intros st d Hd; [done|].
  rewrite filter_cons in Hd. simpl in Hd |- *.
  destruct (decide (r = u)) as [->|Hne].
  - injection Hd as _ Hrest.
    destruct (timer_fires_self u st) as [Ha Hl].
    destruct (fires_other u ds (timer_fires u st)) as [Ha' Hl'].
    { apply Forall_forall. intros x Hx Hxu.
      assert (x ∈ filter (fun d : string * Z => d.1 = u) ds) as Hin
        by (by apply list_elem_of_filter).
      rewrite Hrest in Hin. by apply elem_of_nil in Hin. }
    simpl in *. split; congruence.
  - destruct (timer_fires_other u r st Hne) as [Ha Hl].
    destruct (IH (timer_fires r st) d Hd) as [Ha' Hl']. simpl in *.
    unfold about in Ha. injection Ha as _ _ Hres. rewrite Hres in Ha'.
    split; congruence.
Qed.

Lemma timers_of_due u t l :
  timers_of u (due t l) ≡ₚ filter (fun d : string * Z => (d.2 <=? t)%Z) (timers_of u l).
Proof.
  unfold timers_of, due. rewrite js_sort_perm.
  rewrite !list_filter_filter. apply reflexive_eq, list_filter_iff. tauto.
Qed.

Lemma advance_other u t st :
  timers_of u (timers st) = [] ->
  about u (advance t st) = about u st ∧ listeners (advance t st) = listeners st.
Proof.
  intros Hnone. apply fires_other. apply Forall_forall. intros d Hd Hdu.
  assert (d ∈ timers_of u (due t (timers st))) as Hin by (by apply list_elem_of_filter).
  rewrite timers_of_due, Hnone in Hin. by apply elem_of_nil in Hin.
Qed.

Lemma advance_early u t d st :
  timers_of u (timers st) = [d] -> (t < d.2)%Z ->
  about u (advance t st) = about u st ∧ listeners (advance t st) = listeners st.
Proof.
  intros Hone Hlt. apply fires_other. apply Forall_forall. intros x Hx Hxu.
  assert (x ∈ timers_of u (due t (timers st))) as Hin by (by apply list_elem_of_filter).
  rewrite timers_of_due, Hone, filter_cons_False in Hin.
  - by apply elem_of_nil in Hin.
  - intros Hle. apply Is_true_true, Z.leb_le in Hle. lia.
Qed.

Lemma advance_due u t d st :
  timers_of u (timers st) = [d] -> (d.2 <= t)%Z ->
  about u (advance t st) = (None, [], resolutions u st ++ [timeout_answer]) ∧
  listeners (advance t st) = listeners st.
Proof.
  intros Hone Hle. apply (fires_once u _ st d).
  pose proof (timers_of_due u t (timers st)) as Hperm.
  rewrite Hone, filter_cons_True in Hperm.
  - by apply Permutation_singleton_r in Hperm.
  - by apply Is_true_true, Z.leb_le.
Qed.

(** *** A response *)

Lemma called_for r st :
  named st ->
  Forall (fun nw : string * Waiter => waiter_id nw.2 = r)
    (filter (fun nw : string * Waiter => String.eqb nw.1 (response_name r)) (listeners st)).
Proof.
  intros Hnamed. apply Forall_forall. intros [n w] [Hn Hin]%list_elem_of_filter.
  apply (proj1 (Forall_forall _ _) Hnamed) in Hin. simpl in *. subst n.
  rewrite response_name_eqb in Hn. apply Is_true_true, String.eqb_eq in Hn. done.
Qed.

Lemma emit_response_other u r response st :
  named st -> r ≠ u ->
  let st' := emit_response (response_name r) response st in
  about u st' = about u st ∧
  listeners st' = filter (fun nw : string * Waiter => negb (String.eqb nw.1 (response_name r)))
                    (listeners st).
Proof.
  intros Hnamed Hne. unfold emit_response.
  destruct (calls_other u response
              (filter (fun nw : string * Waiter => String.eqb nw.1 (response_name r))
                 (listeners st))
              (with_listeners
                 (filter (fun nw : string * Waiter => negb (String.eqb nw.1 (response_name r)))
                    (listeners st))
                 (log (response_event (response_name r) response) st))) as [Ha Hl].
  - eapply Forall_impl; [by apply called_for|]. intros nw ->. done.
  - simpl in *. by rewrite Ha, Hl.
Qed.

Lemma unheard_listeners u ls :
  Forall (fun nw : string * Waiter => nw.1 = response_name (waiter_id nw.2)) ls ->
  Forall (fun nw : string * Waiter => waiter_id nw.2 ≠ u) ls ->
  filter (fun nw : string * Waiter => String.eqb nw.1 (response_name u)) ls = [] ∧
  filter (fun nw : string * Waiter => negb (String.eqb nw.1 (response_name u))) ls = ls.
Proof.
  induction ls as [|[n w] ls IH]; intros Hn Hu; [done|].
  apply Forall_cons in Hn as [Hn1 Hn]. apply Forall_cons in Hu as [Hu1 Hu].
  cbn [fst snd] in *. subst n. destruct (IH Hn Hu) as [IH1 IH2].
  rewrite !filter_cons_bool. cbn [fst snd]. rewrite response_name_eqb.
  rewrite (proj2 (String.eqb_neq _ _) Hu1). cbn [negb]. by rewrite IH1, IH2.
Qed.

Lemma emit_response_unheard u response st :
  named st -> unheard u st ->
  emit_response (response_name u) response st
  = log (response_event (response_name u) response) st.
Proof.
  intros Hnamed Hun. unfold emit_response.
  destruct (unheard_listeners u (listeners st) Hnamed Hun) as [-> ->]. simpl. by destruct st.
Qed.

End CoordinatorFacts.


Module CoordinatorSteps.
Import JS Coordinator JsMapFacts ListFacts SortFacts CoordinatorFacts SortSpec CoordinatorSpec.

#[local] Arguments response_name : simpl never.

Lemma calls_listeners response ws : forall st,
  listeners (foldl (fun s (nw : string * Waiter) => call nw.2 response s) st ws) = listeners st.
Proof.
  induction ws as [|[n w] ws IH]; intros st; simpl; [done|].
  rewrite IH. by destruct w.
Qed.

Lemma fires_listeners ds : forall st,
  listeners (foldl (fun s (d : string * Z) => timer_fires d.1 s) st ds) = listeners st.
Proof. induction ds as [|d ds IH]; intros st; simpl; [done|]. by rewrite IH. Qed.

Lemma emit_response_listeners name response st :
  listeners (emit_response name response st)
  = filter (fun nw : string * Waiter => negb (String.eqb nw.1 name)) (listeners st).
Proof. unfold emit_response. by rewrite calls_listeners. Qed.

Lemma Forall_filtered {A} (P : A -> Prop) (f : A -> bool) l :
  Forall P l -> Forall P (filter (fun x => f x) l).
Proof.
  intros Hall. apply Forall_forall. intros x [_ Hx]%list_elem_of_filter.
  by apply (proj1 (Forall_forall _ _) Hall).
Qed.

Lemma quiet_thrown_on ev st : quiet ev st <-> thrown_on ev st = None.
Proof.
  unfold quiet, thrown_on. destruct (omap _ (observers st)); [done|].
  split; intros; discriminate.
Qed.

(** The three methods that make a request: what a call leaves and
    answers, when a listener throws on the announcement and when none
    does. *)
Lemma requestHumanApproval_cases uuid now msg st :
  let q := approval_of uuid now msg in
  (exists thrown, thrown_on (human_request q) st = Some thrown ∧
     requestHumanApproval uuid now msg st = (announced q st, failed thrown)) ∨
  (quiet (human_request q) st ∧
   requestHumanApproval uuid now msg st
   = (with_listeners (listeners st ++ [(response_name uuid, approval_waiter uuid)])
        (with_timers (timers st ++ [(uuid, (now + 30000)%Z)]) (announced q st)),
      promise_of uuid)).
Proof.
  intros q. subst q.
  unfold approval_of, announced, quiet, thrown_on, requestHumanApproval, emit. cbn [id].
  change (observers (with_pendingRequests _ st)) with (observers st).
  destruct (omap _ (observers st)) as [|e l].
  - by right.
  - left. by exists e.
Qed.

Lemma requestHumanAttention_cases uuid now msg st :
  let q := input_of uuid now msg in
  (exists thrown, thrown_on (human_request q) st = Some thrown ∧
     requestHumanAttention uuid now msg st = (announced q st, failed thrown)) ∨
  (quiet (human_request q) st ∧
   requestHumanAttention uuid now msg st
   = (with_listeners (listeners st ++ [(response_name uuid, attention_waiter uuid)])
        (announced q st),
      promise_of uuid)).
Proof.
  intros q. subst q.
  unfold input_of, announced, quiet, thrown_on, requestHumanAttention, emit. cbn [id].
  change (observers (with_pendingRequests _ st)) with (observers st).
  destruct (omap _ (observers st)) as [|e l].
  - by right.
  - left. by exists e.
Qed.

Lemma requestHumanReview_state uuid now msg st :
  (requestHumanReview uuid now msg st).1 = announced (review_of uuid now msg) st.
Proof.
  unfold requestHumanReview, emit. cbn [id].
  by destruct (head (omap _ (observers (with_pendingRequests _ st)))).
Qed.

Lemma handleDecision_cases uuid now msg st :
  handleDecision uuid now msg st = requestHumanApproval uuid now msg st ∨
  handleDecision uuid now msg st = requestHumanReview uuid now msg st ∨
  (handleDecision uuid now msg st).1
  = log (agent_autonomous (d_agentId msg) (d_decision msg) (confidence msg)) st.
Proof.
  unfold handleDecision.
  destruct (match policies st !! d_agentId msg with Some _ => _ | None => _ end); [by left|].
  destruct (below _ _); [right; by left|right; right].
  unfold emit. by destruct (head (omap _ (observers st))).
Qed.

(** What a call that makes a request leaves: the request announced, and
    perhaps a listener for its response and a timer. *)
Lemma request_made o u st :
  drawn [o] = [u] ->
  exists q, id q = u ∧
    (step o st = announced q st ∨
     step o st = with_listeners (listeners st ++ [(response_name u, approval_waiter u)])
                   (with_timers (timers st ++ [(u, (timestamp q + 30000)%Z)]) (announced q st)) ∨
     step o st = with_listeners (listeners st ++ [(response_name u, attention_waiter u)])
                   (announced q st) ∨
     step o st = log (agent_autonomous (from q) (d_decision (context q)) (confidence (context q)))
                   st).
Proof.
  destruct o as [a policy|uuid now msg|uuid now msg|r response|t|l]; try done.
  - intros [= ->]. cbn [step].
    destruct (handleDecision_cases u now msg st) as [->|[->|Heq]].
    + exists (approval_of u now msg). split; [done|].
      destruct (requestHumanApproval_cases u now msg st) as [(e & _ & ->)|[_ ->]];
        [by left|right; by left].
    + exists (review_of u now msg). split; [done|]. left. apply requestHumanReview_state.
    + exists (review_of u now msg). split; [done|]. right; right; right. by rewrite Heq.
  - intros [= ->]. cbn [step]. exists (input_of u now msg). split; [done|].
    destruct (requestHumanAttention_cases u now msg st) as [(e & _ & ->)|[_ ->]];
      [by left|right; right; by left].
Qed.

Lemma named_step o st : named st -> named (step o st).
Proof.
  unfold named. intros Hn.
  assert (forall u, drawn [o] = [u] ->
            Forall (fun nw : string * Waiter => nw.1 = response_name (waiter_id nw.2))
              (listeners (step o st))) as Hdraw.
  { intros u Hu. destruct (request_made o u st Hu) as (q & _ & [->|[->|[->| ->]]]); simpl.
    - done.
    - apply Forall_app. split; [done|]. by apply Forall_singleton.
    - apply Forall_app. split; [done|]. by apply Forall_singleton.
    - done. }
  destruct o as [a policy|uuid now msg|uuid now msg|r response|t|l].
  - done.
  - by apply (Hdraw uuid).
  - by apply (Hdraw uuid).
  - simpl. unfold respondToRequest. destruct (JsMap.has r (pendingRequests st)); [|done].
    rewrite emit_response_listeners. by apply Forall_filtered.
  - simpl. unfold advance. by rewrite fires_listeners.
  - done.
Qed.

Lemma run_named ops : forall st, named st -> named (run ops st).
Proof.
  induction ops as [|o ops IH]; intros st Hn; simpl; [done|]. apply IH. by apply named_step.
Qed.

Lemma new_named : named new.
Proof. by apply Forall_nil_2. Qed.

Lemma timers_of_snoc u r d l :
  timers_of u (l ++ [(r, d)]) = timers_of u l ++ (if decide (r = u) then [(r, d)] else []).
Proof. unfold timers_of. by rewrite filter_app. Qed.

(** A request made under another UUID. *)
Lemma draw_other u uuid o st :
  drawn [o] = [uuid] -> uuid ≠ u ->
  about u (step o st) = about u st ∧ (unheard u st -> unheard u (step o st)).
Proof.
  intros Hdraw Hne.
  destruct (request_made o uuid st Hdraw) as (q & Hq & [->|[->|[->| ->]]]).
  all: unfold about, unheard, announced, resolutions; simpl; rewrite ?Hq.
  all: rewrite ?get_set_ne, ?timers_of_snoc, ?decide_False, ?app_nil_r by done.
  all: split; [done|]; try done.
  all: intros Hun; apply Forall_app; split; [done|]; by apply Forall_singleton.
Qed.

(** A step that is neither the passing of time nor a response to [u], and
    draws another UUID than [u]. *)
Lemma step_other u o st :
  named st -> u ∉ drawn [o] ->
  (forall response, o ≠ do_respondToRequest u response) -> (forall t, o ≠ do_advance t) ->
  about u (step o st) = about u st ∧ (unheard u st -> unheard u (step o st)).
Proof.
  intros Hn Hu Hresp Hadv.
  destruct o as [a policy|uuid now msg|uuid now msg|r response|t|l].
  - done.
  - apply (draw_other u uuid); [done|]. intros ->. apply Hu. unfold drawn. simpl. by left.
  - apply (draw_other u uuid); [done|]. intros ->. apply Hu. unfold drawn. simpl. by left.
  - assert (r ≠ u) as Hne by (intros ->; by apply (Hresp response)).
    simpl. unfold respondToRequest. destruct (JsMap.has r (pendingRequests st)); [|done].
    destruct (emit_response_other u r response st Hn Hne) as [Ha Hl]. split; [done|].
    unfold unheard. rewrite Hl. apply Forall_filtered.
  - by destruct (Hadv t).
  - done.
Qed.

(** Nothing is waiting for [u] and no timer of [u] is set: then no step
    that draws another UUID changes what the state holds about [u]. *)
Lemma step_idle u o st :
  named st -> about u st = ((about u st).1.1, [], []) -> unheard u st -> u ∉ drawn [o] ->
  about u (step o st) = about u st ∧ unheard u (step o st).
Proof.
  intros Hn Hidle Hun Hu.
  destruct o as [a policy|uuid now msg|uuid now msg|r response|t|l].
  1-3, 6: by (destruct (step_other u _ st Hn Hu) as [Ha Hl];
              [done|done|split; [done|by apply Hl]]).
  - destruct (decide (r = u)) as [->|Hne].
    + simpl. unfold respondToRequest. destruct (JsMap.has u (pendingRequests st)); [|done].
      by rewrite emit_response_unheard.
    + destruct (step_other u (do_respondToRequest r response) st Hn Hu) as [Ha Hl];
        [by intros ? [= ->]|done|]. split; [done|by apply Hl].
  - simpl. injection Hidle as Ht _.
    destruct (advance_other u t st Ht) as [Ha Hl]. split; [done|].
    unfold unheard. by rewrite Hl.
Qed.

Lemma drawn_cons o ops : drawn (o :: ops) = drawn [o] ++ drawn ops.
Proof. unfold drawn. change (o :: ops) with ([o] ++ ops). by rewrite omap_app. Qed.

Lemma run_idle u ops : forall st,
  named st -> about u st = ((about u st).1.1, [], []) -> unheard u st -> u ∉ drawn ops ->
  about u (run ops st) = about u st ∧ unheard u (run ops st).
Proof.
  induction ops as [|o ops IH]; intros st Hn Hidle Hun Hu; [done|].
  rewrite drawn_cons in Hu. apply not_elem_of_app in Hu as [Hu1 Hu2].
  destruct (step_idle u o st Hn Hidle Hun Hu1) as [Ha Hun'].
  change (run (o :: ops) st) with (run ops (step o st)).
  destruct (IH (step o st)) as [Ha' Hun'']; try done.
  - by apply named_step.
  - rewrite Ha. exact Hidle.
  - split; [congruence|done].
Qed.

Lemma new_idle u : about u new = (None, [], []) ∧ unheard u new.
Proof. split; [done|]. by apply Forall_nil_2. Qed.

(** A UUID that no call drew is unknown to the coordinator. *)
Lemma run_fresh u ops :
  u ∉ drawn ops -> about u (run ops new) = (None, [], []) ∧ unheard u (run ops new).
Proof.
  intros Hu. destruct (new_idle u) as [Ha Hun].
  pose proof (run_idle u ops new new_named) as Hrun. rewrite Ha in Hrun.
  by apply Hrun.
Qed.

End CoordinatorSteps.


Module CoordinatorClaims.
Import JS Coordinator JsMapFacts ListFacts SortFacts CoordinatorFacts CoordinatorSteps SortSpec CoordinatorSpec.

#[local] Arguments response_name : simpl never.

Lemma get_values {V} (k : string) (v : V) (m : list (string * V)) :
  JsMap.get k m = Some v -> v ∈ JsMap.values m.
Proof.
  unfold JsMap.values. induction m as [|[k' v'] m IH]; simpl; [done|].
  destruct (decide (k' = k)).
  - intros [= ->]. by left.
  - intros Hget. right. by apply IH.
Qed.

(** C10.  A decision that needs no approval and whose confidence is below
    the threshold goes to [requestHumanReview].  The request made there,
    under a UUID no other call draws, is put in the pending table with no
    listener for its response and no timer; whatever happens afterwards
    (responses to it included) it is still in the table and in the list
    [getPendingRequests] returns, and [respondToRequest] with its id leaves
    the pending table as it is. *)
Theorem review_request_stays_pending (before after : list Op) (uuid : string)
    (now : Z) (msg : Decision) :
  uuid ∉ drawn before -> uuid ∉ drawn after ->
  let st0 := run before new in
  let st1 := (requestHumanReview uuid now msg st0).1 in
  let st2 := run after st1 in
  (match policies st0 !! d_agentId msg with
   | Some p => decisionType msg ∉ requiresApprovalFor p
   | None => True
   end ->
   below (confidence msg) (humanAttentionThreshold st0) = true ->
   handleDecision uuid now msg st0 = requestHumanReview uuid now msg st0) ∧
  JsMap.get uuid (pendingRequests st1) = Some (review_of uuid now msg) ∧
  unheard uuid st1 ∧ timers_of uuid (timers st1) = [] ∧
  JsMap.get uuid (pendingRequests st2) = Some (review_of uuid now msg) ∧
  review_of uuid now msg ∈ getPendingRequests st2 ∧
  (forall response,
     pendingRequests (respondToRequest uuid response st2) = pendingRequests st2).
Proof.
  intros Hbefore Hafter st0 st1 st2.
  destruct (run_fresh uuid before Hbefore) as [Ha0 Hun0]. fold st0 in Ha0, Hun0.
  assert (named st0) as Hn0 by apply run_named, new_named.
  assert (st1 = announced (review_of uuid now msg) st0) as Hst1
    by apply requestHumanReview_state.
  assert (about uuid st1 = (Some (review_of uuid now msg), [], [])) as Ha1.
  { rewrite Hst1. unfold about in *. injection Ha0 as _ Ht Hr. unfold announced. simpl.
    rewrite get_set_eq. unfold resolutions in *. simpl. by rewrite Ht, Hr. }
  assert (named st1) as Hn1 by (by rewrite Hst1).
  assert (unheard uuid st1) as Hun1 by (by rewrite Hst1).
  destruct (run_idle uuid after st1 Hn1) as [Ha2 Hun2]; try done; [by rewrite Ha1|].
  fold st2 in Ha2, Hun2. rewrite Ha1 in Ha2.
  assert (named st2) as Hn2 by by apply run_named.
  unfold about in Ha1, Ha2. injection Ha1 as Hp1 Ht1 _. injection Ha2 as Hp2 _ _.
  split; [|split; [done|split; [done|split; [done|split; [done|split]]]]].
  - intros Hpolicy Hbelow. unfold handleDecision. rewrite Hbelow.
    destruct (policies st0 !! d_agentId msg) as [p|]; [|done].
    by rewrite bool_decide_eq_false_2.
  - unfold getPendingRequests. rewrite js_sort_perm. by apply (get_values uuid).
  - intros response. unfold respondToRequest.
    destruct (JsMap.has uuid (pendingRequests st2)); [|done].
    by rewrite emit_response_unheard.
Qed.

Lemma review_request_stays_pending_witness :
  JsMap.get "r1"
    (pendingRequests
       (run [do_respondToRequest "r1" (JObj [("approved", JBool true)]); do_advance 100000]
          (requestHumanReview "r1" 5 unsure (run [do_handleDecision "r0" 0 unsure] new)).1))
  = Some (review_of "r1" 5 unsure).
Proof.
  apply (review_request_stays_pending [do_handleDecision "r0" 0 unsure]
           [do_respondToRequest "r1" (JObj [("approved", JBool true)]); do_advance 100000]
           "r1" 5 unsure).
  - vm_compute. intros Hin. apply list_elem_of_singleton in Hin. discriminate.
  - vm_compute. apply not_elem_of_nil.
Defined.

End CoordinatorClaims.


Module ApprovalClaims.
Import JS Coordinator JsMapFacts ListFacts SortFacts CoordinatorFacts CoordinatorSteps SortSpec CoordinatorSpec.

#[local] Arguments response_name : simpl never.







End ApprovalClaims.

(** ** The multiplexer: the processes behind the table *)

Module ProcessFacts.
Import JS Multiplexer JsMapFacts MultiplexerSpec MultiplexerFacts ProcessSpec.

Lemma new_table_live N : table_live (new N).
Proof.
  split; simpl; try apply NoDup_nil_2.
  - intros p Hp. by apply elem_of_nil in Hp.
  - done.
  - intros a Ha. by apply elem_of_nil in Ha.
Qed.

Lemma keys_snoc {K V} (m : list (K * V)) k v : JsMap.keys (m ++ [(k, v)]) = JsMap.keys m ++ [k].
Proof. unfold JsMap.keys. by rewrite fmap_app. Qed.

Lemma get_snoc_absent {K V} `{EqDecision K} (m : list (K * V)) k v :
  k ∉ JsMap.keys m -> JsMap.get k (m ++ [(k, v)]) = Some v.
Proof.
  unfold JsMap.keys. induction m as [|[k' v'] m IH]; simpl; intros Hk.
  - by rewrite decide_True.
  - apply not_elem_of_cons in Hk as [Hne Hk]. rewrite decide_False by done. by apply IH.
Qed.

Lemma get_snoc_ne {K V} `{EqDecision K} (m : list (K * V)) k k' v :
  k ≠ k' -> JsMap.get k' (m ++ [(k, v)]) = JsMap.get k' m.
Proof.
  intros Hne. induction m as [|[k0 v0] m IH]; simpl.
  - by rewrite decide_False.
  - by rewrite IH.
Qed.

Lemma kills_frame l : forall st,
  let st' := foldl (fun s (a : string * ChildProcess) => kill a.2 s) st l in
  agents st' = agents st ∧ messageBuffer st' = messageBuffer st ∧
  listeners st' = listeners st ∧ emitted st' = emitted st ∧
  spawned st' = spawned st ∧ running st' = running st ∧ stdin st' = stdin st ∧
  signals st' = signals st ++ (pid <$> l.*2).
Proof.
  induction l as [|a l IH]; intros st; simpl.
  - by rewrite app_nil_r.
  - destruct (IH (kill a.2 st)) as (-> & -> & -> & -> & -> & -> & -> & ->).
    unfold kill, with_processes; simpl. by rewrite <- app_assoc.
Qed.

Lemma spawnAgent_table_live options uuid st :
  table_live st -> table_live (spawnAgent options uuid st).1.
Proof.
  intros Hok. unfold spawnAgent.
  destruct (maxConcurrent st <=? JsMap.size (agents st)); [done|].
  set (a := id_or (opt_id options) uuid).
  assert (spawned st ∉ JsMap.keys (running st)) as Hfresh.
  { intros Hin. apply (running_spawned st Hok) in Hin. lia. }
  unfold spawn, emit, with_emitted, with_messageBuffer, with_agents, with_processes.
  cbn [fst snd agents running spawned messageBuffer listeners].
  assert (table_live
            {| maxConcurrent := maxConcurrent st;
               agents := JsMap.set a {| pid := spawned st;
                                        argv := ["code"; "--print"; "--format"; "json-stream"]
                                                ++ opt_args options;
                                        env := opt_env options |} (agents st);
               messageBuffer := <[a := []]> (messageBuffer st);
               listeners := listeners st;
               emitted := emitted st ++ [agent_spawn a];
               spawned := S (spawned st);
               running := running st ++ [(spawned st, a)];
               stdin := stdin st; signals := signals st |}) as Hnew;
    [|by destruct (omap _ (listeners st))].
  split; cbn [fst agents running spawned messageBuffer pid].
  - apply NoDup_set, Hok.
  - rewrite keys_snoc. apply NoDup_app. split; [apply Hok|]. split; [|apply NoDup_singleton].
    intros p Hp Hp'. apply list_elem_of_singleton in Hp' as ->. done.
  - intros p. rewrite keys_snoc, elem_of_app, list_elem_of_singleton.
    intros [Hp| ->]; [|lia]. apply (running_spawned st Hok) in Hp. lia.
  - intros a' h. destruct (decide (a = a')) as [<-|Hne].
    + rewrite get_set_eq. intros [= <-]. simpl. by apply get_snoc_absent.
    + rewrite get_set_ne by done. intros Hget.
      pose proof (handle_runs st Hok a' h Hget) as Hrun.
      rewrite get_snoc_ne; [done|].
      intros Heq. apply get_Some_keys in Hrun. rewrite <- Heq in Hrun. done.
  - intros a'. rewrite keys_set. destruct (decide (a' = a)) as [->|Hne].
    + intros _. rewrite lookup_insert_eq. by eexists.
    + intros [?|Hin]; [done|]. rewrite lookup_insert_ne by done.
      by apply (handle_buffer st Hok).
Qed.

Lemma step_table_live o st : table_live st -> table_live (step o st).
Proof.
  intros Hok. destruct o as [l|options uuid|now uuid a m c|draw m|a| |p c]; simpl.
  - by destruct Hok.
  - by apply spawnAgent_table_live.
  - unfold sendToAgent. destruct (JsMap.get a (agents st)); [|done].
    unfold emit. destruct (omap _ (listeners st)); simpl; by destruct Hok.
  - unfold broadcast.
    assert (forall ids i s, table_live s -> table_live (sends draw i ids m s).1) as Hsends.
    { clear. induction ids as [|a ids IH]; intros i s Hs; simpl; [done|].
      assert (table_live (sendToAgent (draw i).1 (draw i).2 a m None s).1) as Hs1.
      { unfold sendToAgent. destruct (JsMap.get a (agents s)); [|done].
        unfold emit. destruct (omap _ (listeners s)); simpl; by destruct Hs. }
      destruct (sendToAgent _ _ a m None s) as [s1 r]. simpl in Hs1.
      specialize (IH (S i) s1 Hs1). by destruct (sends draw (S i) ids m s1). }
    specialize (Hsends (JsMap.keys (agents st)) 0 st Hok).
    by destruct (sends draw 0 _ m st).
  - unfold killAgent. destruct (JsMap.get a (agents st)) as [h|] eqn:Hget; [|done].
    unfold kill, with_agents, with_processes. split; simpl.
    + apply NoDup_delete, Hok.
    + apply Hok.
    + apply Hok.
    + intros a' h'. destruct (decide (a = a')) as [<-|Hne].
      * by rewrite get_delete_eq.
      * rewrite get_delete_ne by done. apply Hok.
    + intros a' Ha'. apply keys_delete in Ha' as [_ Ha']. by apply (handle_buffer st Hok).
  - unfold killAll. destruct (kills_frame (agents st) st) as (_ & _ & _ & _ & Hsp & Hrun & _).
    unfold with_messageBuffer, with_agents. split; simpl.
    + apply NoDup_nil_2.
    + rewrite Hrun. apply Hok.
    + rewrite Hrun, Hsp. apply Hok.
    + done.
    + intros a Ha. by apply elem_of_nil in Ha.
  - unfold on_exit. destruct (JsMap.get p (running st)) as [a|] eqn:Hget; [|done].
    unfold emit, with_emitted, with_messageBuffer, with_agents, with_processes.
    split; cbn [fst agents running spawned messageBuffer].
    + apply NoDup_delete, Hok.
    + apply NoDup_delete, Hok.
    + intros p' Hp'. apply keys_delete in Hp' as [_ Hp']. by apply (running_spawned st Hok).
    + intros a' h'. destruct (decide (a = a')) as [<-|Hne].
      * by rewrite get_delete_eq.
      * rewrite get_delete_ne by done. intros Hh'.
        pose proof (handle_runs st Hok a' h' Hh') as Hrun.
        rewrite get_delete_ne; [done|]. intros Heq. rewrite <- Heq in Hrun. congruence.
    + intros a' Ha'. apply keys_delete in Ha' as [Hne Ha'].
      rewrite lookup_delete_ne by done. by apply (handle_buffer st Hok).
Qed.

Lemma run_table_live ops : forall st, table_live st -> table_live (run ops st).
Proof.
  induction ops as [|o ops IH]; intros st Hst; simpl; [done|].
  apply IH. by apply step_table_live.
Qed.

End ProcessFacts.

Module ProcessProperties.
Import JS Multiplexer JsMapFacts MultiplexerSpec MultiplexerFacts ProcessSpec ProcessFacts.

Lemma keys_set_present {K V} `{EqDecision K} (k : K) (v : V) m :
  is_Some (JsMap.get k m) -> JsMap.keys (JsMap.set k v m) = JsMap.keys m.
Proof.
  unfold JsMap.keys. induction m as [|[k' v'] m IH]; simpl.
  - by intros [? ?].
  - destruct (decide (k' = k)); [done|]. intros Hs. rewrite !fmap_cons. f_equal. by apply IH.
Qed.

Lemma on_exit_removes p c a st :
  JsMap.get p (running st) = Some a ->
  agents (on_exit p c st) = JsMap.delete a (agents st) ∧
  messageBuffer (on_exit p c st) = base.delete a (messageBuffer st) ∧
  emitted (on_exit p c st) = emitted st ++ [agent_exit a c] ∧
  signals (on_exit p c st) = signals st.
Proof. intros Hget. unfold on_exit. by rewrite Hget. Qed.

(** X2.  In every state a multiplexer reaches, an agent id is listed once,
    and the handle under it is of a process that was spawned for this id and
    has not exited, with a message buffer for the id: when that process
    exits, the id leaves the table and [agent:exit] is emitted for it. *)
Theorem live_agents_have_running_processes (N : nat) (ops : list Op)
    (a : string) (h : ChildProcess) (c : option Z) :
  let st := run ops (new N) in
  NoDup (getAgentIds st) ∧
  (JsMap.get a (agents st) = Some h ->
   (pid h < spawned st) ∧ JsMap.get (pid h) (running st) = Some a ∧
   is_Some (messageBuffer st !! a) ∧
   (a ∉ getAgentIds (on_exit (pid h) c st)) ∧
   emitted (on_exit (pid h) c st) = emitted st ++ [agent_exit a c]).
Proof.
  intros st.
  assert (table_live st) as Hok by apply run_table_live, new_table_live.
  split; [apply Hok|]. intros Hget.
  pose proof (handle_runs st Hok a h Hget) as Hrun.
  destruct (on_exit_removes (pid h) c a st Hrun) as (Ha & _ & He & _).
  split; [|split; [done|split; [|split; [|done]]]].
  - apply (running_spawned st Hok). by eapply get_Some_keys.
  - apply (handle_buffer st Hok). by eapply get_Some_keys.
  - unfold getAgentIds. rewrite Ha. apply get_None, get_delete_eq.
Qed.

(** X3.  Once an agent was killed, or its process has exited, or all agents
    were killed, a send to its id fails with the not-found error and does
    nothing: no [message:send] is emitted and nothing is written. *)
Theorem no_send_after_kill_or_exit (N : nat) (ops : list Op) (a : string)
    (h : ChildProcess) (c : option Z) (now : Z) (uuid message : string)
    (correlationId : option string) :
  let st := run ops (new N) in
  JsMap.get a (agents st) = Some h ->
  forall st', st' ∈ [killAgent a st; killAll st; on_exit (pid h) c st] ->
    sendToAgent now uuid a message correlationId st' = (st', Err (AgentNotFound a)).
Proof.
  intros st Hget st' Hin.
  assert (table_live st) as Hok by apply run_table_live, new_table_live.
  assert (JsMap.get a (agents st') = None) as Hgone.
  { repeat (apply elem_of_cons in Hin as [->|Hin]).
    - unfold killAgent. rewrite Hget. apply get_delete_eq.
    - done.
    - destruct (on_exit_removes (pid h) c a st (handle_runs st Hok a h Hget)) as (-> & _).
      apply get_delete_eq.
    - by apply elem_of_nil in Hin. }
  unfold sendToAgent. by rewrite Hgone.
Qed.

Lemma no_send_after_kill_or_exit_witness :
  sendToAgent 5 "u" "a" "hello" None
    (killAgent "a" (run [do_spawnAgent (options_with "a") "x"] (new 2)))
  = (killAgent "a" (run [do_spawnAgent (options_with "a") "x"] (new 2)),
     Err (AgentNotFound "a")).
Proof.
  apply (no_send_after_kill_or_exit 2 [do_spawnAgent (options_with "a") "x"] "a"
           {| pid := 0; argv := ["code"; "--print"; "--format"; "json-stream"]; env := [] |}
           None 5 "u" "hello" None).
  - reflexivity.
  - left.
Defined.

(** X4.  [killAll] sends one kill signal to the process of every agent in
    the table, in the order of the table, empties the table and the message
    buffers and emits nothing; the exit listeners stay.  A multiplexer
    with a maximum above zero then takes a new agent. *)
Theorem killAll_signals_every_agent (st : Mux) (options : AgentOptions) (uuid : string) :
  let st' := killAll st in
  signals st' = signals st ++ (pid <$> JsMap.values (agents st)) ∧
  getAgentIds st' = [] ∧ messageBuffer st' = ∅ ∧
  emitted st' = emitted st ∧ running st' = running st ∧
  (0 < maxConcurrent st -> quiet (agent_spawn (id_or (opt_id options) uuid)) st ->
   (spawnAgent options uuid st').2 = Ok (id_or (opt_id options) uuid) ∧
   getAgentIds (spawnAgent options uuid st').1 = [id_or (opt_id options) uuid]).
Proof.
  intros st'. destruct (kills_frame (agents st) st) as (Ha & Hb & Hl & He & Hsp & Hr & Hi & Hs).
  unfold st', killAll, with_messageBuffer, with_agents. cbn [signals agents messageBuffer
    emitted running getAgentIds JsMap.keys fmap list_fmap].
  split; [by rewrite Hs|]. split; [done|]. split; [done|]. split; [done|]. split; [done|].
  intros Hmax Hquiet. unfold spawnAgent, quiet in *. cbn [maxConcurrent agents].
  rewrite killAll_kills.
  destruct (maxConcurrent st <=? JsMap.size []) eqn:Hle;
    [apply Nat.leb_le in Hle; unfold JsMap.size in Hle; simpl in Hle; lia|].
  unfold spawn, emit, with_emitted, with_messageBuffer, with_agents, with_processes.
  cbn [fst snd listeners]. rewrite Hl, Hquiet. done.
Qed.

Lemma killAll_signals_every_agent_witness :
  getAgentIds
    (spawnAgent (options_with "c") "x"
       (killAll (run [do_spawnAgent (options_with "a") "x";
                      do_spawnAgent (options_with "b") "x"] (new 2)))).1
  = ["c"].
Proof.
  apply (killAll_signals_every_agent
           (run [do_spawnAgent (options_with "a") "x"; do_spawnAgent (options_with "b") "x"]
              (new 2)) (options_with "c") "x").
  - vm_compute. lia.
  - reflexivity.
Defined.

(** X5.  [killAgent] on a live agent sends one kill signal to its process
    and takes the id out of the table, emitting nothing and leaving the
    agent's message buffer; the buffer goes when the process exits, which
    emits [agent:exit] and leaves the table as it is. *)
Theorem killAgent_keeps_buffer_until_exit (N : nat) (ops : list Op) (a : string)
    (h : ChildProcess) (c : option Z) :
  let st := run ops (new N) in
  JsMap.get a (agents st) = Some h ->
  let st1 := killAgent a st in
  let st2 := on_exit (pid h) c st1 in
  signals st1 = signals st ++ [pid h] ∧ (a ∉ getAgentIds st1) ∧
  emitted st1 = emitted st ∧
  messageBuffer st1 = messageBuffer st ∧ is_Some (messageBuffer st1 !! a) ∧
  emitted st2 = emitted st ++ [agent_exit a c] ∧
  messageBuffer st2 !! a = None ∧ agents st2 = agents st1.
Proof.
  intros st Hget st1 st2.
  assert (table_live st) as Hok by apply run_table_live, new_table_live.
  assert (st1 = with_agents (JsMap.delete a (agents st)) (kill h st)) as Hst1.
  { unfold st1, killAgent. by rewrite Hget. }
  assert (JsMap.get (pid h) (running st1) = Some a) as Hrun.
  { rewrite Hst1. simpl. by apply (handle_runs st Hok). }
  destruct (on_exit_removes (pid h) c a st1 Hrun) as (Ha & Hb & He & _).
  fold st2 in Ha, Hb, He.
  assert (a ∉ getAgentIds st1) as Hgone.
  { rewrite Hst1. unfold getAgentIds. simpl. apply get_None, get_delete_eq. }
  split; [by rewrite Hst1|]. split; [done|].
  split; [by rewrite Hst1|]. split; [by rewrite Hst1|]. split.
  { rewrite Hst1. simpl. apply (handle_buffer st Hok). by eapply get_Some_keys. }
  split; [by rewrite He, Hst1|]. split.
  - rewrite Hb. apply lookup_delete_eq.
  - rewrite Ha. apply delete_absent. by apply get_None.
Qed.

Lemma killAgent_keeps_buffer_until_exit_witness :
  is_Some (messageBuffer
             (killAgent "a" (run [do_spawnAgent (options_with "a") "x"] (new 2))) !! "a").
Proof.
  apply (killAgent_keeps_buffer_until_exit 2 [do_spawnAgent (options_with "a") "x"] "a"
           {| pid := 0; argv := ["code"; "--print"; "--format"; "json-stream"]; env := [] |}
           None).
  reflexivity.
Defined.

(** X6.  [spawnAgent] with an id that is in the table (and room left) puts
    the handle of a new process under the id: the ids listed stay as they
    are, the process that was under the id is sent no signal, and its exit
    listener stays, so that when the replaced process exits the id leaves
    the table although the new process runs. *)
Theorem spawnAgent_with_live_id_replaces_handle (N : nat) (ops : list Op) (a uuid : string)
    (h : ChildProcess) (options : AgentOptions) (c : option Z) :
  let st := run ops (new N) in
  JsMap.get a (agents st) = Some h ->
  opt_id options = Some a -> a ≠ "" ->
  JsMap.size (agents st) < N ->
  quiet (agent_spawn a) st ->
  let st1 := (spawnAgent options uuid st).1 in
  (spawnAgent options uuid st).2 = Ok a ∧
  (exists h', JsMap.get a (agents st1) = Some h' ∧ pid h' = spawned st ∧ pid h' ≠ pid h) ∧
  getAgentIds st1 = getAgentIds st ∧
  signals st1 = signals st ∧
  (a ∉ getAgentIds (on_exit (pid h) c st1)) ∧
  JsMap.get (spawned st) (running (on_exit (pid h) c st1)) = Some a.
Proof.
  intros st Hget Hid Hne Hroom Hquiet st1.
  assert (table_live st) as Hok by apply run_table_live, new_table_live.
  destruct (run_within_capacity N ops (new N) (new_within_capacity N)) as [Hmax _].
  fold st in Hmax.
  assert (id_or (opt_id options) uuid = a) as Hida.
  { rewrite Hid. simpl. destruct (String.eqb_spec a ""); done. }
  pose proof (handle_runs st Hok a h Hget) as Hrun.
  assert (pid h < spawned st) as Hlt.
  { apply (running_spawned st Hok). by eapply get_Some_keys. }
  assert (spawnAgent options uuid st
          = ({| maxConcurrent := maxConcurrent st;
                agents := JsMap.set a {| pid := spawned st;
                                         argv := ["code"; "--print"; "--format"; "json-stream"]
                                                 ++ opt_args options;
                                         env := opt_env options |} (agents st);
                messageBuffer := <[a := []]> (messageBuffer st);
                listeners := listeners st;
                emitted := emitted st ++ [agent_spawn a];
                spawned := S (spawned st);
                running := running st ++ [(spawned st, a)];
                stdin := stdin st; signals := signals st |}, Ok a)) as Hspawn.
  { unfold spawnAgent. rewrite Hida, Hmax.
    destruct (N <=? JsMap.size (agents st)) eqn:Hle; [apply Nat.leb_le in Hle; lia|].
    unfold spawn, emit, with_emitted, with_messageBuffer, with_agents, with_processes.
    cbn [fst snd maxConcurrent agents running spawned messageBuffer listeners emitted
           stdin signals].
    unfold quiet in Hquiet. rewrite Hquiet. by rewrite Hmax. }
  unfold st1. rewrite Hspawn. cbn [fst snd].
  set (st' := {| maxConcurrent := maxConcurrent st; agents := _ |}).
  assert (JsMap.get (pid h) (running st') = Some a) as Hrun'.
  { unfold st'. cbn [running]. rewrite get_snoc_ne; [done|lia]. }
  destruct (on_exit_removes (pid h) c a st' Hrun') as (Ha & _).
  split; [done|]. split.
  { eexists. split; [apply get_set_eq|]. simpl. split; [done|lia]. }
  split. { unfold getAgentIds, st'. cbn [agents]. apply keys_set_present. by eexists. }
  split; [done|]. split.
  - unfold getAgentIds. rewrite Ha. apply get_None, get_delete_eq.
  - unfold on_exit. rewrite Hrun'.
    unfold emit, with_emitted, with_messageBuffer, with_agents, with_processes.
    cbn [fst running]. rewrite get_delete_ne by lia.
    unfold st'. cbn [running]. apply get_snoc_absent.
    intros Hin. apply (running_spawned st Hok) in Hin. lia.
Qed.

Lemma spawnAgent_with_live_id_replaces_handle_witness :
  getAgentIds
    (on_exit 0 None
       (spawnAgent (options_with "a") "x"
          (run [do_spawnAgent (options_with "a") "x"] (new 2))).1)
  = [].
Proof.
  assert ("a" ∉ getAgentIds
            (on_exit 0 None
               (spawnAgent (options_with "a") "x"
                  (run [do_spawnAgent (options_with "a") "x"] (new 2))).1)) as Hgone.
  { apply (spawnAgent_with_live_id_replaces_handle 2 [do_spawnAgent (options_with "a") "x"]
             "a" "x"
             {| pid := 0; argv := ["code"; "--print"; "--format"; "json-stream"]; env := [] |}
             (options_with "a") None).
    - reflexivity.
    - reflexivity.
    - discriminate.
    - vm_compute. lia.
    - reflexivity. }
  reflexivity.
Defined.

End ProcessProperties.

(** ** The stream splitter: one stream among the others *)

Module StreamFacts.
Import JS Splitter JsMapFacts SplitterSpec SplitterFacts SplitterClaims Reassembly StreamSpec.

Lemma about_key s msg st : about s msg = true <-> stream_key msg st = Some (KStr s).
Proof.
  unfold about, stream_key.
  destruct (prop msg "streamId") as [a|]; [|done].
  destruct (prop msg "agentId") as [b|]; [|done].
  destruct (or_else (js_or a b) (JStr "default")) as [| | |s'| |]; simpl; split; try done.
  - intros Hs. apply String.eqb_eq in Hs. by subst.
  - intros [= ->]. apply String.eqb_refl.
Qed.

(** A message leaves the entries of the other keys as they are. *)
Lemma routeMessage_frame now msg st k k' :
  stream_key msg st = Some k -> k' ≠ k -> entry k' (route st (now, msg)) = entry k' st.
Proof.
  intros Hkey Hne. unfold stream_key in Hkey. unfold entry, route, routeMessage. cbn [fst snd].
  destruct (prop msg "streamId") as [m_streamId|] eqn:Hsid; [|done].
  destruct (prop msg "agentId") as [m_agentId|] eqn:Haid; [|done].
  assert (msg ≠ JNull) as Hnn by (intros ->; done).
  destruct (prop_not_null msg "type" Hnn) as [m_type ->].
  destruct (prop_not_null msg "data" Hnn) as [m_data ->].
  injection Hkey as Hkey. rewrite Hkey.
  set (st0 := if is_ref k then with_refs (S (refs st)) st else st).
  assert (streams st0 = streams st ∧ metadata st0 = metadata st) as (Hs0 & Hm0).
  { unfold st0. by destruct (is_ref k). }
  clearbody st0.
  destruct (JsMap.get k (streams st0)) as [stream|].
  - destruct (JsMap.get k (metadata st0)) as [meta0|]; [|by rewrite Hs0, Hm0].
    destruct (is_type m_type "stream:start");
      [|destruct (is_type m_type "stream:chunk"); [|destruct (is_type m_type "stream:end")]].
    all: fields; rewrite ?Hs0, ?Hm0.
    all: by rewrite ?get_delete_ne, ?get_set_ne by done.
  - fields. rewrite !get_set_eq.
    destruct (is_type m_type "stream:start");
      [|destruct (is_type m_type "stream:chunk"); [|destruct (is_type m_type "stream:end")]].
    all: fields; rewrite ?Hs0, ?Hm0.
    all: by rewrite ?get_delete_ne, ?get_set_ne by done.
Qed.

(** A message filed under [s] changes the entry of [s] by what the entry
    was, and by nothing else of the state. *)
Lemma route_entry now s msg st :
  table_ok st -> about s msg = true ->
  entry (KStr s) (route st (now, msg)) = handled now s msg (entry (KStr s) st).
Proof.
  intros Hok Habout. unfold about in Habout.
  unfold entry, route, routeMessage, handled. cbn [fst snd].
  destruct (prop msg "streamId") as [m_streamId|] eqn:Hsid; [|done].
  destruct (prop msg "agentId") as [m_agentId|] eqn:Haid; [|done].
  assert (msg ≠ JNull) as Hnn by (intros ->; done).
  destruct (prop_not_null msg "type" Hnn) as [m_type ->].
  destruct (prop_not_null msg "data" Hnn) as [m_data ->].
  destruct (or_else (js_or m_streamId m_agentId) (JStr "default")) as [| | |s'| |] eqn:Hor;
    try done.
  apply String.eqb_eq in Habout as ->.
  cbn [key_of is_ref].
  destruct (JsMap.get (KStr s) (streams st)) as [stream|] eqn:Hstream.
  - destruct (JsMap.get (KStr s) (metadata st)) as [meta0|] eqn:Hmeta.
    2:{ apply (same_keys st Hok) in Hmeta. congruence. }
    destruct (is_type m_type "stream:start");
      [|destruct (is_type m_type "stream:chunk"); [|destruct (is_type m_type "stream:end")]].
    all: fields; by rewrite ?get_delete_eq, ?get_set_eq, ?Hstream.
  - assert (JsMap.get (KStr s) (metadata st) = None) as Hmeta by (by apply (same_keys st Hok)).
    rewrite Hmeta. fields. rewrite !get_set_eq.
    destruct (is_type m_type "stream:start");
      [|destruct (is_type m_type "stream:chunk"); [|destruct (is_type m_type "stream:end")]].
    all: fields; by rewrite ?get_delete_eq, ?get_set_eq.
Qed.


Lemma routeAll_entry s calls : forall st st',
  table_ok st -> table_ok st' -> entry (KStr s) st = entry (KStr s) st' ->
  entry (KStr s) (routeAll calls st)
  = entry (KStr s) (routeAll (filter (fun c => about s c.2) calls) st').
Proof.
  induction calls as [|[now msg] calls IH]; intros st st' Hok Hok' Heq; [done|].
  rewrite filter_cons.
  change (routeAll ((now, msg) :: calls) st) with (routeAll calls (route st (now, msg))).
  cbn [snd]. destruct (about s msg) eqn:Habout.
  - rewrite decide_True by done.
    change (routeAll ((now, msg) :: filter (fun c => about s c.2) calls) st')
      with (routeAll (filter (fun c => about s c.2) calls) (route st' (now, msg))).
    apply IH; try by apply route_ok.
    rewrite !route_entry by done. by rewrite Heq.
  - rewrite decide_False by (by intros []). apply IH; [by apply route_ok|done|].
    rewrite <- Heq. destruct (stream_key msg st) as [k|] eqn:Hkey.
    + apply (routeMessage_frame now msg st k); [done|].
      intros <-. apply about_key in Hkey. congruence.
    + apply stream_key_null in Hkey. by rewrite route_null.
Qed.

Lemma streams_are_independent_aux calls s :
  JsMap.get (KStr s) (streams (routeAll calls new))
  = JsMap.get (KStr s) (streams (routeAll (filter (fun c => about s c.2) calls) new)) ∧
  JsMap.get (KStr s) (metadata (routeAll calls new))
  = JsMap.get (KStr s) (metadata (routeAll (filter (fun c => about s c.2) calls) new)).
Proof.
  pose proof (routeAll_entry s calls new new new_table_ok new_table_ok eq_refl) as Heq.
  unfold entry in Heq. by injection Heq as -> ->.
Qed.


End StreamFacts.

Module SplitterInvariant.
Import JS Splitter SplitterQueries JsMapFacts SplitterSpec SplitterFacts SplitterClaims Reassembly
  StreamSpec StreamFacts.








End SplitterInvariant.

Module StreamProperties.
Import JS Splitter SplitterQueries JsMapFacts SplitterSpec SplitterFacts SplitterClaims StreamSpec StreamFacts
  SplitterInvariant.

(** X7.  Streams do not touch each other: what the table holds for the
    stream [s] after any sequence of messages is what it would hold had
    only the messages filed under [s] been routed. *)
Theorem streams_are_independent (calls : list (Z * Json)) (s : string) :
  getStream s (routeAll calls new)
  = getStream s (routeAll (filter (fun c => about s c.2) calls) new) ∧
  JsMap.get (KStr s) (metadata (routeAll calls new))
  = JsMap.get (KStr s) (metadata (routeAll (filter (fun c => about s c.2) calls) new)).
Proof. apply streams_are_independent_aux. Qed.




End StreamProperties.

(** ** The stream splitter: chunks cut at line breaks *)

Module LinesFacts.
Import JS Splitter LinesSpec.

Lemma append_assoc (a b c : string) : (a +:+ b) +:+ c = a +:+ b +:+ c.
Proof.
  induction a as [|x a IH]; [done|].
  change ((String x a +:+ b) +:+ c) with (String x ((a +:+ b) +:+ c)). by rewrite IH.
Qed.

Lemma lead_range b k lo hi : utf8_lead b = (S k, lo, hi) -> between lo 10 hi = false.
Proof.
  unfold utf8_lead. repeat case_match; intros [= <- <- <-]; done.
Qed.

Lemma newline_not_cont : is_cont (chr 10) = false.
Proof. done. Qed.

Lemma toString_nl b : toString (String (chr 10) b) = newline +:+ toString b.
Proof. done. Qed.

Lemma split_lines_nonempty s : split_lines s ≠ [].
Proof. destruct s as [|c r]; simpl; [done|]. repeat case_match; done. Qed.

Lemma split_lines_app a b :
  split_lines (a +:+ newline +:+ b) = split_lines a ++ split_lines b.
Proof.
  induction a as [|c a IH]; [done|].
  change (String c a +:+ newline +:+ b) with (String c (a +:+ newline +:+ b)).
  cbn [split_lines]. rewrite IH. destruct (code c =? 10)%N; [done|].
  pose proof (split_lines_nonempty a) as Hne.
  destruct (split_lines a) as [|l ls]; done.
Qed.

Lemma toString_newline_aux n : forall a b,
  String.length a <= n ->
  toString (a +:+ newline +:+ b) = toString a +:+ newline +:+ toString b.
Proof.
  induction n as [|n IH]; intros a b Hlen.
  { destruct a; [done|simpl in Hlen; lia]. }
  destruct a as [|b0 r0]; [done|]. simpl in Hlen.
  change (String b0 r0 +:+ newline +:+ b) with (String b0 (r0 +:+ newline +:+ b)).
  cbn [toString].
  destruct (code b0 <? 128)%N.
  { rewrite IH by lia. done. }
  destruct (utf8_lead (code b0)) as [[[|k] lo] hi] eqn:Hlead.
  { rewrite IH by lia. by rewrite ?append_assoc. }
  pose proof (lead_range _ _ _ _ Hlead) as Hrange.
  destruct r0 as [|b1 r1].
  { change ("" +:+ newline +:+ b) with (String (chr 10) b). cbn iota.
    change (code (chr 10)) with 10%N. rewrite Hrange. cbn [negb].
    by rewrite toString_nl. }
  simpl in Hlen.
  change (String b1 r1 +:+ newline +:+ b) with (String b1 (r1 +:+ newline +:+ b)).
  cbn iota. destruct (negb (between lo (code b1) hi)).
  { change (String b1 (r1 +:+ newline +:+ b)) with (String b1 r1 +:+ newline +:+ b).
    rewrite IH by (simpl; lia). by rewrite ?append_assoc. }
  destruct k as [|k].
  { rewrite IH by lia. done. }
  destruct r1 as [|b2 r2].
  { change ("" +:+ newline +:+ b) with (String (chr 10) b). cbn iota.
    rewrite newline_not_cont. cbn [negb]. by rewrite toString_nl. }
  simpl in Hlen.
  change (String b2 r2 +:+ newline +:+ b) with (String b2 (r2 +:+ newline +:+ b)).
  cbn iota. destruct (negb (is_cont b2)).
  { change (String b2 (r2 +:+ newline +:+ b)) with (String b2 r2 +:+ newline +:+ b).
    rewrite IH by (simpl; lia). by rewrite ?append_assoc. }
  destruct k as [|k].
  { rewrite IH by lia. done. }
  destruct r2 as [|b3 r3].
  { change ("" +:+ newline +:+ b) with (String (chr 10) b). cbn iota.
    rewrite newline_not_cont. cbn [negb]. by rewrite toString_nl. }
  simpl in Hlen.
  change (String b3 r3 +:+ newline +:+ b) with (String b3 (r3 +:+ newline +:+ b)).
  cbn iota. destruct (negb (is_cont b3)).
  { change (String b3 (r3 +:+ newline +:+ b)) with (String b3 r3 +:+ newline +:+ b).
    rewrite IH by (simpl; lia). by rewrite ?append_assoc. }
  rewrite IH by lia. done.
Qed.

Lemma toString_newline a b :
  toString (a +:+ newline +:+ b) = toString a +:+ newline +:+ toString b.
Proof. by apply (toString_newline_aux (String.length a)). Qed.

End LinesFacts.

Module LinesProperties.
Import JS Splitter LinesSpec LinesFacts.

(** X10.  A chunk cut at a line break is handled like the text in one
    piece: the bytes before the break, the break and the bytes after it
    give the state that the chunk up to the break and then the chunk after
    it give; and a break at the end of a chunk adds nothing. *)
Theorem chunk_cut_at_line_break (now : Z) (a b : string) (st : Splitter) :
  processChunk now (a +:+ newline +:+ b) st
  = processChunk now b (processChunk now (a +:+ newline) st) ∧
  processChunk now (a +:+ newline) st = processChunk now a st.
Proof.
  assert (processChunk now (a +:+ newline) st = processChunk now a st) as Hend.
  { unfold processChunk. change (a +:+ newline) with (a +:+ newline +:+ "").
    rewrite toString_newline, split_lines_app, foldl_app. done. }
  split; [|done]. rewrite Hend. unfold processChunk.
  by rewrite toString_newline, split_lines_app, foldl_app.
Qed.

End LinesProperties.

(** ** The coordinator: the life of a request *)

Module RequestLifeFacts.
Import JS Coordinator JsMapFacts ListFacts SortFacts CoordinatorFacts CoordinatorSteps SortSpec
  CoordinatorSpec RequestLifeSpec.

#[local] Arguments response_name : simpl never.

Lemma ears_snoc u r w ls st :
  listeners st = ls ++ [(response_name r, w)] -> r ≠ u ->
  ears u st = filter (fun nw : string * Waiter => String.eqb nw.1 (response_name u)) ls.
Proof.
  intros Hl Hne. unfold ears. rewrite Hl, filter_app, filter_cons_bool. cbn [fst].
  rewrite response_name_eqb. rewrite (proj2 (String.eqb_neq r u)) by done.
  rewrite filter_nil. apply app_nil_r.
Qed.

Lemma filter_filter_other u r (ls : list (string * Waiter)) :
  r ≠ u ->
  filter (fun nw : string * Waiter => String.eqb nw.1 (response_name u))
    (filter (fun nw : string * Waiter => negb (String.eqb nw.1 (response_name r))) ls)
  = filter (fun nw : string * Waiter => String.eqb nw.1 (response_name u)) ls.
Proof.
  intros Hne. induction ls as [|[n w] ls IH]; [done|].
  rewrite !filter_cons_bool. cbn [fst].
  destruct (String.eqb_spec n (response_name r)) as [->|Hn]; cbn [negb].
  - rewrite response_name_eqb, (proj2 (String.eqb_neq r u)) by done. exact IH.
  - rewrite filter_cons_bool. cbn [fst]. by rewrite IH.
Qed.

(** A step that neither draws [u] nor answers [u] leaves the listeners of
    [u]. *)
Lemma step_ears u o st :
  u ∉ drawn [o] -> (forall response, o ≠ do_respondToRequest u response) ->
  ears u (step o st) = ears u st.
Proof.
  intros Hu Hresp.
  assert (forall uuid, drawn [o] = [uuid] -> ears u (step o st) = ears u st) as Hdraw.
  { intros uuid Hd.
    assert (uuid ≠ u) as Hne by (intros ->; apply Hu; rewrite Hd; by left).
    destruct (request_made o uuid st Hd) as (q & _ & [->|[->|[->| ->]]]); try done.
    - by apply (ears_snoc u uuid (approval_waiter uuid) (listeners st)).
    - by apply (ears_snoc u uuid (attention_waiter uuid) (listeners st)). }
  destruct o as [a policy|uuid now msg|uuid now msg|r response|t|l]; cbn [step].
  - done.
  - by apply (Hdraw uuid).
  - by apply (Hdraw uuid).
  - assert (r ≠ u) as Hne by (intros ->; by apply (Hresp response)).
    unfold respondToRequest. destruct (JsMap.has r (pendingRequests st)); [|done].
    unfold ears. rewrite emit_response_listeners. by apply filter_filter_other.
  - unfold ears, advance. by rewrite fires_listeners.
  - done.
Qed.

(** The response to a request that one listener waits for. *)
Lemma respond_heard u w q ds response st :
  waiter_id w = u ->
  about u st = (Some q, ds, []) -> (w = attention_waiter u -> ds = []) ->
  ears u st = [(response_name u, w)] ->
  about u (respondToRequest u response st) = (None, [], [response]).
Proof.
  intros Hw Ha Hds Hears. unfold about in Ha. injection Ha as Hp Ht Hr.
  unfold respondToRequest.
  assert (JsMap.has u (pendingRequests st) = true) as -> by (apply has_true; by eexists).
  unfold emit_response. unfold ears in Hears. rewrite Hears. cbn [foldl snd].
  set (st1 := with_listeners _ _).
  assert (pendingRequests st1 = pendingRequests st ∧ timers st1 = timers st ∧
          resolutions u st1 = resolutions u st) as (Hp1 & Ht1 & Hr1) by done.
  assert (resolutions u (call w response st1) = [response]) as Hres.
  { destruct w as [r|r]; cbn [waiter_id] in Hw; subst r; cbn [call].
    all: rewrite resolutions_resolve, String.eqb_refl.
    all: change (resolutions u st1 ++ [response] = [response]); by rewrite Hr1, Hr. }
  assert (JsMap.get u (pendingRequests (call w response st1)) = None) as Hgone.
  { destruct w as [r|r]; cbn [waiter_id] in Hw; subst r; cbn [call].
    all: unfold resolve, with_pendingRequests, with_timers; cbn [pendingRequests].
    all: apply get_delete_eq. }
  assert (timers_of u (timers (call w response st1)) = []) as Hquiet.
  { destruct w as [r|r]; cbn [waiter_id] in Hw; subst r; cbn [call].
    all: unfold resolve, with_pendingRequests, with_timers; cbn [timers].
    - by rewrite timers_of_delete, decide_True.
    - rewrite Ht1, Ht. by apply Hds. }
  unfold about. by rewrite Hres, Hgone, Hquiet.
Qed.

Lemma responses_cons u o ops : responses u (o :: ops) = responses u [o] ++ responses u ops.
Proof. unfold responses. change (o :: ops) with ([o] ++ ops). by rewrite omap_app. Qed.

Lemma drawn_one o u : u ∈ drawn [o] -> drawn [o] = [u].
Proof.
  destruct o; unfold drawn; simpl; intros Hin; try by apply elem_of_nil in Hin.
  all: by apply list_elem_of_singleton in Hin as ->.
Qed.

(** A step that does not draw [u] moves the request along its life. *)
Lemma step_life u given o st :
  named st -> u ∉ drawn [o] -> life u given st ->
  life u (given ++ responses u [o]) (step o st).
Proof.
  intros Hn Hu [[Hidle Hun]|[(q & d & Ha & He)|[(q & Ha & He)|(v & Ha & Hv)]]].
  - left. destruct (step_idle u o st Hn Hidle Hun Hu) as [Ha' Hun']. split; [|done].
    rewrite Ha'. exact Hidle.
  - assert ((exists response, o = do_respondToRequest u response) ∨
            (exists t, o = do_advance t) ∨
            ((forall response, o ≠ do_respondToRequest u response) ∧
             forall t, o ≠ do_advance t)) as [[response ->]|[[t ->]|[Hresp Hadv]]].
    { destruct o as [| | |r response|t|]; try (right; right; split; intros; discriminate).
      - destruct (decide (r = u)) as [->|Hne]; [left; by eexists|].
        right; right. split; [|intros; discriminate]. intros response' [= ? ?]. done.
      - right; left. by eexists. }
    + right; right; right. exists response. split.
      * apply (respond_heard u (approval_waiter u) q [(u, d)]); try done.
      * right. apply elem_of_app. right. unfold responses. simpl.
        rewrite String.eqb_refl. by left.
    + unfold about in Ha. pose proof Ha as Ha'. injection Ha' as _ Ht Hr. cbn [step].
      destruct (Z.lt_ge_cases t d) as [Hearly|Hdue].
      * destruct (advance_early u t (u, d) st Ht Hearly) as [Hab Hl].
        right; left. exists q, d. split; [by rewrite Hab|]. unfold ears. cbn [step].
        by rewrite Hl.
      * destruct (advance_due u t (u, d) st Ht Hdue) as [Hab _].
        right; right; right. exists timeout_answer. cbn [step]. rewrite Hab, Hr.
        split; [done|by left].
    + right; left. exists q, d. destruct (step_other u o st Hn Hu Hresp Hadv) as [-> _].
      split; [done|]. by rewrite step_ears.
  - assert ((exists response, o = do_respondToRequest u response) ∨
            (exists t, o = do_advance t) ∨
            ((forall response, o ≠ do_respondToRequest u response) ∧
             forall t, o ≠ do_advance t)) as [[response ->]|[[t ->]|[Hresp Hadv]]].
    { destruct o as [| | |r response|t|]; try (right; right; split; intros; discriminate).
      - destruct (decide (r = u)) as [->|Hne]; [left; by eexists|].
        right; right. split; [|intros; discriminate]. intros response' [= ? ?]. done.
      - right; left. by eexists. }
    + right; right; right. exists response. split.
      * apply (respond_heard u (attention_waiter u) q []); try done.
      * right. apply elem_of_app. right. unfold responses. simpl.
        rewrite String.eqb_refl. by left.
    + unfold about in Ha. pose proof Ha as Ha'. injection Ha' as _ Ht Hr. cbn [step].
      destruct (advance_other u t st Ht) as [Hab Hl].
      right; right; left. exists q. cbn [step]. split; [by rewrite Hab|].
      unfold ears. by rewrite Hl.
    + right; right; left. exists q. destruct (step_other u o st Hn Hu Hresp Hadv) as [-> _].
      split; [done|]. by rewrite step_ears.
  - right; right; right. exists v.
    assert (v = timeout_answer ∨ v ∈ given ++ responses u [o]) as Hv'.
    { destruct Hv as [->|Hv]; [by left|right; apply elem_of_app; by left]. }
    split; [|done]. unfold about in Ha. pose proof Ha as Ha'. injection Ha' as Hp Ht Hr.
    destruct o as [a policy|uuid now msg|uuid now msg|r response|t|l].
    + done.
    + destruct (step_other u (do_handleDecision uuid now msg) st Hn Hu) as [-> _]; done.
    + destruct (step_other u (do_requestHumanAttention uuid now msg) st Hn Hu) as [-> _]; done.
    + destruct (decide (r = u)) as [->|Hne].
      * cbn [step]. unfold respondToRequest.
        by rewrite (proj2 (has_false u (pendingRequests st)) Hp).
      * destruct (step_other u (do_respondToRequest r response) st Hn Hu) as [-> _];
          try done. intros response' [= ? ?]. done.
    + cbn [step]. by destruct (advance_other u t st Ht) as [-> _].
    + done.
Qed.

(** The step that draws [u] for a request. *)
Lemma draw_life u given o st :
  named st -> u ∈ drawn [o] -> about u st = (None, [], []) -> unheard u st ->
  life u given (step o st).
Proof.
  intros Hn Hu Ha Hun. unfold about in Ha. pose proof Ha as Ha'. injection Ha' as Hp Ht Hr.
  destruct (unheard_listeners u (listeners st) Hn Hun) as [Hnone _].
  assert (forall w, waiter_id w = u ->
            filter (fun nw : string * Waiter => String.eqb nw.1 (response_name u))
              (listeners st ++ [(response_name u, w)]) = [(response_name u, w)]) as Hears.
  { intros w Hw. rewrite filter_app, Hnone, filter_cons_bool. cbn [fst].
    by rewrite String.eqb_refl. }
  unfold resolutions in Hr.
  destruct (request_made o u st (drawn_one o u Hu)) as (q & Hq & [->|[->|[->| ->]]]).
  - left. split; [|done]. unfold about, announced, resolutions. simpl. by rewrite Ht, Hr.
  - right; left. eexists _, _. split; [|by apply Hears].
    unfold about, announced, resolutions. simpl.
    by rewrite Hq, get_set_eq, timers_of_snoc, Ht, decide_True, Hr.
  - right; right; left. eexists. split; [|by apply Hears].
    unfold about, announced, resolutions. simpl. by rewrite Hq, get_set_eq, Ht, Hr.
  - left. split; [|done]. unfold about, resolutions. simpl. by rewrite Ht, Hr.
Qed.

Lemma run_life u ops : forall given st,
  NoDup (drawn ops) -> named st -> life u given st ->
  (u ∈ drawn ops -> about u st = (None, [], []) ∧ unheard u st) ->
  life u (given ++ responses u ops) (run ops st).
Proof.
  induction ops as [|o ops IH]; intros given st Hnd Hn Hlife Hnew.
  { by rewrite app_nil_r. }
  rewrite drawn_cons in Hnd, Hnew. apply NoDup_app in Hnd as (_ & Hdisj & Hnd).
  rewrite responses_cons, app_assoc.
  change (run (o :: ops) st) with (run ops (step o st)).
  destruct (decide (u ∈ drawn [o])) as [Hu|Hu].
  - destruct Hnew as [Ha Hun]; [apply elem_of_app; by left|].
    apply IH; [done|by apply named_step|by apply draw_life|].
    intros Hin. by destruct (Hdisj u Hu).
  - apply IH; [done|by apply named_step|by apply step_life|].
    intros Hin. destruct Hnew as [Ha Hun]; [apply elem_of_app; by right|].
    destruct (step_idle u o st Hn) as [Ha' Hun']; try done; [by rewrite Ha|].
    split; [congruence|done].
Qed.


End RequestLifeFacts.

Module RequestLifeProperties.
Import JS Coordinator JsMapFacts ListFacts SortFacts CoordinatorFacts CoordinatorSteps SortSpec
  CoordinatorSpec RequestLifeSpec RequestLifeFacts.

(** X11.  Whatever is done to a coordinator, each call drawing a UUID of its
    own: the promise of a request is resolved at most once; what it is
    resolved with is the timeout answer or a response the human gave to
    this request; and a request that is resolved is out of the pending
    table and has no timer left. *)
Theorem request_is_resolved_at_most_once (ops : list Op) (u : string) :
  NoDup (drawn ops) ->
  let st := run ops new in
  length (resolutions u st) <= 1 ∧
  forall v, v ∈ resolutions u st ->
    (v = timeout_answer ∨ v ∈ responses u ops) ∧
    JsMap.get u (pendingRequests st) = None ∧ timers_of u (timers st) = [].
Proof.
  intros Hnd st.
  assert (life u ([] ++ responses u ops) st) as Hlife.
  { apply run_life; [done|apply new_named| |intros _; apply new_idle].
    left. destruct (new_idle u) as [Ha Hun]. split; [by rewrite Ha|done]. }
  rewrite app_nil_l in Hlife. unfold life, about in Hlife.
  destruct Hlife as [[Hidle _]|[(q & d & Ha & _)|[(q & Ha & _)|(v & Ha & Hv)]]].
  - injection Hidle as _ Hr. rewrite Hr. split; [simpl; lia|].
    intros v Hin. by apply elem_of_nil in Hin.
  - injection Ha as _ _ Hr. rewrite Hr. split; [simpl; lia|].
    intros v Hin. by apply elem_of_nil in Hin.
  - injection Ha as _ _ Hr. rewrite Hr. split; [simpl; lia|].
    intros v Hin. by apply elem_of_nil in Hin.
  - injection Ha as Hp Ht Hr. rewrite Hr. split; [simpl; lia|].
    intros v' Hin. apply list_elem_of_singleton in Hin as ->. done.
Qed.

Lemma request_is_resolved_at_most_once_witness :
  length (resolutions "r1"
            (run [do_setAgentPolicy "agent-1" careful; do_handleDecision "r1" 10 deploy;
                  do_respondToRequest "r1" (JBool true); do_advance 40000;
                  do_respondToRequest "r1" (JBool false)] new)) <= 1.
Proof.
  assert (NoDup (drawn [do_setAgentPolicy "agent-1" careful; do_handleDecision "r1" 10 deploy;
                        do_respondToRequest "r1" (JBool true); do_advance 40000;
                        do_respondToRequest "r1" (JBool false)])) as Hnd.
  { vm_compute. apply NoDup_singleton. }
  exact (proj1 (request_is_resolved_at_most_once _ "r1" Hnd)).
Defined.

(** The approval of the witness is given before the timer is due: the
    promise holds the human's answer, and neither the timer nor a second
    answer changes it. *)
Example first_answer_stands :
  resolutions "r1"
    (run [do_setAgentPolicy "agent-1" careful; do_handleDecision "r1" 10 deploy;
          do_respondToRequest "r1" (JBool true); do_advance 40000;
          do_respondToRequest "r1" (JBool false)] new)
  = [JBool true].
Proof. by vm_compute. Qed.



(** X27.  When a listener of [human:request] throws as a request for
    approval or for the human's attention is announced, the call is
    rejected with what the listener threw, and the request is left in the
    pending table without a timer and without a listener for its response:
    whatever happens afterwards, responses to it and the passing of time
    included, its promise is never resolved and it stays in the table. *)
Theorem request_is_stuck_when_a_listener_throws (before after : list Op) (uuid thrown : string)
    (now : Z) (msg : Decision) (approval : bool) :
  uuid ∉ drawn before -> uuid ∉ drawn after ->
  let st0 := run before new in
  let q := if approval then approval_of uuid now msg else input_of uuid now msg in
  let call := if approval then requestHumanApproval uuid now msg st0
              else requestHumanAttention uuid now msg st0 in
  thrown_on (human_request q) st0 = Some thrown ->
  call.2 = failed thrown ∧
  JsMap.get uuid (pendingRequests (run after call.1)) = Some q ∧
  timers_of uuid (timers (run after call.1)) = [] ∧
  unheard uuid (run after call.1) ∧
  resolutions uuid (run after call.1) = [].
Proof.
  intros Hbefore Hafter st0 q call Hthrown.
  destruct (run_fresh uuid before Hbefore) as [Ha0 Hun0]. fold st0 in Ha0, Hun0.
  assert (named st0) as Hn0 by apply run_named, new_named.
  assert (call = (announced q st0, failed thrown)) as ->.
  { subst q call. destruct approval.
    - destruct (requestHumanApproval_cases uuid now msg st0) as [(e & He & ->)|[Hq _]].
      + cbv zeta in He. congruence.
      + apply quiet_thrown_on in Hq. cbv zeta in Hq. congruence.
    - destruct (requestHumanAttention_cases uuid now msg st0) as [(e & He & ->)|[Hq _]].
      + cbv zeta in He. congruence.
      + apply quiet_thrown_on in Hq. cbv zeta in Hq. congruence. }
  cbn [fst snd]. split; [done|].
  assert (id q = uuid) as Hid by (unfold q; by destruct approval).
  assert (about uuid (announced q st0) = (Some q, [], [])) as Ha1.
  { unfold about in *. injection Ha0 as _ Ht Hr. unfold announced. simpl.
    rewrite Hid, get_set_eq. unfold resolutions in *. simpl. by rewrite Ht, Hr. }
  destruct (run_idle uuid after (announced q st0)) as [Ha2 Hun2]; try done; [by rewrite Ha1|].
  rewrite Ha1 in Ha2. unfold about in Ha2. by injection Ha2 as -> -> ->.
Qed.

Lemma request_is_stuck_when_a_listener_throws_witness :
  JsMap.get "r1"
    (pendingRequests
       (run [do_respondToRequest "r1" (JBool true); do_advance 1000000]
          (requestHumanAttention "r1" 10 stuck (run [do_on nervous] new)).1))
  = Some (input_of "r1" 10 stuck).
Proof.
  assert ("r1" ∉ drawn [do_on nervous]) as Hbefore by apply not_elem_of_nil.
  assert ("r1" ∉ drawn [do_respondToRequest "r1" (JBool true); do_advance 1000000]) as Hafter
    by apply not_elem_of_nil.
  exact (proj1 (proj2
           (request_is_stuck_when_a_listener_throws [do_on nervous] _ "r1" "no display" 10 stuck
              false Hbefore Hafter eq_refl))).
Defined.



End RequestLifeProperties.

(** ** The router: the routes of a topic *)

Module RoutesFacts.
Import JS Router JsMapFacts SortSpec SortFacts RouterSpec RouterFacts RoutesSpec.

Lemma added_snoc topic steps s : added topic (steps ++ [s]) = added topic steps ++ added topic [s].
Proof. unfold added. by rewrite omap_app. Qed.

Lemma loop_routes now st : routes (loop now st) = routes st.
Proof. unfold loop. by destruct (messageQueue st) as [|[m t] q]. Qed.

Lemma step_routes s st :
  (forall topic config, s ≠ add topic config) -> routes (step s st) = routes st.
Proof.
  intros Hs. destruct s as [topic config|now data|now w i|now w]; simpl.
  - by destruct (Hs topic config).
  - unfold on_route_message. simpl. destruct (processing st); simpl; [done|].
    unfold processQueue. by rewrite loop_routes.
  - destruct (waiting st !! w) as [tasks|]; [|done].
    destruct (tasks !! i) as [t|]; [|done].
    by destruct (handleRoute_settled_frame now t
                   (with_waiting (<[w := base.delete i tasks]> (waiting st)) st)) as [-> _].
  - destruct (waiting st !! w) as [[|t tasks]|]; try done. by rewrite loop_routes.
Qed.

Lemma sorted_by_priority l :
  StronglySorted by_priority
    (js_sort (fun a b : RouteConfig => (priority_or_0 b - priority_or_0 a)%Z) l).
Proof.
  eapply StronglySorted_weaken; [|apply js_sort_sorted].
  - intros a b. unfold in_order, by_priority. lia.
  - intros a b. unfold in_order. lia.
  - intros a b c. unfold in_order. lia.
Qed.

Lemma step_routes_of topic s st before :
  routes_of topic st ≡ₚ added topic before ∧
  StronglySorted by_priority (routes_of topic st) ->
  routes_of topic (step s st) ≡ₚ added topic (before ++ [s]) ∧
  StronglySorted by_priority (routes_of topic (step s st)).
Proof.
  intros [Hperm Hsorted]. rewrite added_snoc. unfold routes_of in *.
  destruct s as [t config|now data|now w i|now w].
  2-4: rewrite step_routes by (intros; discriminate); unfold added; simpl;
       by rewrite app_nil_r.
  cbn [step]. unfold addRoute, emit, with_routes. cbn [routes].
  unfold added at 2. cbn [omap list_omap].
  destruct (String.eqb_spec t topic) as [->|Hne].
  - rewrite get_set_eq. cbn [default from_option id]. split; [|apply sorted_by_priority].
    rewrite js_sort_perm. by apply Permutation_app.
  - rewrite get_set_ne, app_nil_r by done. done.
Qed.

Lemma run_routes_of topic steps : forall st before,
  routes_of topic st ≡ₚ added topic before ∧
  StronglySorted by_priority (routes_of topic st) ->
  routes_of topic (run steps st) ≡ₚ added topic (before ++ steps) ∧
  StronglySorted by_priority (routes_of topic (run steps st)).
Proof.
  induction steps as [|s steps IH]; intros st before Hinv.
  - by rewrite app_nil_r.
  - change (run (s :: steps) st) with (run steps (step s st)).
    replace (before ++ s :: steps) with ((before ++ [s]) ++ steps)
      by (by rewrite <- app_assoc).
    apply IH. by apply step_routes_of.
Qed.

End RoutesFacts.

Module RoutesProperties.
Import JS Router JsMapFacts SortSpec SortFacts RouterSpec RouterFacts RoutesSpec RoutesFacts.

(** X14.  Whatever happens to a router, the list of a topic holds the
    configurations [addRoute] was given for the topic, each as often as it
    was given, with no configuration of a higher priority behind one of a
    lower priority (a missing priority counts as zero). *)
Theorem routes_are_kept_by_priority (nodeId topic : string) (steps : list Step) :
  let st := run steps (new nodeId) in
  routes_of topic st ≡ₚ added topic steps ∧
  StronglySorted by_priority (routes_of topic st).
Proof.
  apply (run_routes_of topic steps (new nodeId) []). split; [done|constructor].
Qed.

(** Three routes added with priorities 1, missing and 5, a message between
    them: the list is 5, 1, missing. *)
Example routes_in_order :
  priority <$> routes_of "t"
    (run [add "t" (prio 1); add "t" working; deliver 0 (job 1); add "t" (prio 5)] (new "r"))
  = [Some 5%Z; Some 1%Z; None].
Proof. by vm_compute. Qed.

End RoutesProperties.

Module ReplyProperties.
Import JS RequestReply JsMapFacts RequestReplyFacts RequestReplyInvariant RequestReplySpec
  RoutesSpec.

(** X15.  When the handler of a request fails, the [catch] block of
    [onRequest] reads the message of the reason.  For any reason but
    [undefined] and [null], the reply carries the message and no result,
    and the listener of the request resolves its promise with the reply's
    missing result: the promise is fulfilled with [undefined], not
    rejected.  For [undefined] and [null], reading the message throws and
    no reply is sent: the promise stays pending, and it is rejected with
    the timeout error when its timer fires.  This on a node whose requests
    drew distinct UUIDs, for a request whose promise is pending. *)
Theorem failing_handler_resolves_the_request (nodeId : string) (steps : list Step)
    (i : nat) (replyTo r : string) (reason : JsVal) :
  NoDup (requested steps) ->
  let st := run steps (new nodeId) in
  calls st !! i = Some (replyTo, r, Router.Rejected reason) ->
  settled r st = [] ->
  match reason with
  | None | Some JNull =>
      settled r (handler_settles i st) = [] ∧
      settled r (timer_fires r (handler_settles i st))
      = [Router.Rejected (Some (JObj [("message", JStr "Request timeout")]))]
  | Some _ => settled r (handler_settles i st) = [Router.Fulfilled None]
  end.
Proof.
  intros Hnd st Hcall Hpending.
  assert (node_ok (requested steps) st) as Hok.
  { eapply node_ok_more.
    - apply (run_ok steps [] (new nodeId)); [apply new_node_ok|done|].
      intros r' _ Hr. by apply elem_of_nil in Hr.
    - intros r'. by rewrite app_nil_r. }
  assert (replyTo = reply_topic r ∧ r ∈ requested steps) as [-> Hused].
  { apply (proj1 (Forall_forall _ _) (ok_calls _ st Hok) (replyTo, r, Router.Rejected reason)).
    by apply list_elem_of_lookup_2 in Hcall. }
  pose proof (ok_live _ st Hok r Hused Hpending) as Hin.
  set (st1 := with_calls (base.delete i (calls st)) st).
  assert (node_ok (requested steps) st1) as Hok1.
  { destruct Hok. split; try done. simpl.
    apply Forall_forall. intros c Hc. apply list_elem_of_delete_inv in Hc.
    by apply (proj1 (Forall_forall _ _) ok_calls0). }
  assert (forall m, Router.error_message reason = Some m ->
            settled r (handler_settles i st) = [Router.Fulfilled None]) as Hreply.
  { intros m Hm. unfold handler_settles. rewrite Hcall, Hm. fold st1.
    destruct (node_emit_reply r (reply_error m r) st1
                (ok_placed _ st1 Hok1) (ok_waiters _ st1 Hok1)) as [[_ Hret]|[Hout _]];
      [|done].
    by destruct (retired_ok _ r _ st1 _ Hok1 Hin Hret) as (_ & -> & _). }
  assert (Router.error_message reason = None ->
          settled r (handler_settles i st) = [] ∧
          settled r (timer_fires r (handler_settles i st))
          = [Router.Rejected (Some (JObj [("message", JStr "Request timeout")]))]) as Hnone.
  { intros Hm. unfold handler_settles. rewrite Hcall, Hm. fold st1. split; [done|].
    assert (r ∈ JsMap.keys (timers st1)) as Htimer by (by apply (ok_same _ st1 Hok1)).
    pose proof (timer_fires_retired _ r st1 Hok1 Htimer) as Hret.
    by destruct (retired_ok _ r _ st1 _ Hok1 Hin Hret) as (_ & -> & _). }
  destruct reason as [[]|]; try (by apply Hnone); by eapply Hreply.
Qed.

(** Two requests: the handler of the first fails with an [Error], the
    handler of the second with no reason. *)
Lemma failing_handler_resolves_the_request_witness :
  let st := run [do_onRequest "ask" refuse; do_onRequest "beg" refuse_without_reason;
                 do_request "ask" (Some (JNum 1 0)) 5000 "id-1";
                 do_request "beg" (Some (JNum 2 0)) 5000 "id-2"] (new "n") in
  settled "id-1" (handler_settles 0 st) = [Router.Fulfilled None] ∧
  settled "id-2" (handler_settles 1 st) = [] ∧
  settled "id-2" (timer_fires "id-2" (handler_settles 1 st))
  = [Router.Rejected (Some (JObj [("message", JStr "Request timeout")]))].
Proof.
  intros st.
  assert (NoDup (requested [do_onRequest "ask" refuse; do_onRequest "beg" refuse_without_reason;
                            do_request "ask" (Some (JNum 1 0)) 5000 "id-1";
                            do_request "beg" (Some (JNum 2 0)) 5000 "id-2"])) as Hnd.
  { apply (NoDup_cons_2 "id-1"); [|apply NoDup_singleton].
    intros Hin%list_elem_of_singleton. discriminate. }
  split.
  - exact (failing_handler_resolves_the_request "n" _ 0 (reply_topic "id-1") "id-1"
             (Some (error_of "no")) Hnd eq_refl eq_refl).
  - exact (failing_handler_resolves_the_request "n" _ 1 (reply_topic "id-2") "id-2"
             None Hnd eq_refl eq_refl).
Defined.

End ReplyProperties.

(** ** The multiplexer: what the agents write *)

Module AgentOutputFacts.
Import JS AgentOutput AgentOutputSpec.

Lemma emit_quiet ev st :
  Forall (fun l : Listener => forall ev, l ev = None) (listeners st) ->
  emit ev st = ({| messageBuffer := messageBuffer st; streamHandlers := streamHandlers st;
                   listeners := listeners st; emitted := emitted st ++ [ev];
                   streamed := streamed st |}, None).
Proof.
  intros Hq. unfold emit. f_equal.
  induction Hq as [|l ls Hl _ IH]; [done|]. simpl. by rewrite Hl.
Qed.

Lemma output_eq (a b : Output) :
  messageBuffer a = messageBuffer b -> streamHandlers a = streamHandlers b ->
  listeners a = listeners b -> emitted a = emitted b -> streamed a = streamed b -> a = b.
Proof. destruct a, b; simpl; congruence. Qed.

Lemma buffer_same (m : gmap string (list Received)) a :
  m = match m !! a with Some b => <[a := b ++ []]> m | None => m end.
Proof. destruct (m !! a) as [b|] eqn:Hb; [|done]. by rewrite app_nil_r, insert_id. Qed.

Lemma handleLine_quiet a now line st :
  quiet st -> handleLine a now line st = (after_lines a (fun _ => now) [line] st, None).
Proof.
  intros [Hl Hh]. unfold handleLine, try_line, after_lines.
  cbn [messages imap omap list_omap]. unfold event_of, received, stream_chunk_of.
  destruct (JSON_parse line) as [parsed|].
  2:{ rewrite emit_quiet by done. f_equal. apply output_eq; cbn; try done.
      - apply buffer_same.
      - by destruct (streamHandlers st !! a); rewrite ?app_nil_r. }
  destruct (prop parsed "type") as [ty|].
  2:{ rewrite emit_quiet by done. f_equal. apply output_eq; cbn; try done.
      - apply buffer_same.
      - by destruct (streamHandlers st !! a); rewrite ?app_nil_r. }
  set (msg := {| agentId := a |}).
  assert (listeners (push a msg st) = listeners st ∧
          streamHandlers (push a msg st) = streamHandlers st ∧
          emitted (push a msg st) = emitted st ∧ streamed (push a msg st) = streamed st ∧
          messageBuffer (push a msg st)
          = match messageBuffer st !! a with
            | Some b => <[a := b ++ [msg]]> (messageBuffer st)
            | None => messageBuffer st
            end) as (Hpl & Hph & Hpe & Hps & Hpb).
  { unfold push. by destruct (messageBuffer st !! a). }
  rewrite emit_quiet by (by rewrite Hpl). rewrite Hpl, Hph, Hpe, Hps, Hpb.
  destruct (is_stream ty).
  - cbn [streamHandlers]. destruct (streamHandlers st !! a) as [h|] eqn:Hhandler.
    + rewrite (Hh a h Hhandler). by f_equal.
    + f_equal. apply output_eq; cbn; try done. by rewrite app_nil_r.
  - f_equal. apply output_eq; cbn; try done.
    by destruct (streamHandlers st !! a); rewrite app_nil_r.
Qed.

Lemma after_lines_quiet a clock lines st : quiet st -> quiet (after_lines a clock lines st).
Proof. by intros [? ?]. Qed.

Lemma after_lines_cons a clock line rest st :
  after_lines a (fun i => clock (S i)) rest (after_lines a (fun _ => clock 0) [line] st)
  = after_lines a clock (line :: rest) st.
Proof.
  apply output_eq; unfold after_lines; cbn [messageBuffer streamHandlers listeners emitted
    streamed messages imap omap list_omap].
  - destruct (messageBuffer st !! a) as [b|] eqn:Hb; [|by rewrite Hb].
    rewrite lookup_insert_eq, insert_insert_eq.
    destruct (received a (clock 0) line); by rewrite <- ?app_assoc, ?app_nil_r.
  - done.
  - done.
  - by rewrite <- app_assoc.
  - destruct (streamHandlers st !! a); [|by rewrite app_nil_r].
    rewrite <- app_assoc. f_equal. destruct (stream_chunk_of line); done.
Qed.

Lemma handleLines_quiet a lines : forall clock st,
  quiet st -> handleLines a clock lines st = (after_lines a clock lines st, None).
Proof.
  induction lines as [|line rest IH]; intros clock st Hq.
  - simpl. f_equal. apply output_eq; unfold after_lines; cbn; try done.
    + apply buffer_same.
    + by rewrite app_nil_r.
    + by destruct (streamHandlers st !! a); rewrite app_nil_r.
  - cbn [handleLines]. rewrite handleLine_quiet by done.
    rewrite IH by by apply after_lines_quiet. by rewrite after_lines_cons.
Qed.

End AgentOutputFacts.

Module AgentOutputProperties.
Import JS AgentOutput AgentOutputSpec AgentOutputFacts.

(** X16.  When no listener and no stream handler throws,
    [handleAgentOutput] does not throw, and for the lines of the chunk that
    are not blank, in order: it emits [message:receive] for a line that is
    the JSON text of a value other than [null], with the parsed value as
    data and its [type] (or [response]) as type, and [agent:output] with the
    line itself for any other line; the messages are added to the agent's
    buffer when it has one, and only then; and the parsed lines of type
    [stream] are given to the agent's stream handler when one is set.  The
    buffers of the other agents stay as they are. *)
Theorem handleAgentOutput_reports_every_line (a : string) (clock : nat -> Z) (data : string)
    (st : Output) :
  quiet st ->
  let st' := (handleAgentOutput a clock data st).1 in
  (handleAgentOutput a clock data st).2 = None ∧
  emitted st' = emitted st ++ imap (fun i line => event_of a (clock i) line) (lines_of data) ∧
  messageBuffer st' !! a
  = (fun buffered => buffered ++ messages a clock (lines_of data)) <$> messageBuffer st !! a ∧
  (forall a', a' ≠ a -> messageBuffer st' !! a' = messageBuffer st !! a') ∧
  streamed st'
  = streamed st ++
    (if decide (is_Some (streamHandlers st !! a))
     then (fun chunk => (a, chunk)) <$> omap stream_chunk_of (lines_of data) else []) ∧
  listeners st' = listeners st ∧ streamHandlers st' = streamHandlers st.
Proof.
  intros Hq st'. unfold st', handleAgentOutput. fold (lines_of data).
  rewrite handleLines_quiet by done. cbn [fst snd]. unfold after_lines.
  cbn [messageBuffer streamHandlers listeners emitted streamed].
  split; [done|]. split; [done|]. split; [|split; [|split; [|done]]].
  - destruct (messageBuffer st !! a) as [b|] eqn:Hb; [|by rewrite Hb].
    by rewrite lookup_insert_eq.
  - intros a' Hne. destruct (messageBuffer st !! a) as [b|]; [|done].
    by rewrite lookup_insert_ne.
  - destruct (streamHandlers st !! a) as [h|].
    + by rewrite decide_True by (by eexists).
    + rewrite decide_False; [done|]. by intros [? ?].
Qed.

Lemma handleAgentOutput_reports_every_line_witness :
  emitted
    (handleAgentOutput "a" (fun i => Z.of_nat i)
       (dq "{'type':'stream','n':1}" +:+ String (chr 10) "not json" +:+ String (chr 10) "null")
       (setStreamHandler "a" sees_nothing (open_buffer "a" new))).1
  = [message_receive {| agentId := "a"; type := JStr "stream";
                        data := JObj [("type", JStr "stream"); ("n", JNum 1 0)];
                        timestamp := 0 |};
     agent_output "a" "not json"; agent_output "a" "null"].
Proof.
  assert (quiet (setStreamHandler "a" sees_nothing (open_buffer "a" new))) as Hq.
  { split; [constructor|]. intros a h Hh chunk.
    unfold setStreamHandler, open_buffer, with_streamHandlers, with_messageBuffer, new in Hh.
    cbn [streamHandlers] in Hh.
    apply lookup_insert_Some in Hh as [[_ <-]|[_ Hh]]; [done|].
    by rewrite lookup_empty in Hh. }
  exact (proj1 (proj2 (handleAgentOutput_reports_every_line "a" (fun i => Z.of_nat i) _ _ Hq))).
Defined.

(** X17.  When a [message:receive] listener throws on the message of a
    line (and none throws on [agent:output]), the line is handled twice:
    the message is in the agent's buffer and was emitted, and the line is
    emitted again as [agent:output]; the stream handler is not called, and
    the call goes on with the next line. *)
Theorem failing_listener_makes_the_line_output (a : string) (now : Z) (line thrown : string)
    (msg : Received) (st : Output) :
  received a now line = Some msg ->
  head (omap (fun l : Listener => l (message_receive msg)) (listeners st)) = Some thrown ->
  omap (fun l : Listener => l (agent_output a line)) (listeners st) = [] ->
  let st' := (handleLine a now line st).1 in
  (handleLine a now line st).2 = None ∧
  emitted st' = emitted st ++ [message_receive msg; agent_output a line] ∧
  messageBuffer st' !! a = (fun buffered => buffered ++ [msg]) <$> messageBuffer st !! a ∧
  streamed st' = streamed st.
Proof.
  intros Hrec Hthrow Hout st'. unfold st', handleLine, try_line. unfold received in Hrec.
  destruct (JSON_parse line) as [parsed|]; [|done].
  destruct (prop parsed "type") as [ty|]; [|done].
  injection Hrec as Hrec. rewrite Hrec.
  assert (listeners (push a msg st) = listeners st ∧
          emitted (push a msg st) = emitted st ∧ streamed (push a msg st) = streamed st ∧
          messageBuffer (push a msg st) !! a
          = (fun buffered => buffered ++ [msg]) <$> messageBuffer st !! a)
    as (Hpl & Hpe & Hps & Hpb).
  { unfold push. destruct (messageBuffer st !! a) as [b|] eqn:Hb.
    - cbn. by rewrite lookup_insert_eq.
    - by rewrite Hb. }
  unfold emit. cbn [fst snd listeners emitted streamed messageBuffer].
  rewrite Hpl, Hthrow. cbn [fst snd listeners emitted streamed messageBuffer].
  rewrite Hout, Hpe, Hps, Hpb, <- app_assoc. done.
Qed.

Lemma failing_listener_makes_the_line_output_witness :
  emitted (handleLine "a" 7 (dq "{'n':1}") (on fails (open_buffer "a" new))).1
  = [message_receive {| agentId := "a"; type := JStr "response";
                        data := JObj [("n", JNum 1 0)]; timestamp := 7 |};
     agent_output "a" (dq "{'n':1}")].
Proof.
  apply (failing_listener_makes_the_line_output "a" 7 (dq "{'n':1}") "listener failed"
           {| agentId := "a"; type := JStr "response"; data := JObj [("n", JNum 1 0)];
              timestamp := 7 |} (on fails (open_buffer "a" new))); reflexivity.
Defined.

End AgentOutputProperties.

(** ** The registry *)

Module RegistryFacts.
Import JS Registry JsMapFacts ListFacts RegistrySpec.

Lemma keys_append {K V} (m : list (K * V)) k v : JsMap.keys (m ++ [(k, v)]) = JsMap.keys m ++ [k].
Proof. unfold JsMap.keys. by rewrite fmap_app. Qed.

Lemma get_append_new {K V} `{EqDecision K} (m : list (K * V)) k v :
  k ∉ JsMap.keys m -> JsMap.get k (m ++ [(k, v)]) = Some v.
Proof.
  unfold JsMap.keys. induction m as [|[k' v'] m IH]; simpl; intros Hk.
  - by rewrite decide_True.
  - apply not_elem_of_cons in Hk as [Hne Hk]. rewrite decide_False by done. by apply IH.
Qed.

Lemma get_append_old {K V} `{EqDecision K} (m : list (K * V)) k k' v :
  k ≠ k' -> JsMap.get k' (m ++ [(k, v)]) = JsMap.get k' m.
Proof.
  intros Hne. induction m as [|[k0 v0] m IH]; simpl.
  - by rewrite decide_False.
  - by rewrite IH.
Qed.

Lemma new_registry_ok : registry_ok new.
Proof.
  split; simpl; try apply NoDup_nil_2; try done.
  intros h Hh. by apply elem_of_nil in Hh.
Qed.

(** The timer of a registered agent is set anew. *)
Lemma resetHeartbeatTimer_ok a now st :
  NoDup (JsMap.keys (agents st)) ->
  NoDup (JsMap.keys (heartbeatIntervals st)) -> NoDup (JsMap.keys (timers st)) ->
  (forall a', a' ≠ a -> JsMap.get a' (agents st) = None
                        <-> JsMap.get a' (heartbeatIntervals st) = None) ->
  is_Some (JsMap.get a (agents st)) ->
  (forall h a' due, JsMap.get h (timers st) = Some (a', due) ->
                    JsMap.get a' (heartbeatIntervals st) = Some h) ->
  (forall h, h ∈ JsMap.keys (timers st) -> h < next_timer st) ->
  (forall a' h, JsMap.get a' (heartbeatIntervals st) = Some h -> h < next_timer st) ->
  (forall a1 a2 h, JsMap.get a1 (heartbeatIntervals st) = Some h ->
                   JsMap.get a2 (heartbeatIntervals st) = Some h -> a1 = a2) ->
  registry_ok (resetHeartbeatTimer a now st).
Proof.
  intros Hna Hnh Hnt Hsame Hreg Hcur Hknown Hhk Hinj. unfold resetHeartbeatTimer.
  set (st1 := match JsMap.get a (heartbeatIntervals st) with
              | Some t => clearTimeout t st | None => st end).
  assert (agents st1 = agents st ∧ heartbeatIntervals st1 = heartbeatIntervals st ∧
          next_timer st1 = next_timer st ∧
          timers st1 = match JsMap.get a (heartbeatIntervals st) with
                       | Some t => JsMap.delete t (timers st)
                       | None => timers st
                       end) as (Ha1 & Hh1 & Hn1 & Ht1).
  { unfold st1. by destruct (JsMap.get a (heartbeatIntervals st)). }
  assert (forall h a' due, JsMap.get h (timers st1) = Some (a', due) ->
            a' ≠ a ∧ JsMap.get h (timers st) = Some (a', due)) as Hold.
  { intros h a' due. rewrite Ht1.
    destruct (JsMap.get a (heartbeatIntervals st)) as [t|] eqn:Ht.
    - destruct (decide (t = h)) as [->|Hne]; [by rewrite get_delete_eq|].
      rewrite get_delete_ne by done. intros Hget. split; [|done].
      intros ->. apply Hcur in Hget. congruence.
    - intros Hget. split; [|done]. intros ->. apply Hcur in Hget. congruence. }
  assert (forall h, h ∈ JsMap.keys (timers st1) -> h < next_timer st) as Hknown1.
  { intros h. rewrite Ht1. destruct (JsMap.get a (heartbeatIntervals st)).
    - intros Hin. apply keys_delete in Hin as [_ Hin]. by apply Hknown.
    - apply Hknown. }
  assert (NoDup (JsMap.keys (timers st1))) as Hnt1.
  { rewrite Ht1. destruct (JsMap.get a (heartbeatIntervals st)); [by apply NoDup_delete|done]. }
  unfold with_timers. split; cbn [agents heartbeatIntervals timers next_timer].
  - by rewrite Ha1.
  - rewrite Hh1. by apply NoDup_set.
  - rewrite keys_append, Hn1. apply NoDup_app. split; [done|]. split; [|apply NoDup_singleton].
    intros h Hh Hh'. apply list_elem_of_singleton in Hh' as ->. apply Hknown1 in Hh. lia.
  - intros a'. rewrite Ha1, Hh1. destruct (decide (a = a')) as [<-|Hne].
    + rewrite get_set_eq. destruct Hreg as [p Hp]. rewrite Hp. split; done.
    + rewrite get_set_ne by done. by apply Hsame.
  - intros h a' due. rewrite Hn1, Hh1. destruct (decide (h = next_timer st)) as [->|Hne].
    + rewrite get_append_new; [|intros Hin; apply Hknown1 in Hin; lia].
      intros [= <- <-]. apply get_set_eq.
    + rewrite get_append_old by done. intros Hget.
      destruct (Hold h a' due Hget) as [Hne' Hget']. rewrite get_set_ne by done.
      by apply (Hcur h a' due).
  - intros h. rewrite keys_append, Hn1, elem_of_app, list_elem_of_singleton.
    intros [Hin| ->]; [|lia]. apply Hknown1 in Hin. lia.
  - intros a' h. rewrite Hn1, Hh1. destruct (decide (a = a')) as [<-|Hne].
    + rewrite get_set_eq. intros [= <-]. lia.
    + rewrite get_set_ne by done. intros Hget. apply Hhk in Hget. lia.
  - intros a1 a2 h. rewrite Hn1, Hh1.
    destruct (decide (a = a1)) as [<-|Hne1], (decide (a = a2)) as [<-|Hne2]; [done|..].
    + rewrite get_set_eq, get_set_ne by done. intros [= <-] Hget. apply Hhk in Hget. lia.
    + rewrite get_set_eq, get_set_ne by done. intros Hget [= <-]. apply Hhk in Hget. lia.
    + rewrite !get_set_ne by done. apply Hinj.
Qed.

Lemma emit_ok ev st : registry_ok st -> registry_ok (emit ev st).
Proof. by intros []. Qed.

Lemma node_emit_ok ev st : registry_ok st -> registry_ok (node_emit ev st).
Proof. by intros []. Qed.

Lemma set_present_ok a v st :
  registry_ok st -> is_Some (JsMap.get a (agents st)) ->
  registry_ok (with_agents (JsMap.set a v (agents st)) st).
Proof.
  intros Hok [p Hp]. split; cbn [with_agents agents heartbeatIntervals timers next_timer];
    try apply Hok.
  - apply NoDup_set, Hok.
  - intros a'. destruct (decide (a = a')) as [<-|Hne].
    + rewrite get_set_eq. pose proof (same_agents st Hok a) as Hs. rewrite Hp in Hs.
      split; [done|]. intros Hn. apply Hs in Hn. done.
    + rewrite get_set_ne by done. apply Hok.
Qed.

Lemma registerAgent_ok p now stamp st : registry_ok st -> registry_ok (registerAgent p now stamp st).
Proof.
  intros Hok. unfold registerAgent.
  set (p' := with_status online (Some now) p).
  assert (registry_ok (resetHeartbeatTimer (id p') now
                         (with_agents (JsMap.set (id p') p' (agents st)) st))) as Hreset.
  { apply resetHeartbeatTimer_ok; cbn [with_agents agents heartbeatIntervals timers next_timer];
      try apply Hok.
    - apply NoDup_set, Hok.
    - intros a' Hne. rewrite get_set_ne by done. apply Hok.
    - rewrite get_set_eq. by eexists. }
  destruct (JsMap.get (id p) (agents st)).
  - by apply emit_ok.
  - by apply node_emit_ok, emit_ok.
Qed.

Lemma unregisterAgent_ok a stamp st : registry_ok st -> registry_ok (unregisterAgent a stamp st).
Proof.
  intros Hok. unfold unregisterAgent.
  destruct (JsMap.get a (agents st)) as [p|] eqn:Hp; [|done].
  apply node_emit_ok, emit_ok.
  destruct (JsMap.get a (heartbeatIntervals st)) as [h|] eqn:Hh.
  2:{ apply (same_agents st Hok) in Hh. congruence. }
  split; cbn [with_agents with_timers clearTimeout agents heartbeatIntervals timers next_timer].
  - apply NoDup_delete, Hok.
  - apply NoDup_delete, Hok.
  - apply NoDup_delete, Hok.
  - intros a'. destruct (decide (a = a')) as [<-|Hne].
    + by rewrite !get_delete_eq.
    + rewrite !get_delete_ne by done. apply Hok.
  - intros h' a' due. destruct (decide (h = h')) as [<-|Hne]; [by rewrite get_delete_eq|].
    rewrite get_delete_ne by done. intros Hget.
    pose proof (timer_current st Hok h' a' due Hget) as Hcur.
    rewrite get_delete_ne; [done|]. intros ->. congruence.
  - intros h' Hin. apply keys_delete in Hin as [_ Hin]. by apply (timers_known st Hok).
  - intros a' h'. destruct (decide (a = a')) as [<-|Hne]; [by rewrite get_delete_eq|].
    rewrite get_delete_ne by done. apply Hok.
  - intros a1 a2 h'.
    destruct (decide (a = a1)) as [<-|Hne1]; [by rewrite get_delete_eq|].
    destruct (decide (a = a2)) as [<-|Hne2]; [by rewrite get_delete_eq|].
    rewrite !get_delete_ne by done. apply Hok.
Qed.

Lemma updateAgent_ok a u now stamp st : registry_ok st -> registry_ok (updateAgent a u now stamp st).
Proof.
  intros Hok. unfold updateAgent. destruct (JsMap.get a (agents st)) as [p|] eqn:Hp; [|done].
  apply emit_ok, set_present_ok; [done|by eexists].
Qed.

Lemma updateHeartbeat_ok a now stamp st :
  registry_ok st -> registry_ok (updateHeartbeat a now stamp st).
Proof.
  intros Hok. unfold updateHeartbeat. destruct (JsMap.get a (agents st)) as [p|] eqn:Hp; [|done].
  apply emit_ok.
  assert (registry_ok (with_agents (JsMap.set a (with_status online (Some now) p) (agents st)) st))
    as Hok1 by (apply set_present_ok; [done|by eexists]).
  apply resetHeartbeatTimer_ok; try apply Hok1.
  - intros a' _. apply Hok1.
  - cbn [with_agents agents]. rewrite get_set_eq. by eexists.
Qed.

Lemma markAgentOffline_ok a stamp st : registry_ok st -> registry_ok (markAgentOffline a stamp st).
Proof.
  intros Hok. unfold markAgentOffline. destruct (JsMap.get a (agents st)) as [p|] eqn:Hp; [|done].
  apply emit_ok, set_present_ok; [done|by eexists].
Qed.

Lemma timer_fires_ok h st : registry_ok st -> registry_ok (timer_fires h st).
Proof.
  intros Hok. unfold timer_fires.
  destruct (JsMap.get h (timers st)) as [[a due]|] eqn:Hh; [|done].
  apply markAgentOffline_ok.
  split; cbn [with_timers agents heartbeatIntervals timers next_timer]; try apply Hok.
  - apply NoDup_delete, Hok.
  - intros h' a' due'. destruct (decide (h = h')) as [<-|Hne]; [by rewrite get_delete_eq|].
    rewrite get_delete_ne by done. apply Hok.
  - intros h' Hin. apply keys_delete in Hin as [_ Hin]. by apply (timers_known st Hok).
Qed.

Lemma step_registry_ok o st : registry_ok st -> registry_ok (step o st).
Proof.
  intros Hok. destruct o as [p now stamp|a stamp|a u now stamp|a now stamp|t|now stamp]; simpl.
  - by apply registerAgent_ok.
  - by apply unregisterAgent_ok.
  - by apply updateAgent_ok.
  - by apply updateHeartbeat_ok.
  - unfold advance. generalize (js_sort (fun a b : nat * (string * Z) => (a.2.2 - b.2.2)%Z)
      (filter (fun d : nat * (string * Z) => (d.2.2 <=? t)%Z) (timers st))).
    intros ds. revert st Hok. induction ds as [|d ds IH]; intros st Hok; simpl; [done|].
    by apply IH, timer_fires_ok.
  - unfold cleanupStaleAgents. generalize (agents st). intros l.
    revert st Hok. induction l as [|e l IH]; intros st Hok; simpl; [done|].
    apply IH. destruct (JsMap.get e.1 (agents st)) as [p|]; [|done].
    destruct (stale now p); [by apply unregisterAgent_ok|done].
Qed.

Lemma run_registry_ok ops : forall st, registry_ok st -> registry_ok (run ops st).
Proof.
  induction ops as [|o ops IH]; intros st Hok; simpl; [done|].
  by apply IH, step_registry_ok.
Qed.

Lemma has_set (a k : string) (v : AgentProfile) m :
  JsMap.has a (JsMap.set k v m) = if decide (k = a) then true else JsMap.has a m.
Proof.
  unfold JsMap.has. destruct (decide (k = a)) as [->|Hne].
  - by rewrite get_set_eq.
  - by rewrite get_set_ne.
Qed.

Lemma has_delete (a k : string) (m : list (string * AgentProfile)) :
  JsMap.has a (JsMap.delete k m) = if decide (k = a) then false else JsMap.has a m.
Proof.
  unfold JsMap.has. destruct (decide (k = a)) as [->|Hne].
  - by rewrite get_delete_eq.
  - by rewrite get_delete_ne.
Qed.

Lemma resetHeartbeatTimer_frame a now st :
  agents (resetHeartbeatTimer a now st) = agents st ∧
  emitted (resetHeartbeatTimer a now st) = emitted st ∧
  node_emitted (resetHeartbeatTimer a now st) = node_emitted st.
Proof. unfold resetHeartbeatTimer. by destruct (JsMap.get a (heartbeatIntervals st)). Qed.

Lemma trace_snoc a log ev : trace a (log ++ [ev]) = trace a log ++ trace a [ev].
Proof. unfold trace. by rewrite omap_app. Qed.

Lemma replay_snoc l b : replay (l ++ [b]) = follows (replay l) b.
Proof. unfold replay. by rewrite foldl_app. Qed.

Lemma registerAgent_told a p now stamp st : told a st -> told a (registerAgent p now stamp st).
Proof.
  unfold told, registerAgent. intros Hinv.
  set (p' := with_status online (Some now) p).
  destruct (resetHeartbeatTimer_frame (id p') now
              (with_agents (JsMap.set (id p') p' (agents st)) st)) as (Ha & He & _).
  destruct (JsMap.get (id p) (agents st)) as [old|] eqn:Hold.
  - cbn [emit emitted agents]. rewrite Ha, He. cbn [with_agents agents emitted].
    rewrite trace_snoc, app_nil_r, Hinv, has_set. f_equal.
    destruct (decide (id p' = a)) as [<-|Hne]; [|done].
    unfold JsMap.has. change (id p') with (id p). by rewrite Hold.
  - cbn [node_emit emit emitted agents]. rewrite Ha, He. cbn [with_agents agents emitted].
    rewrite trace_snoc, has_set. unfold trace at 2. cbn [omap list_omap].
    change (id p') with (id p).
    destruct (String.eqb_spec (id p) a) as [<-|Hne].
    + rewrite replay_snoc, Hinv, decide_True by done.
      unfold JsMap.has. by rewrite Hold.
    + by rewrite app_nil_r, decide_False.
Qed.

Lemma unregisterAgent_told a a' stamp st : told a st -> told a (unregisterAgent a' stamp st).
Proof.
  unfold told, unregisterAgent. intros Hinv.
  destruct (JsMap.get a' (agents st)) as [old|] eqn:Hold; [|done].
  assert (forall s : Registry, agents s = agents st -> emitted s = emitted st ->
            replay (trace a (emitted s ++ [agent_left a' stamp]))
            = Some (JsMap.has a (JsMap.delete a' (agents s)))) as Hgo.
  { intros s -> ->. rewrite trace_snoc, has_delete. unfold trace at 2. cbn [omap list_omap].
    destruct (String.eqb_spec a' a) as [<-|Hne].
    - rewrite replay_snoc, Hinv, decide_True by done. unfold JsMap.has. by rewrite Hold.
    - by rewrite app_nil_r, decide_False. }
  destruct (JsMap.get a' (heartbeatIntervals st));
    cbn [node_emit emit emitted agents with_agents with_timers clearTimeout];
    by apply (Hgo st).
Qed.

Lemma set_present_told a a' v ev st :
  is_Some (JsMap.get a' (agents st)) -> trace a [ev] = [] ->
  told a st -> told a (emit ev (with_agents (JsMap.set a' v (agents st)) st)).
Proof.
  unfold told. intros [p Hp] Hev Hinv. cbn [emit with_agents emitted agents].
  rewrite trace_snoc, Hev, app_nil_r, Hinv, has_set.
  destruct (decide (a' = a)) as [<-|Hne]; [|done]. unfold JsMap.has. by rewrite Hp.
Qed.

Lemma markAgentOffline_told a a' stamp st : told a st -> told a (markAgentOffline a' stamp st).
Proof.
  intros Hinv. unfold markAgentOffline.
  destruct (JsMap.get a' (agents st)) as [p|] eqn:Hp; [|done].
  apply set_present_told; [by eexists|done|done].
Qed.

Lemma step_told a o st : told a st -> told a (step o st).
Proof.
  intros Hinv. destruct o as [p now stamp|a' stamp|a' u now stamp|a' now stamp|t|now stamp];
    simpl.
  - by apply registerAgent_told.
  - by apply unregisterAgent_told.
  - unfold updateAgent. destruct (JsMap.get a' (agents st)) as [p|] eqn:Hp; [|done].
    apply set_present_told; [by eexists|done|done].
  - unfold updateHeartbeat. destruct (JsMap.get a' (agents st)) as [p|] eqn:Hp; [|done].
    unfold told in *. cbn [emit emitted agents].
    destruct (resetHeartbeatTimer_frame a' now
                (with_agents (JsMap.set a' (with_status online (Some now) p) (agents st)) st))
      as (-> & -> & _).
    cbn [with_agents agents emitted]. rewrite trace_snoc, app_nil_r, Hinv, has_set.
    destruct (decide (a' = a)) as [<-|Hne]; [|done]. unfold JsMap.has. by rewrite Hp.
  - unfold advance. generalize (js_sort (fun a b : nat * (string * Z) => (a.2.2 - b.2.2)%Z)
      (filter (fun d : nat * (string * Z) => (d.2.2 <=? t)%Z) (timers st))).
    intros ds. revert st Hinv. induction ds as [|d ds IH]; intros st Hinv; simpl; [done|].
    apply IH. unfold timer_fires. destruct (JsMap.get d.1 (timers st)) as [[a' due]|]; [|done].
    by apply markAgentOffline_told.
  - unfold cleanupStaleAgents. generalize (agents st). intros l.
    revert st Hinv. induction l as [|e l IH]; intros st Hinv; simpl; [done|].
    apply IH. destruct (JsMap.get e.1 (agents st)) as [p|]; [|done].
    destruct (stale now p); [by apply unregisterAgent_told|done].
Qed.

Lemma run_told a ops : forall st, told a st -> told a (run ops st).
Proof.
  induction ops as [|o ops IH]; intros st Hinv; simpl; [done|].
  by apply IH, step_told.
Qed.

Lemma unregisterAgent_agents a stamp st :
  agents (unregisterAgent a stamp st) = JsMap.delete a (agents st).
Proof.
  unfold unregisterAgent. destruct (JsMap.get a (agents st)) as [p|] eqn:Hp.
  - by destruct (JsMap.get a (heartbeatIntervals st)).
  - by rewrite delete_absent.
Qed.

Lemma get_middle {V} (p l : list (string * V)) k v :
  k ∉ JsMap.keys p -> JsMap.get k (p ++ (k, v) :: l) = Some v.
Proof.
  unfold JsMap.keys. induction p as [|[k' v'] p IH]; simpl; intros Hk.
  - by rewrite decide_True.
  - apply not_elem_of_cons in Hk as [Hne Hk]. rewrite decide_False by done. by apply IH.
Qed.

Lemma delete_middle {V} (p l : list (string * V)) k v :
  k ∉ JsMap.keys p -> k ∉ JsMap.keys l -> JsMap.delete k (p ++ (k, v) :: l) = p ++ l.
Proof.
  unfold JsMap.keys. intros Hp Hl. induction p as [|[k' v'] p IH]; simpl.
  - rewrite decide_True by done. apply delete_absent. by apply get_None.
  - simpl in Hp. apply not_elem_of_cons in Hp as [Hne Hp]. rewrite decide_False by done.
    by rewrite IH.
Qed.

Lemma cleanup_agents now stamp l : forall st p,
  agents st = p ++ l -> NoDup (JsMap.keys (p ++ l)) ->
  agents (foldl (fun s (entry : string * AgentProfile) =>
                   match JsMap.get entry.1 (agents s) with
                   | Some agent => if stale now agent then unregisterAgent entry.1 stamp s else s
                   | None => s
                   end) st l)
  = p ++ filter (fun e : string * AgentProfile => negb (stale now e.2)) l.
Proof.
  induction l as [|[k a] l IH]; intros st p Hst Hnd.
  - by rewrite filter_nil.
  - unfold JsMap.keys in Hnd. rewrite fmap_app, fmap_cons in Hnd.
    apply NoDup_app in Hnd as (Hndp & Hdisj & Hndl). apply NoDup_cons in Hndl as [Hkl Hndl].
    assert (k ∉ JsMap.keys p) as Hkp.
    { intros Hin. apply (Hdisj k Hin). by left. }
    cbn [foldl fst]. rewrite Hst, get_middle by done. rewrite filter_cons. cbn [snd].
    destruct (stale now a) eqn:Hstale.
    + rewrite decide_False by (by intros []). apply IH.
      * by rewrite unregisterAgent_agents, Hst, delete_middle.
      * unfold JsMap.keys. rewrite fmap_app. apply NoDup_app. split; [done|]. split; [|done].
        intros x Hx Hx'. apply (Hdisj x Hx). by right.
    + rewrite decide_True by done.
      replace (p ++ (k, a) :: filter (fun e : string * AgentProfile => negb (stale now e.2)) l)
        with ((p ++ [(k, a)]) ++ filter (fun e : string * AgentProfile => negb (stale now e.2)) l)
        by (by rewrite <- app_assoc).
      apply IH.
      * by rewrite Hst, <- app_assoc.
      * rewrite <- app_assoc. cbn [app]. unfold JsMap.keys. rewrite fmap_app, fmap_cons.
        apply NoDup_app. split; [done|]. split; [done|]. by apply NoDup_cons.
Qed.

Lemma values_filter {V} (f : V -> bool) (l : list (string * V)) :
  JsMap.values (filter (fun e : string * V => f e.2) l) = filter (fun v => f v) (JsMap.values l).
Proof.
  unfold JsMap.values. induction l as [|[k v] l IH]; [done|].
  rewrite (filter_cons_bool (fun e : string * V => f e.2)). rewrite fmap_cons.
  rewrite (filter_cons_bool f). cbn [snd]. destruct (f v); [|done]. by rewrite fmap_cons, IH.
Qed.

End RegistryFacts.

Module RegistryViews.
Import JS Registry JsMapFacts ListFacts SortFacts RegistrySpec RegistryFacts.

Lemma entry_of_get {K V} `{EqDecision K} (m : list (K * V)) h v :
  JsMap.get h m = Some v -> (h, v) ∈ m.
Proof.
  induction m as [|[h' v'] m IH]; simpl; [done|].
  destruct (decide (h' = h)) as [->|Hne].
  - intros [= ->]. by left.
  - intros Hget. right. by apply IH.
Qed.

Lemma get_of_entry {K V} `{EqDecision K} (m : list (K * V)) h v :
  NoDup (JsMap.keys m) -> (h, v) ∈ m -> JsMap.get h m = Some v.
Proof.
  unfold JsMap.keys. induction m as [|[h' v'] m IH]; simpl; intros Hnd Hin.
  - by apply elem_of_nil in Hin.
  - apply NoDup_cons in Hnd as [Hh' Hnd]. apply elem_of_cons in Hin as [[= <- <-]|Hin].
    + by rewrite decide_True.
    + rewrite decide_False; [by apply IH|]. intros ->. apply Hh'.
      apply list_elem_of_fmap. by exists (h, v).
Qed.

Lemma filter_delete (f : nat * (string * Z) -> bool) h (ts : list (nat * (string * Z))) :
  (forall v, (h, v) ∈ ts -> f (h, v) = false) ->
  filter (fun d => f d) (JsMap.delete h ts) = filter (fun d => f d) ts.
Proof.
  induction ts as [|[h' v'] ts IH]; intros Hf; [done|]. simpl.
  destruct (decide (h' = h)) as [->|Hne].
  - rewrite (filter_cons_bool f), Hf by (by left). apply IH. intros v Hv. apply Hf. by right.
  - rewrite !(filter_cons_bool f). rewrite IH; [done|]. intros v Hv. apply Hf. by right.
Qed.

(** Clearing or firing a timer that is not one of [a]. *)
Lemma own_delete a h st :
  NoDup (JsMap.keys (timers st)) -> h ∉ (own a st).*1 ->
  filter (fun d : nat * (string * Z) => String.eqb d.2.1 a) (JsMap.delete h (timers st))
  = own a st.
Proof.
  intros Hnd Hh. unfold own. apply (filter_delete (fun d => String.eqb d.2.1 a)).
  intros v Hv. cbn [snd fst]. destruct (String.eqb_spec v.1 a) as [Heq|Hne]; [|done].
  exfalso. apply Hh. apply list_elem_of_fmap. exists (h, v). split; [done|].
  unfold own. apply list_elem_of_filter. split; [|done]. simpl. rewrite Heq.
  by rewrite String.eqb_refl.
Qed.

Lemma not_own a a' h st :
  registry_ok st -> a' ≠ a -> JsMap.get a' (heartbeatIntervals st) = Some h ->
  h ∉ (own a st).*1.
Proof.
  intros Hok Hne Hh Hin. apply list_elem_of_fmap in Hin as [[h' [a'' due']] [Heq Hin]].
  simpl in Heq. subst h'. unfold own in Hin. apply list_elem_of_filter in Hin as [Ha Hin].
  simpl in Ha. apply Is_true_true, String.eqb_eq in Ha. subst a''.
  apply get_of_entry in Hin; [|apply Hok].
  apply (timer_current st Hok) in Hin. apply Hne. by apply (handles_apart st Hok a' a h).
Qed.

Lemma resetHeartbeatTimer_own a a' now st :
  registry_ok st -> a' ≠ a -> own a (resetHeartbeatTimer a' now st) = own a st.
Proof.
  intros Hok Hne. unfold resetHeartbeatTimer.
  destruct (JsMap.get a' (heartbeatIntervals st)) as [h|] eqn:Hh.
  - unfold own at 1. cbn [with_timers clearTimeout timers next_timer heartbeatIntervals].
    rewrite filter_app, filter_cons_bool. cbn [snd fst].
    rewrite (proj2 (String.eqb_neq a' a)) by done. rewrite filter_nil, app_nil_r.
    apply own_delete; [apply Hok|]. by apply (not_own a a' h).
  - unfold own. cbn [with_timers timers next_timer heartbeatIntervals].
    rewrite filter_app, filter_cons_bool. cbn [snd fst].
    rewrite (proj2 (String.eqb_neq a' a)) by done. by rewrite filter_nil, app_nil_r.
Qed.

(** A call for another agent. *)
Lemma call_view a o st :
  registry_ok st -> leaves a (view a st) o ->
  (forall t, o ≠ do_advance t) -> (forall now stamp, o ≠ do_cleanup now stamp) ->
  view a (step o st) = view a st.
Proof.
  intros Hok Hl Hadv Hcl. unfold view.
  destruct o as [p now stamp|a' stamp|a' u now stamp|a' now stamp|t|now stamp];
    cbn [step leaves] in *.
  - unfold registerAgent. set (p' := with_status online (Some now) p).
    set (st1 := with_agents (JsMap.set (id p') p' (agents st)) st).
    assert (own a (resetHeartbeatTimer (id p') now st1) = own a st) as Hown.
    { transitivity (own a (resetHeartbeatTimer (id p') now st)).
      - unfold resetHeartbeatTimer, st1. cbn [with_agents heartbeatIntervals].
        by destruct (JsMap.get (id p') (heartbeatIntervals st)).
      - by apply resetHeartbeatTimer_own. }
    destruct (resetHeartbeatTimer_frame (id p') now st1) as (Ha & _ & _).
    assert (forall s, agents s = agents (resetHeartbeatTimer (id p') now st1) ->
                      own a s = own a (resetHeartbeatTimer (id p') now st1) ->
                      (JsMap.get a (agents s), own a s) = (JsMap.get a (agents st), own a st))
      as Hgo.
    { intros s -> ->. rewrite Ha, Hown. unfold st1. cbn [with_agents agents].
      by rewrite get_set_ne. }
    destruct (JsMap.get (id p) (agents st)); by apply Hgo.
  - rewrite unregisterAgent_agents, get_delete_ne by done. f_equal.
    unfold unregisterAgent. destruct (JsMap.get a' (agents st)); [|done].
    destruct (JsMap.get a' (heartbeatIntervals st)) as [h|] eqn:Hh; [|done].
    unfold own at 1.
    cbn [node_emit emit with_agents with_timers clearTimeout timers].
    apply own_delete; [apply Hok|]. by apply (not_own a a' h).
  - unfold updateAgent. destruct (JsMap.get a' (agents st)); [|done].
    cbn [emit with_agents agents]. by rewrite get_set_ne.
  - unfold updateHeartbeat. destruct (JsMap.get a' (agents st)) as [p|] eqn:Hp; [|done].
    set (st1 := with_agents _ st).
    assert (registry_ok st1) as Hok1 by (apply set_present_ok; [done|by eexists]).
    destruct (resetHeartbeatTimer_frame a' now st1) as (Ha & _ & _).
    assert (own a (emit (agent_heartbeat a' stamp) (resetHeartbeatTimer a' now st1))
            = own a (resetHeartbeatTimer a' now st1)) as -> by done.
    rewrite resetHeartbeatTimer_own by done. cbn [emit agents]. rewrite Ha.
    unfold st1. cbn [with_agents agents]. by rewrite get_set_ne.
  - by destruct (Hadv t).
  - by destruct (Hcl now stamp).
Qed.

Lemma elem_of_delete {K V} `{EqDecision K} (m : list (K * V)) h x :
  x ∈ JsMap.delete h m -> x.1 ≠ h ∧ x ∈ m.
Proof.
  induction m as [|[h' v'] m IH]; simpl; [by intros ?%elem_of_nil|].
  destruct (decide (h' = h)) as [->|Hne].
  - intros Hin. destruct (IH Hin). split; [done|by right].
  - intros [->|Hin]%elem_of_cons; [split; [done|by left]|].
    destruct (IH Hin). split; [done|by right].
Qed.

(** A timer of another agent fires. *)
Lemma timer_fires_view a h st :
  registry_ok st -> h ∉ (own a st).*1 -> view a (timer_fires h st) = view a st.
Proof.
  intros Hok Hh. unfold timer_fires.
  destruct (JsMap.get h (timers st)) as [[a' due]|] eqn:Hget; [|done].
  assert (a' ≠ a) as Hne.
  { intros ->. apply Hh. apply list_elem_of_fmap. exists (h, (a, due)). split; [done|].
    unfold own. apply list_elem_of_filter. split; [simpl; by rewrite String.eqb_refl|].
    by apply entry_of_get. }
  unfold view, markAgentOffline. cbn [with_timers agents].
  destruct (JsMap.get a' (agents st)) as [p|].
  - unfold own at 1. cbn [emit with_agents with_timers agents timers].
    rewrite get_set_ne by done. f_equal. apply own_delete; [apply Hok|done].
  - unfold own at 1. cbn [with_timers agents timers]. f_equal.
    apply own_delete; [apply Hok|done].
Qed.

(** The timer of [a] fires. *)
Lemma timer_fires_own a h due agent st :
  registry_ok st -> JsMap.get a (agents st) = Some agent -> own a st = [(h, (a, due))] ->
  view a (timer_fires h st) = (Some (with_status offline None agent), []).
Proof.
  intros Hok Hagent Hown.
  assert (JsMap.get h (timers st) = Some (a, due)) as Hget.
  { apply get_of_entry; [apply Hok|].
    assert ((h, (a, due)) ∈ own a st) as Hin by (rewrite Hown; by left).
    unfold own in Hin. by apply list_elem_of_filter in Hin as [_ Hin]. }
  unfold timer_fires. rewrite Hget. unfold view, markAgentOffline. cbn [with_timers agents].
  rewrite Hagent. cbn [emit with_agents agents]. rewrite get_set_eq. f_equal.
  unfold own. cbn [timers].
  destruct (filter (fun d : nat * (string * Z) => String.eqb d.2.1 a)
              (JsMap.delete h (timers st))) as [|x l] eqn:Hf; [done|].
  assert (x ∈ filter (fun d : nat * (string * Z) => String.eqb d.2.1 a)
                (JsMap.delete h (timers st))) as Hx by (rewrite Hf; by left).
  apply list_elem_of_filter in Hx as [Ha Hx]. apply elem_of_delete in Hx as [Hne Hx].
  assert (x ∈ own a st) as Hx' by (unfold own; by apply list_elem_of_filter).
  rewrite Hown in Hx'. apply list_elem_of_singleton in Hx' as ->. done.
Qed.

Lemma fires_view a ds : forall st,
  registry_ok st -> Forall (fun d : nat * (string * Z) => d.1 ∉ (own a st).*1) ds ->
  let st' := foldl (fun s (d : nat * (string * Z)) => timer_fires d.1 s) st ds in
  view a st' = view a st ∧ registry_ok st'.
Proof.
  induction ds as [|d ds IH]; intros st Hok Hall; [done|].
  apply Forall_cons in Hall as [Hd Hall]. cbn [foldl].
  pose proof (timer_fires_view a d.1 st Hok Hd) as Hv.
  destruct (IH (timer_fires d.1 st)) as [Hv' Hok'].
  - by apply timer_fires_ok.
  - assert (own a (timer_fires d.1 st) = own a st) as -> by (by injection Hv).
    done.
  - split; [congruence|done].
Qed.

Lemma due_timers t st d :
  d ∈ js_sort (fun a b : nat * (string * Z) => (a.2.2 - b.2.2)%Z)
        (filter (fun d : nat * (string * Z) => (d.2.2 <=? t)%Z) (timers st))
  <-> d ∈ timers st ∧ (d.2.2 <= t)%Z.
Proof.
  rewrite js_sort_perm, list_elem_of_filter. rewrite Is_true_true, Z.leb_le. tauto.
Qed.

Lemma same_handle st d d' :
  registry_ok st -> d ∈ timers st -> d' ∈ timers st -> d.1 = d'.1 -> d = d'.
Proof.
  intros Hok Hd Hd' Heq. destruct d as [h v], d' as [h' v']. simpl in Heq. subst h'.
  apply get_of_entry in Hd; [|apply Hok]. apply get_of_entry in Hd'; [|apply Hok]. congruence.
Qed.

(** Time passes, to before the timers of [a] are due. *)
Lemma advance_calm a t st :
  registry_ok st -> Forall (fun d : nat * (string * Z) => (t < d.2.2)%Z) (own a st) ->
  view a (advance t st) = view a st.
Proof.
  intros Hok Hcalm. unfold advance. apply fires_view; [done|].
  apply Forall_forall. intros d Hd Hin. apply due_timers in Hd as [Hd Hdue].
  apply list_elem_of_fmap in Hin as [d' [Heq Hd']].
  assert (d' ∈ timers st) as Hd'' by (unfold own in Hd'; by apply list_elem_of_filter in Hd' as [_ ?]).
  assert (d = d') as -> by by apply (same_handle st).
  apply (proj1 (Forall_forall _ _) Hcalm) in Hd'. lia.
Qed.

(** Time passes, to when the timer of [a] is due or later. *)
Lemma advance_past_due a t h due agent st :
  registry_ok st -> JsMap.get a (agents st) = Some agent -> own a st = [(h, (a, due))] ->
  (due <= t)%Z ->
  view a (advance t st) = (Some (with_status offline None agent), []).
Proof.
  intros Hok Hagent Hown Hdue. unfold advance.
  set (ds := js_sort _ _).
  assert ((h, (a, due)) ∈ timers st) as Hin.
  { assert ((h, (a, due)) ∈ own a st) as Hin by (rewrite Hown; by left).
    unfold own in Hin. by apply list_elem_of_filter in Hin as [_ Hin]. }
  assert ((h, (a, due)) ∈ ds) as Hds by (by apply due_timers).
  assert (NoDup ds) as Hnd.
  { unfold ds. rewrite js_sort_perm. apply NoDup_filter.
    apply (NoDup_fmap_1 fst), Hok. }
  apply list_elem_of_split in Hds as (l1 & l2 & Hsplit). rewrite Hsplit in Hnd |- *.
  apply NoDup_app in Hnd as (_ & Hl1 & Hnd2). apply NoDup_cons in Hnd2 as [Hl2 _].
  assert (forall d, d ∈ ds -> d ≠ (h, (a, due)) -> d.1 ≠ h) as Hother.
  { intros d Hd Hne Heq. apply Hne. apply (same_handle st); try done.
    by apply due_timers in Hd as [Hd _]. }
  rewrite foldl_app. cbn [foldl fst].
  destruct (fires_view a l1 st Hok) as [Hv1 Hok1].
  { apply Forall_forall. intros d Hd. rewrite Hown. cbn. intros Hh.
    apply list_elem_of_singleton in Hh. apply (Hother d); [| |done].
    - rewrite Hsplit. apply elem_of_app. by left.
    - intros ->. apply (Hl1 _ Hd). by left. }
  set (s1 := foldl _ st l1) in *. unfold view in Hv1. injection Hv1 as Ha1 Ho1.
  pose proof (timer_fires_own a h due agent s1 Hok1) as Hfire.
  rewrite Ha1, Ho1 in Hfire. specialize (Hfire Hagent Hown).
  destruct (fires_view a l2 (timer_fires h s1)) as [Hv2 _].
  - by apply timer_fires_ok.
  - apply Forall_forall. intros d Hd. unfold view in Hfire. injection Hfire as _ ->.
    cbn. apply not_elem_of_nil.
  - by rewrite Hv2.
Qed.

(** A cleanup at a time when [a] is not stale. *)
Lemma cleanup_calm a now stamp st :
  registry_ok st ->
  match JsMap.get a (agents st) with
  | Some agent => stale now agent = false
  | None => True
  end ->
  view a (cleanupStaleAgents now stamp st) = view a st.
Proof.
  intros Hok Hfresh. unfold cleanupStaleAgents. generalize (agents st). intros l.
  revert st Hok Hfresh. induction l as [|e l IH]; intros s Hoks Hfresh; [done|].
  cbn [foldl].
  destruct (JsMap.get e.1 (agents s)) as [ag|] eqn:Hag; [|by apply IH].
  destruct (stale now ag) eqn:Hstale; [|by apply IH].
  assert (e.1 ≠ a) as Hne.
  { intros Heq. rewrite Heq in Hag. rewrite Hag in Hfresh. congruence. }
  assert (view a (unregisterAgent e.1 stamp s) = view a s) as Hv
    by (by apply (call_view a (do_unregister e.1 stamp) s)).
  rewrite <- Hv. apply IH; [by apply unregisterAgent_ok|].
  unfold view in Hv. injection Hv as -> _. done.
Qed.

Lemma run_leaves a ops : forall st,
  registry_ok st -> Forall (leaves a (view a st)) ops -> view a (run ops st) = view a st.
Proof.
  induction ops as [|o ops IH]; intros st Hok Hall; [done|].
  apply Forall_cons in Hall as [Ho Hall].
  change (run (o :: ops) st) with (run ops (step o st)).
  assert (view a (step o st) = view a st) as Hv.
  { destruct o as [p now stamp|a' stamp|a' u now stamp|a' now stamp|t|now stamp].
    5:{ cbn [step]. by apply advance_calm. }
    5:{ cbn [step]. by apply cleanup_calm. }
    all: apply call_view; try done. }
  rewrite IH; [done|by apply step_registry_ok|by rewrite Hv].
Qed.

Lemma resetHeartbeatTimer_self a now st :
  registry_ok st ->
  exists h, own a (resetHeartbeatTimer a now st) = [(h, (a, (now + HEARTBEAT_TIMEOUT)%Z))].
Proof.
  intros Hok.
  assert (forall l : list (nat * (string * Z)),
            (forall x, x ∈ l -> x.2.1 ≠ a) ->
            filter (fun d : nat * (string * Z) => String.eqb d.2.1 a) l = []) as Hnone.
  { induction l as [|x l IH]; intros Hl; [done|].
    rewrite filter_cons_bool, (proj2 (String.eqb_neq x.2.1 a)) by (apply Hl; by left).
    apply IH. intros y Hy. apply Hl. by right. }
  unfold resetHeartbeatTimer.
  destruct (JsMap.get a (heartbeatIntervals st)) as [h0|] eqn:Hh.
  - exists (next_timer st). unfold own.
    cbn [with_timers clearTimeout timers next_timer heartbeatIntervals].
    rewrite filter_app, filter_cons_bool. cbn [snd fst]. rewrite String.eqb_refl, filter_nil.
    rewrite Hnone; [done|]. intros [h [a' due]] Hx Ha. simpl in Ha. subst a'.
    apply elem_of_delete in Hx as [Hne Hx]. apply get_of_entry in Hx; [|apply Hok].
    apply (timer_current st Hok) in Hx. simpl in Hne. congruence.
  - exists (next_timer st). unfold own. cbn [with_timers timers next_timer heartbeatIntervals].
    rewrite filter_app, filter_cons_bool. cbn [snd fst]. rewrite String.eqb_refl, filter_nil.
    rewrite Hnone; [done|]. intros [h [a' due]] Hx Ha. simpl in Ha. subst a'.
    apply get_of_entry in Hx; [|apply Hok].
    apply (timer_current st Hok) in Hx. congruence.
Qed.

(** What the registry holds about an agent that has just registered. *)
Lemma registerAgent_view p now stamp st :
  registry_ok st ->
  exists h, view (id p) (registerAgent p now stamp st)
            = (Some (with_status online (Some now) p),
               [(h, (id p, (now + HEARTBEAT_TIMEOUT)%Z))]).
Proof.
  intros Hok. destruct (resetHeartbeatTimer_self (id p) now st Hok) as [h Hself].
  exists h. unfold view, registerAgent. set (p' := with_status online (Some now) p).
  set (st1 := with_agents (JsMap.set (id p') p' (agents st)) st).
  assert (own (id p) (resetHeartbeatTimer (id p') now st1)
          = [(h, (id p, (now + HEARTBEAT_TIMEOUT)%Z))]) as Hown.
  { rewrite <- Hself. unfold resetHeartbeatTimer, st1. cbn [with_agents heartbeatIntervals id p'
      with_status]. by destruct (JsMap.get (id p) (heartbeatIntervals st)). }
  assert (JsMap.get (id p) (agents (resetHeartbeatTimer (id p') now st1)) = Some p') as Hag.
  { unfold resetHeartbeatTimer, st1. cbn [with_agents heartbeatIntervals].
    destruct (JsMap.get (id p') (heartbeatIntervals st));
      cbn [with_timers clearTimeout agents]; apply get_set_eq. }
  destruct (JsMap.get (id p) (agents st)); unfold own in *;
    cbn [node_emit emit agents timers]; by rewrite Hag, Hown.
Qed.

Lemma get_filtered {V} (f : V -> bool) (m : list (string * V)) a v :
  NoDup (JsMap.keys m) -> JsMap.get a m = Some v -> f v = false ->
  JsMap.get a (filter (fun e : string * V => f e.2) m) = None.
Proof.
  intros Hnd Hget Hf.
  destruct (JsMap.get a (filter (fun e : string * V => f e.2) m)) as [v'|] eqn:Hget'; [|done].
  apply entry_of_get in Hget'. apply list_elem_of_filter in Hget' as [Hf' Hin].
  apply get_of_entry in Hin; [|done]. simpl in Hf'.
  assert (v' = v) as -> by congruence. rewrite Hf in Hf'. done.
Qed.

End RegistryViews.

Module RegistryProperties.
Import JS Registry JsMapFacts RegistrySpec RegistryFacts RegistryViews.

(** X18.  In every state of the registry an agent is listed once, and a
    heartbeat timer that is set belongs to a registered agent and is the
    only one set for it: timers of agents that left, and timers that a
    heartbeat or a registration replaced, are cleared. *)
Theorem one_heartbeat_timer_for_an_agent (ops : list Op) (h : nat) (a : string) (due : Z) :
  let st := run ops new in
  NoDup (JsMap.keys (agents st)) ∧
  (JsMap.get h (timers st) = Some (a, due) ->
   is_Some (getAgent a st) ∧
   forall h' due', JsMap.get h' (timers st) = Some (a, due') -> h' = h).
Proof.
  intros st.
  assert (registry_ok st) as Hok by apply run_registry_ok, new_registry_ok.
  split; [apply Hok|]. intros Hget.
  pose proof (timer_current st Hok h a due Hget) as Hcur. split.
  - unfold getAgent. destruct (JsMap.get a (agents st)) eqn:Ha; [by eexists|].
    apply (same_agents st Hok) in Ha. congruence.
  - intros h' due' Hget'. pose proof (timer_current st Hok h' a due' Hget') as Hcur'. congruence.
Qed.

(** X19.  For every agent id the registry's [agent:joined] and [agent:left]
    events come in turn, [agent:joined] first, and the agent is registered
    exactly when the last of them is [agent:joined]. *)
Theorem joined_and_left_take_turns (ops : list Op) (a : string) :
  let st := run ops new in
  replay (trace a (emitted st)) = Some (JsMap.has a (agents st)).
Proof. intros st. by apply run_told. Qed.

(** X20.  [cleanupStaleAgents] takes out the agents that are offline and
    were last seen more than 60000 ms before, and no other: the agents
    listed afterwards are the others, in the order they had. *)
Theorem cleanup_removes_the_stale (ops : list Op) (now stamp : Z) :
  let st := run ops new in
  getAllAgents (cleanupStaleAgents now stamp st)
  = filter (fun a => negb (stale now a)) (getAllAgents st).
Proof.
  intros st.
  assert (registry_ok st) as Hok by apply run_registry_ok, new_registry_ok.
  unfold getAllAgents, cleanupStaleAgents.
  rewrite (cleanup_agents now stamp (agents st) st []); [|done|apply Hok].
  cbn [app]. apply (values_filter (fun a => negb (stale now a))).
Qed.

(** X21.  An agent registers at time [now] and is not heard of again, while
    the registry goes on with other agents, with time and with cleanups.
    Until its heartbeat is due, at [now + 30000], it is held online; from
    then on it is held offline, last seen at [now]; and the first cleanup
    later than [now + 60000] takes it out. *)
Theorem silent_agent_goes_offline_then_leaves (before calls calls' : list Op)
    (p : AgentProfile) (now stamp t c stamp' : Z) (st1 st3 : Registry) :
  st1 = registerAgent p now stamp (run before new) ->
  Forall (leaves (id p) (view (id p) st1)) calls ->
  (now + HEARTBEAT_TIMEOUT <= t)%Z ->
  st3 = advance t (run calls st1) ->
  Forall (leaves (id p) (view (id p) st3)) calls' ->
  (now + 2 * HEARTBEAT_TIMEOUT < c)%Z ->
  getAgent (id p) (run calls st1) = Some (with_status online (Some now) p) ∧
  getAgent (id p) (run calls' st3) = Some (with_status offline (Some now) p) ∧
  getAgent (id p) (cleanupStaleAgents c stamp' (run calls' st3)) = None.
Proof.
  intros Hst1 Hcalls Ht Hst3 Hcalls' Hc.
  assert (registry_ok (run before new)) as Hok0 by apply run_registry_ok, new_registry_ok.
  assert (registry_ok st1) as Hok1 by (rewrite Hst1; by apply registerAgent_ok).
  destruct (registerAgent_view p now stamp _ Hok0) as [h Hv1]. rewrite <- Hst1 in Hv1.
  pose proof (run_leaves (id p) calls st1 Hok1 Hcalls) as Hv2. rewrite Hv1 in Hv2.
  assert (registry_ok (run calls st1)) as Hok2 by by apply run_registry_ok.
  unfold view in Hv2. injection Hv2 as Hag2 Hown2.
  pose proof (advance_past_due (id p) t h _ _ _ Hok2 Hag2 Hown2 Ht) as Hv3. rewrite <- Hst3 in Hv3.
  assert (registry_ok st3) as Hok3.
  { rewrite Hst3. by apply (step_registry_ok (do_advance t)). }
  pose proof (run_leaves (id p) calls' st3 Hok3 Hcalls') as Hv4. rewrite Hv3 in Hv4.
  assert (registry_ok (run calls' st3)) as Hok4 by by apply run_registry_ok.
  unfold view in Hv4. injection Hv4 as Hag4 Hown4.
  split; [done|]. split; [done|]. unfold getAgent, cleanupStaleAgents.
  rewrite (cleanup_agents c stamp' (agents (run calls' st3)) (run calls' st3) []);
    [|done|apply Hok4].
  cbn [app].
  apply (get_filtered (fun v => negb (stale c v)) _ _ _ (agents_nodup _ Hok4) Hag4).
  unfold stale, HEARTBEAT_TIMEOUT in *. cbn [with_status performance seen lastSeen status is_offline].
  rewrite andb_true_r, negb_false_iff. apply Z.ltb_lt. lia.
Qed.

Lemma silent_agent_goes_offline_then_leaves_witness :
  let p := profile_of "a" busy 0 in
  let calls := [do_register (profile_of "b" busy 0) 5 5; do_advance 1000; do_cleanup 1000 1000] in
  let calls' := [do_heartbeat "b" 40000 40000; do_advance 50000] in
  let st1 := registerAgent p 0 0 new in
  let st3 := advance 30000 (run calls st1) in
  getAgent "a" (run calls st1) = Some (with_status online (Some 0%Z) p) ∧
  getAgent "a" (run calls' st3) = Some (with_status offline (Some 0%Z) p) ∧
  getAgent "a" (cleanupStaleAgents 70000 70000 (run calls' st3)) = None.
Proof.
  intros p calls calls' st1 st3.
  assert (Forall (leaves (id p) (view (id p) st1)) calls) as H1.
  { repeat (apply Forall_cons; split); [by vm_compute..|by apply Forall_nil]. }
  assert (Forall (leaves (id p) (view (id p) st3)) calls') as H2.
  { repeat (apply Forall_cons; split); [by vm_compute..|by apply Forall_nil]. }
  exact (silent_agent_goes_offline_then_leaves [] calls calls' p 0 0 30000 70000 70000 st1 st3
           eq_refl H1 ltac:(by vm_compute) eq_refl H2 ltac:(by vm_compute)).
Defined.

(** Two agents registered at 0; one sends a heartbeat at 20000.  At 40000
    the silent one is offline; the cleanup at 70000 takes it out and leaves
    the other, whose timer fired at 50000 and which was seen at 20000. *)
Example silent_agent_leaves :
  let st := run [do_register (profile_of "a" busy 0) 0 0; do_register (profile_of "b" busy 0) 0 0;
                 do_heartbeat "b" 20000 20000; do_advance 40000] new in
  (status <$> getAllAgents st) = [offline; online] ∧
  (id <$> getAllAgents (run [do_advance 70000; do_cleanup 70000 70000] st)) = ["b"] ∧
  (status <$> getAllAgents (run [do_advance 70000; do_cleanup 70000 70000] st)) = [offline].
Proof. by vm_compute. Qed.

End RegistryProperties.

(** ** The stream splitter: responses by correlation id *)

Module DemuxFacts.
Import JS Demux JsMapFacts ListFacts SortFacts RegistryFacts RegistryViews DemuxSpec.

Lemma response_event_inj c c' : response_event c = response_event c' -> c = c'.
Proof. unfold response_event. apply String.app_inj. Qed.

Lemma get_app_l {K V} `{EqDecision K} (l l' : list (K * V)) k v :
  JsMap.get k l = Some v -> JsMap.get k (l ++ l') = Some v.
Proof.
  induction l as [|[k' v'] l IH]; simpl; [done|]. by destruct (decide (k' = k)).
Qed.

Lemma get_app_r {K V} `{EqDecision K} (l l' : list (K * V)) k :
  JsMap.get k l = None -> JsMap.get k (l ++ l') = JsMap.get k l'.
Proof.
  induction l as [|[k' v'] l IH]; simpl; [done|]. by destruct (decide (k' = k)).
Qed.

Lemma new_demux_ok : demux_ok new.
Proof.
  split; cbn; try apply NoDup_nil_2.
  - by intros n w ?%elem_of_nil.
  - by intros w ?%elem_of_nil.
  - intros w. split; [lia|]. by intros [?%elem_of_nil|?%elem_of_nil].
Qed.

Lemma demuxResponse_ok c now st : demux_ok st -> demux_ok (demuxResponse c now st).2.
Proof.
  intros Hok. set (w := next_waiter st).
  assert (w ∉ JsMap.keys (timers st)) as Hwt.
  { intros Hin. assert (w < next_waiter st) by (apply Hok; by left). unfold w in *. lia. }
  assert (w ∉ JsMap.keys (settled st)) as Hws.
  { intros Hin. assert (w < next_waiter st) by (apply Hok; by right). unfold w in *. lia. }
  split; cbn [demuxResponse snd listeners timers settled next_waiter]; fold w.
  - rewrite keys_append. apply NoDup_app. split; [apply Hok|]. split; [|apply NoDup_singleton].
    intros x Hx ->%list_elem_of_singleton. done.
  - rewrite fmap_app. apply NoDup_app. split; [apply Hok|]. split; [|apply NoDup_singleton].
    intros x Hx ->%list_elem_of_singleton.
    apply list_elem_of_fmap in Hx as [[n w'] [Heq Hin]]. simpl in Heq. subst w'.
    destruct (listener_timer st Hok n w Hin) as (c' & due & Hget & _).
    by apply get_Some_keys in Hget.
  - apply Hok.
  - intros n w' [Hin|Hin%list_elem_of_singleton]%elem_of_app.
    + destruct (listener_timer st Hok n w' Hin) as (c' & due & Hget & Hn).
      exists c', due. split; [|done]. by apply get_app_l.
    + injection Hin as -> ->. exists c, (now + 30000)%Z. split; [|done].
      by apply get_append_new.
  - intros w'. rewrite keys_append. intros [Hin| ->%list_elem_of_singleton]%elem_of_app.
    + by apply Hok.
    + done.
  - intros w'. rewrite keys_append, elem_of_app, list_elem_of_singleton.
    pose proof (waiters_known st Hok w') as Hk. unfold w in *. split.
    + intros Hlt. destruct (decide (w' = next_waiter st)) as [->|Hne]; [left; by right|].
      assert (w' < next_waiter st) as Hlt' by lia. apply Hk in Hlt'. tauto.
    + intros [[Hin| ->]|Hin]; [|lia|]; assert (w' < next_waiter st) by (apply Hk; tauto); lia.
Qed.

(** A timeout is cleared or fires, and the promise is settled. *)
Lemma settle_ok (ls : list (string * nat)) w o st :
  demux_ok st -> w ∈ JsMap.keys (timers st) ->
  (forall x, x ∈ ls -> x ∈ listeners st ∧ x.2 ≠ w) -> NoDup ls.*2 ->
  demux_ok {| listeners := ls; timers := JsMap.delete w (timers st);
              settled := settled st ++ [(w, o)]; next_waiter := next_waiter st |}.
Proof.
  intros Hok Hw Hls Hnd. pose proof (timer_pending st Hok w Hw) as Hws.
  split; cbn [listeners timers settled next_waiter].
  - apply NoDup_delete, Hok.
  - done.
  - rewrite keys_append. apply NoDup_app. split; [apply Hok|]. split; [|apply NoDup_singleton].
    intros x Hx ->%list_elem_of_singleton. done.
  - intros n w' Hin. destruct (Hls _ Hin) as [Hin' Hne]. simpl in Hne.
    destruct (listener_timer st Hok n w' Hin') as (c' & due & Hget & Hn).
    exists c', due. split; [|done]. by rewrite get_delete_ne.
  - intros w' [Hne Hin]%keys_delete. rewrite keys_append.
    intros [Hs| ->%list_elem_of_singleton]%elem_of_app; [|done].
    by apply (timer_pending st Hok w').
  - intros w'. rewrite keys_delete, keys_append, elem_of_app, list_elem_of_singleton.
    pose proof (waiters_known st Hok w') as Hk. split.
    + intros Hlt. apply Hk in Hlt. destruct (decide (w' = w)); tauto.
    + intros [[_ Hin]|[Hin| ->]]; apply Hk; tauto.
Qed.

Lemma NoDup_filter_snd {A B} (f : A * B -> bool) (l : list (A * B)) :
  NoDup l.*2 -> NoDup (filter (fun x => f x) l).*2.
Proof.
  induction l as [|x l IH]; intros Hnd; [done|]. rewrite fmap_cons in Hnd.
  apply NoDup_cons in Hnd as [Hx Hnd]. rewrite (filter_cons_bool f).
  destruct (f x); [|by apply IH]. rewrite fmap_cons. apply NoDup_cons. split; [|by apply IH].
  intros Hin. apply Hx. apply list_elem_of_fmap in Hin as [y [-> Hy]].
  apply list_elem_of_filter in Hy as [_ Hy]. apply list_elem_of_fmap. by exists y.
Qed.

Lemma heard_ok d w st : demux_ok st -> w ∈ (listeners st).*2 -> demux_ok (heard d st w).
Proof.
  intros Hok Hw. unfold heard. apply settle_ok; [done| | |].
  - apply list_elem_of_fmap in Hw as [[n w'] [Heq Hin]]. simpl in Heq. subst w'.
    destruct (listener_timer st Hok n w Hin) as (c & due & Hget & _).
    by apply get_Some_keys in Hget.
  - intros x [Hf Hx]%list_elem_of_filter. split; [done|].
    apply Is_true_true, negb_true_iff, Nat.eqb_neq in Hf. done.
  - apply (NoDup_filter_snd (fun l => negb (l.2 =? w))), Hok.
Qed.

Lemma heard_listeners d w w' st :
  w' ≠ w -> w' ∈ (listeners st).*2 -> w' ∈ (listeners (heard d st w)).*2.
Proof.
  intros Hne Hin. cbn [heard listeners].
  apply list_elem_of_fmap in Hin as [x [-> Hx]]. apply list_elem_of_fmap. exists x.
  split; [done|]. apply list_elem_of_filter. split; [|done].
  apply Is_true_true, negb_true_iff, Nat.eqb_neq. done.
Qed.

Lemma hear_all_ok d ws : forall st,
  demux_ok st -> NoDup ws -> (forall w, w ∈ ws -> w ∈ (listeners st).*2) ->
  demux_ok (foldl (heard d) st ws).
Proof.
  induction ws as [|w ws IH]; intros st Hok Hnd Hws; [done|].
  apply NoDup_cons in Hnd as [Hw Hnd]. cbn [foldl]. apply IH; [|done|].
  - apply heard_ok; [done|]. apply Hws. by left.
  - intros w' Hw'. apply heard_listeners; [by intros ->|]. apply Hws. by right.
Qed.

(** The promises whose listeners an [emit] of [name] calls. *)
Lemma called_listeners name st w :
  w ∈ (filter (fun l : string * nat => String.eqb l.1 name) (listeners st)).*2
  <-> (name, w) ∈ listeners st.
Proof.
  rewrite list_elem_of_fmap. split.
  - intros [[n w'] [-> [Hn Hin]%list_elem_of_filter]]. simpl in *.
    apply Is_true_true, String.eqb_eq in Hn. by subst n.
  - intros Hin. exists (name, w). split; [done|]. apply list_elem_of_filter.
    split; [|done]. simpl. by rewrite String.eqb_refl.
Qed.

Lemma emit_demux_ok name d st : demux_ok st -> demux_ok (emit name d st).
Proof.
  intros Hok. unfold emit. apply hear_all_ok; [done| |].
  - apply (NoDup_filter_snd (fun l => String.eqb l.1 name)), Hok.
  - intros w Hw%called_listeners. apply list_elem_of_fmap. by exists (name, w).
Qed.

Lemma handleResponse_ok msg st : demux_ok st -> demux_ok (handleResponse msg st).
Proof.
  intros Hok. unfold handleResponse. destruct (correlationId msg) as [c|]; [|done].
  destruct (String.eqb c ""); [done|]. by apply emit_demux_ok.
Qed.

Lemma timer_fires_demux_ok w st : demux_ok st -> demux_ok (timer_fires w st).
Proof.
  intros Hok. unfold timer_fires.
  destruct (JsMap.get w (timers st)) as [[c due]|] eqn:Hget; [|done].
  apply settle_ok; [done|by apply get_Some_keys in Hget| |].
  - intros [n w'] [Hf Hx]%list_elem_of_filter. split; [done|]. simpl in *. intros ->.
    destruct (listener_timer st Hok n w Hx) as (c' & due' & Hget' & ->).
    assert (c' = c) as -> by congruence. by rewrite String.eqb_refl in Hf.
  - apply (NoDup_filter_snd (fun l => negb (String.eqb l.1 (response_event c)))), Hok.
Qed.

Lemma fires_demux_ok (ds : list (nat * (string * Z))) : forall st,
  demux_ok st -> demux_ok (foldl (fun s d => timer_fires d.1 s) st ds).
Proof.
  induction ds as [|d ds IH]; intros st Hok; [done|].
  cbn [foldl]. by apply IH, timer_fires_demux_ok.
Qed.

Lemma step_demux_ok o st : demux_ok st -> demux_ok (step o st).
Proof.
  intros Hok. destruct o as [c now|msg|t]; cbn [step].
  - by apply demuxResponse_ok.
  - by apply handleResponse_ok.
  - by apply fires_demux_ok.
Qed.

Lemma run_demux_ok ops : forall st, demux_ok st -> demux_ok (run ops st).
Proof.
  induction ops as [|o ops IH]; intros st Hok; [done|].
  change (run (o :: ops) st) with (run ops (step o st)). by apply IH, step_demux_ok.
Qed.

(** What [emit] leaves of the calls of resolve. *)
Lemma hear_all_settled d ws : forall st,
  settled (foldl (heard d) st ws) = settled st ++ ((fun w => (w, fulfilled d)) <$> ws).
Proof.
  induction ws as [|w ws IH]; intros st; cbn [foldl].
  - by rewrite app_nil_r.
  - rewrite IH. cbn [heard settled]. by rewrite <- app_assoc.
Qed.

Lemma get_fulfilled d (ws : list nat) (w : nat) :
  JsMap.get w ((fun w => (w, fulfilled d)) <$> ws) = if decide (w ∈ ws) then Some (fulfilled d) else None.
Proof.
  induction ws as [|w' ws IH]; [done|]. rewrite fmap_cons. simpl.
  destruct (decide (w' = w)) as [->|Hne].
  - rewrite decide_True; [done|by left].
  - rewrite IH. destruct (decide (w ∈ ws)) as [Hin|Hnin].
    + rewrite decide_True; [done|by right].
    + rewrite decide_False; [done|]. intros [?|?]%elem_of_cons; congruence.
Qed.

(** A promise that is settled stays as it is. *)
Lemma outcome_stays_heard d w w' o st :
  outcome w st = Some o -> outcome w (heard d st w') = Some o.
Proof. unfold outcome. cbn [heard settled]. apply get_app_l. Qed.

Lemma outcome_stays_emit name d w o st :
  outcome w st = Some o -> outcome w (emit name d st) = Some o.
Proof.
  unfold emit. generalize (filter (fun l : string * nat => String.eqb l.1 name) (listeners st)).*2.
  intros ws. revert st. induction ws as [|w' ws IH]; intros st Ho; [done|].
  cbn [foldl]. by apply IH, outcome_stays_heard.
Qed.

Lemma outcome_stays_fire w w' o st :
  outcome w st = Some o -> outcome w (timer_fires w' st) = Some o.
Proof.
  intros Ho. unfold timer_fires. destruct (JsMap.get w' (timers st)) as [[c due]|]; [|done].
  unfold outcome. cbn [settled]. by apply get_app_l.
Qed.

Lemma outcome_stays_fires w o (ds : list (nat * (string * Z))) : forall st,
  outcome w st = Some o -> outcome w (foldl (fun s d => timer_fires d.1 s) st ds) = Some o.
Proof.
  induction ds as [|d ds IH]; intros st Ho; [done|].
  cbn [foldl]. by apply IH, outcome_stays_fire.
Qed.

Lemma outcome_stays_step w o op st : outcome w st = Some o -> outcome w (step op st) = Some o.
Proof.
  intros Ho. destruct op as [c now|msg|t]; cbn [step].
  - done.
  - unfold handleResponse. destruct (correlationId msg) as [c|]; [|done].
    destruct (String.eqb c ""); [done|]. by apply outcome_stays_emit.
  - by apply outcome_stays_fires.
Qed.

Lemma outcome_stays w o ops : forall st, outcome w st = Some o -> outcome w (run ops st) = Some o.
Proof.
  induction ops as [|op ops IH]; intros st Ho; [done|].
  change (run (op :: ops) st) with (run ops (step op st)). by apply IH, outcome_stays_step.
Qed.

Lemma due_timeouts t st d :
  d ∈ js_sort (fun a b : nat * (string * Z) => (a.2.2 - b.2.2)%Z)
        (filter (fun d : nat * (string * Z) => (d.2.2 <=? t)%Z) (timers st))
  <-> d ∈ timers st ∧ (d.2.2 <= t)%Z.
Proof.
  rewrite js_sort_perm, list_elem_of_filter. rewrite Is_true_true, Z.leb_le. tauto.
Qed.

End DemuxFacts.


Module Unanswered.
Import JS Demux JsMapFacts ListFacts RegistryFacts RegistryViews DemuxSpec DemuxFacts.

Lemma hear_all_timers d w ws : forall st,
  w ∉ ws -> JsMap.get w (timers (foldl (heard d) st ws)) = JsMap.get w (timers st).
Proof.
  induction ws as [|w' ws IH]; intros st Hw; [done|].
  apply not_elem_of_cons in Hw as [Hne Hw]. cbn [foldl]. rewrite IH by done.
  cbn [heard timers]. by apply get_delete_ne.
Qed.

Lemma waiting_start c now st :
  demux_ok st -> waiting (next_waiter st) c (now + 30000) (demuxResponse c now st).2.
Proof.
  intros Hok. split; [by apply demuxResponse_ok|]. left.
  cbn [demuxResponse snd timers]. apply get_append_new. intros Hin.
  assert (next_waiter st < next_waiter st) by (apply Hok; by left). lia.
Qed.

Lemma fire_waiting w c due w' st : waiting w c due st -> waiting w c due (timer_fires w' st).
Proof.
  intros [Hok Hw]. split; [by apply timer_fires_demux_ok|].
  destruct Hw as [Hget|Ho]; [|right; by apply outcome_stays_fire].
  unfold timer_fires. destruct (JsMap.get w' (timers st)) as [[c' due']|] eqn:Hget'; [|by left].
  destruct (decide (w' = w)) as [->|Hne].
  - right. unfold outcome. cbn [settled]. rewrite get_app_r.
    + simpl. by rewrite decide_True.
    + apply get_None. apply (timer_pending st Hok). by apply get_Some_keys in Hget.
  - left. cbn [timers]. by rewrite get_delete_ne.
Qed.

Lemma fire_own w c due st :
  waiting w c due st -> outcome w (timer_fires w st) = Some (rejected "Response timeout").
Proof.
  intros [Hok [Hget|Ho]]; [|by apply outcome_stays_fire].
  unfold timer_fires. rewrite Hget. unfold outcome. cbn [settled]. rewrite get_app_r.
  - simpl. by rewrite decide_True.
  - apply get_None. apply (timer_pending st Hok). by apply get_Some_keys in Hget.
Qed.

Lemma fires_waiting w c due (ds : list (nat * (string * Z))) : forall st,
  waiting w c due st -> waiting w c due (foldl (fun s d => timer_fires d.1 s) st ds).
Proof.
  induction ds as [|d ds IH]; intros st Hw; [done|].
  cbn [foldl]. by apply IH, fire_waiting.
Qed.

Lemma fires_own w c due (ds : list (nat * (string * Z))) : forall st,
  waiting w c due st -> w ∈ ds.*1 ->
  outcome w (foldl (fun s d => timer_fires d.1 s) st ds) = Some (rejected "Response timeout").
Proof.
  induction ds as [|d ds IH]; intros st Hw Hin; [by apply elem_of_nil in Hin|].
  rewrite fmap_cons in Hin. cbn [foldl]. apply elem_of_cons in Hin as [->|Hin].
  - apply outcome_stays_fires. by apply (fire_own _ c due).
  - apply IH; [by apply fire_waiting|done].
Qed.

Lemma emit_waiting w c due c' d st :
  c' ≠ c -> waiting w c due st -> waiting w c due (emit (response_event c') d st).
Proof.
  intros Hne [Hok Hw]. split; [by apply emit_demux_ok|].
  destruct Hw as [Hget|Ho]; [|right; by apply outcome_stays_emit].
  left. unfold emit. rewrite hear_all_timers; [done|].
  intros Hin%called_listeners.
  destruct (listener_timer st Hok _ _ Hin) as (c'' & due'' & Hget'' & Heq).
  apply response_event_inj in Heq. congruence.
Qed.

Lemma step_keeps_waiting w c due o st :
  waiting w c due st -> silent c o -> waiting w c due (step o st).
Proof.
  intros Hw Hs. destruct o as [c' now|msg|t]; cbn [step silent] in *.
  - destruct Hw as [Hok Hw]. split; [by apply demuxResponse_ok|].
    destruct Hw as [Hget|Ho]; [left|by right].
    cbn [demuxResponse snd timers]. by apply get_app_l.
  - unfold handleResponse. destruct (correlationId msg) as [c'|]; [|done].
    destruct (String.eqb c' ""); [done|]. apply emit_waiting; [|done]. congruence.
  - by apply fires_waiting.
Qed.

Lemma run_keeps_waiting w c due ops : forall st,
  waiting w c due st -> Forall (silent c) ops -> waiting w c due (run ops st).
Proof.
  induction ops as [|o ops IH]; intros st Hw Hall; [done|].
  apply Forall_cons in Hall as [Ho Hall].
  change (run (o :: ops) st) with (run ops (step o st)). apply IH; [|done].
  by apply step_keeps_waiting.
Qed.

Lemma advance_rejects w c due t st :
  waiting w c due st -> (due <= t)%Z ->
  outcome w (advance t st) = Some (rejected "Response timeout").
Proof.
  intros Hw Hdue. destruct Hw as [Hok [Hget|Ho]].
  - unfold advance. apply (fires_own w c due); [split; [done|by left]|].
    apply list_elem_of_fmap. exists (w, (c, due)). split; [done|].
    apply due_timeouts. split; [by apply entry_of_get|done].
  - by apply outcome_stays_fires.
Qed.

End Unanswered.

Module LateResponse.
Import JS Demux JsMapFacts ListFacts RegistryFacts RegistryViews DemuxSpec DemuxFacts.

Lemma one_listener (l : list (string * nat)) n n' w :
  NoDup l.*2 -> (n, w) ∈ l -> (n', w) ∈ l -> n = n'.
Proof.
  induction l as [|[m v] l IH]; intros Hnd Hin Hin'; [by apply elem_of_nil in Hin|].
  rewrite fmap_cons in Hnd. apply NoDup_cons in Hnd as [Hv Hnd]. simpl in Hv.
  assert (forall k, (k, w) ∈ l -> w ∈ l.*2) as Hsnd.
  { intros k Hk. apply list_elem_of_fmap. by exists (k, w). }
  apply elem_of_cons in Hin as [Heq|Hin]; apply elem_of_cons in Hin' as [Heq'|Hin'].
  - congruence.
  - injection Heq as -> ->. destruct Hv. by apply (Hsnd n').
  - injection Heq' as -> ->. destruct Hv. by apply (Hsnd n).
  - by apply IH.
Qed.

Lemma hear_all_next d ws : forall st, next_waiter (foldl (heard d) st ws) = next_waiter st.
Proof. induction ws as [|w ws IH]; intros st; [done|]. cbn [foldl]. by rewrite IH. Qed.

Lemma hear_all_listeners d ws x : forall st,
  x ∈ listeners (foldl (heard d) st ws) -> x ∈ listeners st.
Proof.
  induction ws as [|w ws IH]; intros st Hx; [done|].
  cbn [foldl] in Hx. apply IH in Hx. cbn [heard listeners] in Hx.
  by apply list_elem_of_filter in Hx as [_ Hx].
Qed.

Lemma waiters_of {A} (l l' : list (A * nat)) w :
  (forall x, x ∈ l' -> x ∈ l) -> w ∈ l'.*2 -> w ∈ l.*2.
Proof.
  intros Hsub [x [-> Hx]]%list_elem_of_fmap. apply list_elem_of_fmap. exists x.
  split; [done|by apply Hsub].
Qed.

Lemma fire_listeners w x st : x ∈ listeners (timer_fires w st) -> x ∈ listeners st.
Proof.
  unfold timer_fires. destruct (JsMap.get w (timers st)) as [[c due]|]; [|done].
  cbn [listeners]. by intros [_ Hx]%list_elem_of_filter.
Qed.

Lemma fire_next w st : next_waiter (timer_fires w st) = next_waiter st.
Proof. unfold timer_fires. by destruct (JsMap.get w (timers st)) as [[c due]|]. Qed.

Lemma fire_unfulfilled w w' st :
  (forall d, outcome w st ≠ Some (fulfilled d)) ->
  forall d, outcome w (timer_fires w' st) ≠ Some (fulfilled d).
Proof.
  intros Ho d. unfold timer_fires. destruct (JsMap.get w' (timers st)) as [[c due]|]; [|done].
  unfold outcome in *. cbn [settled].
  destruct (JsMap.get w (settled st)) as [o|] eqn:Hget.
  - rewrite (get_app_l _ _ _ o) by done. apply Ho.
  - rewrite get_app_r by done. simpl. by destruct (decide (w' = w)).
Qed.

Lemma fire_deaf w w' st : deaf w st -> deaf w (timer_fires w' st).
Proof.
  intros (Hok & Hlt & Ho & Hl). split; [by apply timer_fires_demux_ok|].
  split; [by rewrite fire_next|]. split; [by apply fire_unfulfilled|].
  intros Hin. apply Hl. revert Hin. apply waiters_of. intros x. apply fire_listeners.
Qed.

Lemma fires_deaf w (ds : list (nat * (string * Z))) : forall st,
  deaf w st -> deaf w (foldl (fun s d => timer_fires d.1 s) st ds).
Proof.
  induction ds as [|d ds IH]; intros st Hd; [done|].
  cbn [foldl]. by apply IH, fire_deaf.
Qed.

Lemma emit_deaf name d w st : deaf w st -> deaf w (emit name d st).
Proof.
  intros (Hok & Hlt & Ho & Hl). split; [by apply emit_demux_ok|]. unfold emit.
  split; [by rewrite hear_all_next|]. split.
  - intros d'. unfold outcome in *. rewrite hear_all_settled.
    destruct (JsMap.get w (settled st)) as [o|] eqn:Hget.
    + rewrite (get_app_l _ _ _ o) by done. apply Ho.
    + rewrite get_app_r by done. rewrite get_fulfilled, decide_False; [done|].
      intros Hin%called_listeners. apply Hl. apply list_elem_of_fmap. by exists (name, w).
  - intros Hin. apply Hl. revert Hin. apply waiters_of. intros x. apply hear_all_listeners.
Qed.

Lemma step_deaf w o st : deaf w st -> deaf w (step o st).
Proof.
  intros Hd. destruct o as [c now|msg|t]; cbn [step].
  - destruct Hd as (Hok & Hlt & Ho & Hl). split; [by apply demuxResponse_ok|].
    cbn [demuxResponse snd next_waiter listeners]. split; [lia|]. split; [done|].
    rewrite fmap_app. intros [Hin|Hin%list_elem_of_singleton]%elem_of_app; [done|].
    simpl in Hin. lia.
  - unfold handleResponse. destruct (correlationId msg) as [c|]; [|done].
    destruct (String.eqb c ""); [done|]. by apply emit_deaf.
  - by apply fires_deaf.
Qed.

Lemma run_deaf w ops : forall st, deaf w st -> deaf w (run ops st).
Proof.
  induction ops as [|o ops IH]; intros st Hd; [done|].
  change (run (o :: ops) st) with (run ops (step o st)). by apply IH, step_deaf.
Qed.

Lemma fire_behind w1 c due1 w w' st :
  w' ≠ w1 -> behind w1 c due1 w st -> behind w1 c due1 w (timer_fires w' st).
Proof.
  intros Hne (Hok & Hlt & Ho & Hl). split; [by apply timer_fires_demux_ok|].
  split; [by rewrite fire_next|]. split; [by apply fire_unfulfilled|].
  intros Hin. destruct Hl as [Hget Hw].
  { revert Hin. apply waiters_of. intros x. apply fire_listeners. }
  unfold timer_fires in *. destruct (JsMap.get w' (timers st)) as [[c' due']|]; [|done].
  cbn [timers listeners] in *. split; [by rewrite get_delete_ne|].
  apply list_elem_of_fmap in Hin as [[n v] [Heq Hin]]. simpl in Heq. subst v.
  assert (n = response_event c) as ->; [|done].
  apply list_elem_of_filter in Hin as [_ Hin].
  by apply (one_listener (listeners st) n (response_event c) w (listeners_once st Hok)).
Qed.

(** The timeout of [w1] fires. *)
Lemma fire_makes_deaf w1 c due1 w st : behind w1 c due1 w st -> deaf w (timer_fires w1 st).
Proof.
  intros (Hok & Hlt & Ho & Hl). split; [by apply timer_fires_demux_ok|].
  split; [by rewrite fire_next|]. split; [by apply fire_unfulfilled|].
  intros Hin. destruct Hl as [Hget Hw].
  { revert Hin. apply waiters_of. intros x. apply fire_listeners. }
  unfold timer_fires in Hin. rewrite Hget in Hin. cbn [listeners] in Hin.
  apply list_elem_of_fmap in Hin as [[n v] [Heq Hin]]. simpl in Heq. subst v.
  apply list_elem_of_filter in Hin as [Hn Hin]. simpl in Hn.
  assert (n = response_event c) as ->
    by by apply (one_listener (listeners st) n (response_event c) w (listeners_once st Hok)).
  by rewrite String.eqb_refl in Hn.
Qed.

Lemma fires_make_deaf w1 c due1 w (ds : list (nat * (string * Z))) : forall st,
  behind w1 c due1 w st -> w1 ∈ ds.*1 ->
  deaf w (foldl (fun s d => timer_fires d.1 s) st ds).
Proof.
  induction ds as [|d ds IH]; intros st Hb Hin; [by apply elem_of_nil in Hin|].
  rewrite fmap_cons in Hin. cbn [foldl].
  destruct (decide (d.1 = w1)) as [->|Hne].
  - apply fires_deaf. by apply (fire_makes_deaf w1 c due1).
  - apply elem_of_cons in Hin as [?|Hin]; [congruence|].
    apply IH; [|done]. by apply fire_behind.
Qed.

Lemma behind_start w1 w2 c due1 due2 st :
  demux_ok st -> JsMap.get w1 (timers st) = Some (c, due1) ->
  JsMap.get w2 (timers st) = Some (c, due2) -> behind w1 c due1 w2 st.
Proof.
  intros Hok H1 H2. pose proof (get_Some_keys _ _ _ H2) as Hk.
  split; [done|]. split; [apply Hok; by left|]. split.
  - intros d. unfold outcome. rewrite (proj2 (get_None _ _)); [done|].
    by apply (timer_pending st Hok).
  - intros [[n v] [Heq Hin]]%list_elem_of_fmap. simpl in Heq. subst v. split; [done|].
    destruct (listener_timer st Hok n w2 Hin) as (c' & due' & Hget & ->).
    assert (c' = c) as -> by congruence. done.
Qed.

End LateResponse.

Module DemuxProperties.
Import JS Demux JsMapFacts ListFacts RegistryFacts RegistryViews DemuxSpec DemuxFacts.
Import Unanswered LateResponse.

(** X22.  A promise that [demuxResponse] returned is settled at most once,
    and it is pending exactly as long as its timeout is set. *)
Theorem promise_is_settled_at_most_once (ops : list Op) :
  let st := run ops new in
  NoDup (JsMap.keys (settled st)) ∧
  forall w, w < next_waiter st -> (outcome w st = None <-> w ∈ JsMap.keys (timers st)).
Proof.
  intros st. assert (demux_ok st) as Hok by apply run_demux_ok, new_demux_ok.
  split; [apply Hok|]. intros w Hlt. unfold outcome. rewrite get_None. split.
  - intros Hs. apply (waiters_known st Hok) in Hlt. tauto.
  - apply Hok.
Qed.

(** X23.  [handleResponse] with a correlation id that is not empty fulfils,
    with the data of the message, every promise that has a listener for
    that id, and leaves the other promises as they are: one response
    answers all who wait for the id. *)
Theorem response_answers_all_who_listen (ops : list Op) (c : string) (d : JsVal) (w : nat) :
  c ≠ "" ->
  let st := run ops new in
  (listens c w st -> outcome w (handleResponse (response c d) st) = Some (fulfilled d)) ∧
  (¬ listens c w st -> outcome w (handleResponse (response c d) st) = outcome w st).
Proof.
  intros Hc st. assert (demux_ok st) as Hok by apply run_demux_ok, new_demux_ok.
  unfold handleResponse, response, listens. cbn [correlationId data].
  rewrite (proj2 (String.eqb_neq c "")) by done.
  unfold emit, outcome. rewrite hear_all_settled. split.
  - intros Hl. rewrite get_app_r.
    + rewrite get_fulfilled, decide_True; [done|]. by apply called_listeners.
    + destruct (listener_timer st Hok _ _ Hl) as (c' & due & Hget & _).
      apply get_None, (timer_pending st Hok). by apply get_Some_keys in Hget.
  - intros Hl. destruct (JsMap.get w (settled st)) as [o|] eqn:Hget.
    + by apply get_app_l.
    + rewrite get_app_r by done. rewrite get_fulfilled, decide_False; [done|].
      by intros Hin%called_listeners.
Qed.

Lemma response_answers_all_who_listen_witness :
  let st := run [do_demux "q" 0; do_demux "q" 5; do_demux "r" 6] new in
  (listens "q" 1 st ->
   outcome 1 (handleResponse (response "q" (Some (JStr "yes"))) st)
   = Some (fulfilled (Some (JStr "yes")))) ∧
  (¬ listens "q" 1 st ->
   outcome 1 (handleResponse (response "q" (Some (JStr "yes"))) st) = outcome 1 st).
Proof.
  exact (response_answers_all_who_listen [do_demux "q" 0; do_demux "q" 5; do_demux "r" 6]
           "q" (Some (JStr "yes")) 1 ltac:(done)).
Defined.

(** X24.  A promise of [demuxResponse], made at time [now] for an id to
    which no response is handled, is rejected with [Response timeout] once
    the time is [now + 30000], whatever is done with other ids. *)
Theorem unanswered_promise_is_rejected (ops calls : list Op) (c : string) (now t : Z) :
  Forall (silent c) calls -> (now + 30000 <= t)%Z ->
  let w := (demuxResponse c now (run ops new)).1 in
  let st := (demuxResponse c now (run ops new)).2 in
  outcome w (advance t (run calls st)) = Some (rejected "Response timeout").
Proof.
  intros Hcalls Ht w st.
  assert (demux_ok (run ops new)) as Hok by apply run_demux_ok, new_demux_ok.
  apply (advance_rejects w c (now + 30000)); [|done].
  apply run_keeps_waiting; [|done]. by apply waiting_start.
Qed.

Lemma unanswered_promise_is_rejected_witness :
  outcome 1 (advance 30010
               (run [do_response (response "r" (Some JNull)); do_advance 30001;
                     do_response (response "" None)]
                  (demuxResponse "q" 10 (run [do_demux "r" 0] new)).2))
  = Some (rejected "Response timeout").
Proof.
  assert (Forall (silent "q") [do_response (response "r" (Some JNull)); do_advance 30001;
                               do_response (response "" None)]) as H.
  { repeat (apply Forall_cons; split); [by vm_compute..|by apply Forall_nil]. }
  exact (unanswered_promise_is_rejected [do_demux "r" 0] _ "q" 10 30010 H ltac:(lia)).
Defined.

(** X25.  When the timeout of a promise fires, the listeners of all the
    promises for the same correlation id are taken off: a promise for that
    id whose timeout was set then is not fulfilled by any response that
    comes later, whatever calls follow. *)
Theorem timeout_takes_the_listeners_of_its_id (ops calls : list Op) (w1 w2 : nat)
    (c : string) (due1 due2 t : Z) (d : JsVal) :
  JsMap.get w1 (timers (run ops new)) = Some (c, due1) ->
  JsMap.get w2 (timers (run ops new)) = Some (c, due2) ->
  (due1 <= t)%Z ->
  outcome w2 (run calls (advance t (run ops new))) ≠ Some (fulfilled d).
Proof.
  intros H1 H2 Ht.
  assert (demux_ok (run ops new)) as Hok by apply run_demux_ok, new_demux_ok.
  assert (deaf w2 (advance t (run ops new))) as Hd.
  { unfold advance. apply (fires_make_deaf w1 c due1); [by apply (behind_start _ _ _ _ due2)|].
    apply list_elem_of_fmap. exists (w1, (c, due1)). split; [done|].
    apply due_timeouts. split; [by apply entry_of_get|done]. }
  apply (run_deaf w2 calls) in Hd. destruct Hd as (_ & _ & Ho & _). apply Ho.
Qed.

Lemma timeout_takes_the_listeners_of_its_id_witness :
  outcome 1 (run [do_response (response "q" (Some (JStr "late")))]
               (advance 30000 (run [do_demux "q" 0; do_demux "q" 20000] new)))
  ≠ Some (fulfilled (Some (JStr "late"))).
Proof.
  exact (timeout_takes_the_listeners_of_its_id [do_demux "q" 0; do_demux "q" 20000]
           [do_response (response "q" (Some (JStr "late")))] 0 1 "q" 30000 50000 30000
           (Some (JStr "late")) eq_refl eq_refl ltac:(lia)).
Defined.

(** Two promises for the id q, made at 0 and at 20000; the response comes
    at 30000, after the timeout of the first: the second one is not
    answered and is rejected at 50000. *)
Example late_response_is_lost :
  let st := run [do_demux "q" 0; do_demux "q" 20000; do_advance 30000;
                 do_response (response "q" (Some (JStr "late")))] new in
  outcome 0 st = Some (rejected "Response timeout") ∧ outcome 1 st = None ∧
  outcome 1 (advance 50000 st) = Some (rejected "Response timeout") ∧
  outcome 1 (run [do_demux "q" 0; do_demux "q" 20000;
                  do_response (response "q" (Some (JStr "soon")))] new)
  = Some (fulfilled (Some (JStr "soon"))).
Proof. by vm_compute. Qed.

End DemuxProperties.
